(** * Animations: the bouncy-bois worker choreography, the font demo's
      geometry placement and the random vertex helper

    A shallow embedding of the TypeScript sources

      - [bouncy-bois/src/main.ts]       (module [Bouncy])
      - [fontloading-texture/src/utils.ts] and the demo scripts (modules
        [FontLoading] and [Demos])
      - the three-helper fragment with [buildRandomVertexPosition]
        (module [ThreeHelper])

    JavaScript objects that are shared by reference (three.js meshes) live
    in an explicit heap indexed by object identity; module-level [let]
    variables become fields of a state record that every function threads;
    calls into the browser, three.js and the worker are recorded in logs. *)

From Stdlib Require Import ZArith List Bool Lia.
From Stdlib Require Import Floats.SpecFloat.
From Stdlib Require QArith.
From stdpp Require Import base option list gmap strings.

Set Default Proof Using "Type".

(** ** JavaScript numbers

    The code compares, adds and copies IEEE doubles, and a slot typed
    [number] can also hold [undefined] (a typed-array read past the end).
    The operations the sources use are collected in one interface, so the
    development below is independent of how doubles are represented.
    [Binary64] further down instantiates it with the Standard Library's
    executable model of binary64 arithmetic. *)

Class JSNumber (num : Type) := {
  undefined : num;
  num_of_Z : Z -> num;            (* an integer literal *)
  num_half : num;                 (* the literal 0.5 *)
  num_PI : num;                   (* Math.PI *)
  num_add : num -> num -> num;    (* a + b *)
  num_sub : num -> num -> num;    (* a - b *)
  num_mul : num -> num -> num;    (* a * b *)
  num_div : num -> num -> num;    (* a / b *)
  num_rem : num -> num -> num;    (* a % b *)
  num_sqrt : num -> num;          (* Math.sqrt(a) *)
  num_lt : num -> num -> bool;    (* a < b *)
  num_le : num -> num -> bool     (* a <= b *)
}.

(** *** Doubles

    The values a [number] slot holds at run time: [undefined] or an IEEE
    binary64 double, with the Standard Library's reference arithmetic
    ([SpecFloat], round to nearest even).  Arithmetic on [undefined]
    yields NaN and every comparison with it is false, as [ToNumber]
    prescribes. *)
Module Binary64.

Definition prec : Z := 53.
Definition emax : Z := 1024.

Inductive value :=
| Undefined
| Number (f : spec_float).

Definition toNumber (v : value) : spec_float :=
  match v with
  | Undefined => S754_nan
  | Number f => f
  end.

Definition of_Z (n : Z) : spec_float := binary_normalize prec emax n 0 false.

(** [a % b]: the remainder of the truncating division, exact, with the
    sign of the dividend. *)
Definition SFrem (a b : spec_float) : spec_float :=
  match a, b with
  | S754_nan, _ | _, S754_nan => S754_nan
  | S754_infinity _, _ => S754_nan
  | _, S754_zero _ => S754_nan
  | _, S754_infinity _ => a
  | S754_zero _, _ => a
  | S754_finite sa ma ea, S754_finite _ mb eb =>
      let ez := Z.min ea eb in
      let za := Zpos (fst (shl_align ma ea ez)) in
      let zb := Zpos (fst (shl_align mb eb ez)) in
      binary_normalize prec emax (cond_Zopp sa (za mod zb)) ez sa
  end.

(** The largest integer not above the finite double with sign [s],
    mantissa [m] and exponent [e]. *)
Definition floorZ (s : bool) (m : positive) (e : Z) : Z :=
  if (0 <=? e)%Z then cond_Zopp s (Zpos m * 2 ^ e)%Z
  else
    let q := (Zpos m / 2 ^ (- e))%Z in
    if s then (if (Zpos m mod 2 ^ (- e) =? 0)%Z then - q else - (q + 1))%Z
    else q.

(** [Math.floor(a)]: the double of that integer, which is exact; zeros,
    infinities and NaN are returned as they are. *)
Definition SFfloor (a : spec_float) : spec_float :=
  match a with
  | S754_finite s m e => binary_normalize prec emax (floorZ s m e) 0 s
  | _ => a
  end.

(** What [Math.random()] may return: a double [r] with [0 <= r < 1]. *)
Definition unit_interval (r : spec_float) : Prop :=
  valid_binary prec emax r = true /\
  SFleb (S754_zero false) r = true /\
  SFltb r (of_Z 1) = true.

(** The rational number that a finite double stands for. *)
Definition exact (f : spec_float) : option QArith_base.Q :=
  match f with
  | S754_zero _ => Some (QArith_base.Qmake 0 1)
  | S754_finite s m e =>
      Some (if (0 <=? e)%Z
            then QArith_base.Qmake (cond_Zopp s (Zpos m * 2 ^ e)) 1
            else QArith_base.Qmake (cond_Zopp s (Zpos m)) (2 ^ Z.to_pos (- e)))
  | _ => None
  end.

Definition lift2 (op : spec_float -> spec_float -> spec_float) (a b : value) : value :=
  Number (op (toNumber a) (toNumber b)).

#[global] Instance number : JSNumber value := {|
  undefined := Undefined;
  num_of_Z := fun n => Number (of_Z n);
  num_half := Number (S754_finite false 4503599627370496 (-53));
  num_PI := Number (S754_finite false 7074237752028440 (-51));
  num_add := lift2 (SFadd prec emax);
  num_sub := lift2 (SFsub prec emax);
  num_mul := lift2 (SFmul prec emax);
  num_div := lift2 (SFdiv prec emax);
  num_rem := lift2 SFrem;
  num_sqrt := fun a => Number (SFsqrt prec emax (toNumber a));
  num_lt := fun a b => SFltb (toNumber a) (toNumber b);
  num_le := fun a b => SFleb (toNumber a) (toNumber b)
|}.

End Binary64.

(** three.js [Vector3]: [set] and [copy] assign the three components. *)
Module Vector3.
Record t (num : Type) := make { x : num; y : num; z : num }.
Arguments make {num} _ _ _.
Arguments x {num} _.
Arguments y {num} _.
Arguments z {num} _.

Definition toArray {num} (v : t num) : list num := [x v; y v; z v].

  (** [distanceToSquared] and [distanceTo] as three.js defines them. *)
Definition distanceToSquared {num} `{JSNumber num} (a b : t num) : num :=
    let dx := num_sub (x a) (x b) in
    let dy := num_sub (y a) (y b) in
    let dz := num_sub (z a) (z b) in
    num_add (num_add (num_mul dx dx) (num_mul dy dy)) (num_mul dz dz).

Definition distanceTo {num} `{JSNumber num} (a b : t num) : num :=
    num_sqrt (distanceToSquared a b).
End Vector3.

(** three.js [Quaternion]: [set] assigns the four components. *)
Module Quaternion.
Record t (num : Type) := make { x : num; y : num; z : num; w : num }.
Arguments make {num} _ _ _ _.
Arguments x {num} _.
Arguments y {num} _.
Arguments z {num} _.
Arguments w {num} _.
End Quaternion.

(** ** JavaScript [Map]

    A [Map] iterates in insertion order, so it is an association list with
    at most one entry per key: [set] overwrites in place or appends,
    [delete] drops the entry. *)
Module JSMap.
Section Ops.
Context {K V : Type} `{EqDecision K}.

Definition t := list (K * V).

Fixpoint get (k : K) (m : list (K * V)) : option V :=
      match m with
      | [] => None
      | (k', v) :: m' => if decide (k = k') then Some v else get k m'
      end.

Fixpoint set (k : K) (v : V) (m : list (K * V)) : list (K * V) :=
      match m with
      | [] => [(k, v)]
      | (k', v') :: m' =>
          if decide (k = k') then (k, v) :: m' else (k', v') :: set k v m'
      end.

Definition delete (k : K) (m : list (K * V)) : list (K * V) :=
      List.filter (fun e => negb (bool_decide (fst e = k))) m.

Definition keys (m : list (K * V)) : list K := List.map fst m.
Definition values (m : list (K * V)) : list V := List.map snd m.
End Ops.

Section Facts.
Context {K V : Type} `{EqDecision K}.
Implicit Types (m : list (K * V)) (k : K) (v : V).

Lemma get_None k m : get k m = None <-> k ∉ keys m.
Proof.
  induction m as [|[k' v'] m IH]; simpl.
  - split; [intros _; apply not_elem_of_nil|done].
  - rewrite not_elem_of_cons. destruct (decide (k = k')); [|tauto].
    split; [done|]. intros [? _]. done.
Qed.

Lemma get_Some_elem k v m : get k m = Some v -> (k, v) ∈ m.
Proof.
  induction m as [|[k' v'] m IH]; simpl; [done|].
  destruct (decide (k = k')) as [->|].
  - intros [= ->]. left.
  - intros. right. auto.
Qed.

Lemma get_app_fresh k v m1 m2 :
  k ∉ keys m1 -> get k (m1 ++ (k, v) :: m2) = Some v.
Proof.
  induction m1 as [|[k' v'] m1 IH]; simpl.
  - intros _. by destruct (decide (k = k)).
  - rewrite not_elem_of_cons. intros [? ?].
    destruct (decide (k = k')); [done|auto].
Qed.

Lemma delete_fresh k m : k ∉ keys m -> delete k m = m.
Proof.
  induction m as [|[k' v'] m IH]; simpl; [done|].
  rewrite not_elem_of_cons. intros [? ?].
  rewrite bool_decide_eq_false_2 by congruence. simpl. f_equal. auto.
Qed.

Lemma delete_app k m1 m2 : delete k (m1 ++ m2) = delete k m1 ++ delete k m2.
Proof. apply List.filter_app. Qed.

Lemma delete_head k v m : delete k ((k, v) :: m) = delete k m.
Proof. unfold delete. simpl. by rewrite bool_decide_eq_true_2. Qed.

Lemma keys_delete k m :
  keys (delete k m) = List.filter (fun k' => negb (bool_decide (k' = k))) (keys m).
Proof.
  induction m as [|[k' v'] m IH]; simpl; [done|].
  destruct (bool_decide (k' = k)); simpl; by rewrite IH.
Qed.

Lemma NoDup_keys_delete k m : NoDup (keys m) -> NoDup (keys (delete k m)).
Proof.
  rewrite keys_delete. induction (keys m) as [|k' l IH]; simpl; [done|].
  rewrite NoDup_cons. intros [Hk Hl].
  destruct (bool_decide (k' = k)); simpl; [auto|].
  apply NoDup_cons. split; [|auto].
  rewrite list_elem_of_In, List.filter_In, <- list_elem_of_In. tauto.
Qed.

Lemma get_elem k v m : NoDup (keys m) -> (k, v) ∈ m -> get k m = Some v.
Proof.
  induction m as [|[k' v'] m IH]; simpl.
  - intros _ Hin. by apply elem_of_nil in Hin.
  - rewrite NoDup_cons, elem_of_cons. intros [Hk' Hnd] [Heq|Hin].
    + injection Heq as -> ->. by destruct (decide (k' = k')).
    + destruct (decide (k = k')) as [->|]; [|auto].
      destruct Hk'. apply list_elem_of_In, in_map_iff.
      exists (k', v). split; [done|]. by apply list_elem_of_In.
Qed.

Lemma NoDup_keys_filter (f : K * V -> bool) m :
  NoDup (keys m) -> NoDup (keys (List.filter f m)).
Proof.
  induction m as [|e m IH]; simpl; [done|].
  rewrite NoDup_cons. intros [He Hnd]. destruct (f e); simpl; [|auto].
  apply NoDup_cons. split; [|auto]. intros Hin. apply He.
  apply list_elem_of_In, in_map_iff in Hin as (e' & Hfst & Hin).
  apply List.filter_In in Hin as [Hin _].
  apply list_elem_of_In, in_map_iff. by exists e'.
Qed.

Lemma get_filter_true (f : K * V -> bool) k v m :
  NoDup (keys m) -> (k, v) ∈ m -> f (k, v) = true ->
  get k (List.filter f m) = Some v.
Proof.
  intros Hnd Hin Hf. apply get_elem; [by apply NoDup_keys_filter|].
  apply list_elem_of_In, List.filter_In. split; [by apply list_elem_of_In|done].
Qed.

Lemma get_filter_false (f : K * V -> bool) k v m :
  NoDup (keys m) -> (k, v) ∈ m -> f (k, v) = false ->
  get k (List.filter f m) = None.
Proof.
  intros Hnd Hin Hf.
  destruct (get k (List.filter f m)) as [v'|] eqn:Hget; [|done].
  apply get_Some_elem, list_elem_of_In, List.filter_In in Hget as [Hin' Hf'].
  apply list_elem_of_In, (get_elem _ _ _ Hnd) in Hin'.
  rewrite (get_elem _ _ _ Hnd Hin) in Hin'. injection Hin' as ->. congruence.
Qed.

Lemma set_fresh k v m : k ∉ keys m -> set k v m = m ++ [(k, v)].
Proof.
  induction m as [|[k' v'] m IH]; simpl; [done|].
  rewrite not_elem_of_cons. intros [? ?].
  destruct (decide (k = k')); [done|]. f_equal. auto.
Qed.

End Facts.
End JSMap.

(** ** Outcomes

    A handler either returns or throws; what it changed before throwing
    stays changed, so both outcomes carry the state. *)
Inductive JSError := TypeError.

Inductive outcome (S : Type) :=
| Returned (st : S)
| Thrown (e : JSError) (st : S).
Arguments Returned {S} st.
Arguments Thrown {S} e st.

Definition bind_outcome {S} (o : outcome S) (k : S -> outcome S) : outcome S :=
  match o with
  | Returned st => k st
  | Thrown e st => Thrown e st
  end.


(** ** bouncy-bois/src/main.ts *)
Module Bouncy.

(** A three.js object is known by its identity; its fields live in the
    heap of the state below. *)
Definition ref := nat.

(** [type randomGeometry = "sphere" | "cone" | "box"] *)
Inductive randomGeometry := sphere | cone | box.

(** A message as both threads build it: [{ type, payload }]. *)
Record Message (tag P : Type) := { type : tag; payload : P }.
Arguments type {tag P} _.
Arguments payload {tag P} _.

(** What [main.ts] asks of the browser and of three.js in a frame. *)
Inductive Effect :=
| RequestAnimationFrame
| StatsBegin
| StatsEnd
| ControlsUpdate
| RendererRender
| ResizeCanvas.

Section Main.
Context {num : Type} `{JSNumber num}.
Context {tag : Type} `{EqDecision tag}.

(** The fields of a [three.Mesh] that [main.ts] reads or writes. *)
Record Mesh := {
  position : Vector3.t num;
  quaternion : Quaternion.t num;
  scale : Vector3.t num;
  visible : bool
}.

(** [WorldObjects] and [MeshPool] (lib/constants): [{ id, geometry, mesh }]. *)
Record WorldObjects := { id : string; geometry : randomGeometry; mesh : ref }.
Definition MeshPool := WorldObjects.

(** The members of [WorkerEnum] (lib/constants) that [main.ts] names.
    Their values are not in the sources, so they are parameters. *)
Record WorkerEnumT := {
  RAPIER_READY : tag;
  UPDATE_MESHES : tag;
  ROTATE_FLOOR : tag;
  REMOVE_INACTIVES : tag;
  ADD_OBJECTS : tag;
  REMOVE_BODY : tag;
  WORLD_STEP : tag
}.

(** A [SharedArrayBuffer] as the main thread sees it while it handles one
    message: which buffer it is, and the floats a [Float32Array] over it
    holds at that time. *)
Record SharedArrayBuffer := { sab_id : nat; sab_floats : list num }.

(** A [Float32Array] view remembers the buffer it was built over. *)
Record Float32Array := { f32_buffer : nat }.

(** The payload object of a message from the worker.  A handler
    destructures the fields of its parameter type and looks at no other. *)
Record Payload := {
  buffer : SharedArrayBuffer;
  ids : list string;
  count : Z;
  newFloorRotationX : num;
  translation : Vector3.t num;
  rotation : Quaternion.t num
}.

(** One element of the [data] array of an ADD_OBJECTS message. *)
Record ObjectData := {
  data_id : string;
  data_geometry : randomGeometry;
  data_position : list num;
  data_randomScale : num
}.

(** The settings of [guiManager] that [main.ts] reads or writes. *)
Record GUIManager := {
  isFloorAnimating : bool;
  floorRotationX : num;
  endFloorRotationAngle : num;
  isRaining : bool;
  rainSpeedTimer : num;
  rainingDuration : num
}.

(** The payloads [main.ts] posts to the worker. *)
Inductive OutPayload :=
| AddObjects (data : list ObjectData)
| RemoveBody (body_id : string) (reusable : bool)
| WorldStep (isFloorAnimating' : bool) (floorRotationX' : num)
    (endFloorRotationAngle' : num) (timeDelta : num) (isRaining' : bool)
    (rainSpeedTimer' : num).

(** The module-level variables of [main.ts], the scene of [threeCanvas],
    the three.js objects they refer to, and the logs of what was posted
    to the worker, passed to [disposeMesh] and asked of the browser. *)
Record State := {
  worldObjects : list (string * WorldObjects);
  meshPool : list MeshPool;
  sharedFloatArray : option Float32Array;
  guiManager : GUIManager;
  deltaTime : num;
  fpsDelta : num;
  scene : list ref;
  heap : ref -> Mesh;
  next_ref : ref;
  posted : list (Message tag OutPayload);
  disposed : list ref;
  effects : list Effect
}.

Definition with_worldObjects (f : list (string * WorldObjects) -> list (string * WorldObjects)) (st : State) : State :=
  {| worldObjects := f (worldObjects st); meshPool := meshPool st;
     sharedFloatArray := sharedFloatArray st; guiManager := guiManager st;
     deltaTime := deltaTime st; fpsDelta := fpsDelta st; scene := scene st;
     heap := heap st; next_ref := next_ref st; posted := posted st;
     disposed := disposed st; effects := effects st |}.

Definition with_meshPool (f : list MeshPool -> list MeshPool) (st : State) : State :=
  {| worldObjects := worldObjects st; meshPool := f (meshPool st);
     sharedFloatArray := sharedFloatArray st; guiManager := guiManager st;
     deltaTime := deltaTime st; fpsDelta := fpsDelta st; scene := scene st;
     heap := heap st; next_ref := next_ref st; posted := posted st;
     disposed := disposed st; effects := effects st |}.

Definition with_sharedFloatArray (v : option Float32Array) (st : State) : State :=
  {| worldObjects := worldObjects st; meshPool := meshPool st;
     sharedFloatArray := v; guiManager := guiManager st;
     deltaTime := deltaTime st; fpsDelta := fpsDelta st; scene := scene st;
     heap := heap st; next_ref := next_ref st; posted := posted st;
     disposed := disposed st; effects := effects st |}.

Definition with_guiManager (f : GUIManager -> GUIManager) (st : State) : State :=
  {| worldObjects := worldObjects st; meshPool := meshPool st;
     sharedFloatArray := sharedFloatArray st; guiManager := f (guiManager st);
     deltaTime := deltaTime st; fpsDelta := fpsDelta st; scene := scene st;
     heap := heap st; next_ref := next_ref st; posted := posted st;
     disposed := disposed st; effects := effects st |}.

Definition with_deltaTime (v : num) (st : State) : State :=
  {| worldObjects := worldObjects st; meshPool := meshPool st;
     sharedFloatArray := sharedFloatArray st; guiManager := guiManager st;
     deltaTime := v; fpsDelta := fpsDelta st; scene := scene st;
     heap := heap st; next_ref := next_ref st; posted := posted st;
     disposed := disposed st; effects := effects st |}.

Definition with_fpsDelta (v : num) (st : State) : State :=
  {| worldObjects := worldObjects st; meshPool := meshPool st;
     sharedFloatArray := sharedFloatArray st; guiManager := guiManager st;
     deltaTime := deltaTime st; fpsDelta := v; scene := scene st;
     heap := heap st; next_ref := next_ref st; posted := posted st;
     disposed := disposed st; effects := effects st |}.

Definition with_scene (f : list ref -> list ref) (st : State) : State :=
  {| worldObjects := worldObjects st; meshPool := meshPool st;
     sharedFloatArray := sharedFloatArray st; guiManager := guiManager st;
     deltaTime := deltaTime st; fpsDelta := fpsDelta st; scene := f (scene st);
     heap := heap st; next_ref := next_ref st; posted := posted st;
     disposed := disposed st; effects := effects st |}.

Definition with_heap (f : (ref -> Mesh) -> (ref -> Mesh)) (st : State) : State :=
  {| worldObjects := worldObjects st; meshPool := meshPool st;
     sharedFloatArray := sharedFloatArray st; guiManager := guiManager st;
     deltaTime := deltaTime st; fpsDelta := fpsDelta st; scene := scene st;
     heap := f (heap st); next_ref := next_ref st; posted := posted st;
     disposed := disposed st; effects := effects st |}.

Definition with_next_ref (v : ref) (st : State) : State :=
  {| worldObjects := worldObjects st; meshPool := meshPool st;
     sharedFloatArray := sharedFloatArray st; guiManager := guiManager st;
     deltaTime := deltaTime st; fpsDelta := fpsDelta st; scene := scene st;
     heap := heap st; next_ref := v; posted := posted st;
     disposed := disposed st; effects := effects st |}.

Definition with_disposed (f : list ref -> list ref) (st : State) : State :=
  {| worldObjects := worldObjects st; meshPool := meshPool st;
     sharedFloatArray := sharedFloatArray st; guiManager := guiManager st;
     deltaTime := deltaTime st; fpsDelta := fpsDelta st; scene := scene st;
     heap := heap st; next_ref := next_ref st; posted := posted st;
     disposed := f (disposed st); effects := effects st |}.

Definition with_posted (f : list (Message tag OutPayload) -> list (Message tag OutPayload)) (st : State) : State :=
  {| worldObjects := worldObjects st; meshPool := meshPool st;
     sharedFloatArray := sharedFloatArray st; guiManager := guiManager st;
     deltaTime := deltaTime st; fpsDelta := fpsDelta st; scene := scene st;
     heap := heap st; next_ref := next_ref st; posted := f (posted st);
     disposed := disposed st; effects := effects st |}.

(** [worker.postMessage(m)] *)
Definition postMessage (m : Message tag OutPayload) (st : State) : State :=
  {| worldObjects := worldObjects st; meshPool := meshPool st;
     sharedFloatArray := sharedFloatArray st; guiManager := guiManager st;
     deltaTime := deltaTime st; fpsDelta := fpsDelta st; scene := scene st;
     heap := heap st; next_ref := next_ref st; posted := posted st ++ [m];
     disposed := disposed st; effects := effects st |}.

(** A call into the browser or three.js that [main.ts] only triggers. *)
Definition perform (e : Effect) (st : State) : State :=
  {| worldObjects := worldObjects st; meshPool := meshPool st;
     sharedFloatArray := sharedFloatArray st; guiManager := guiManager st;
     deltaTime := deltaTime st; fpsDelta := fpsDelta st; scene := scene st;
     heap := heap st; next_ref := next_ref st; posted := posted st;
     disposed := disposed st; effects := effects st ++ [e] |}.

(** *** The environment of [main.ts] *)

(** [WorkerEnum], imported from lib/constants. *)
Variable WorkerEnum : WorkerEnumT.

(** [createMesh], imported from lib/three-helper, builds a new
    [three.Mesh] and returns it with its id and geometry name.  What it
    returns is not in the sources: [createMesh g k] stands for the id, the
    geometry name and the mesh fields returned by the call that allocates
    object number [k]. *)
Variable createMesh : randomGeometry -> ref -> string * randomGeometry * Mesh.

(** The [floor] mesh, a constant of the module. *)
Variable floor : ref.

(** *** three.js operations *)

(** [scene.add(o)] detaches [o] from its parent and pushes it. *)
Definition scene_add (o : ref) (children : list ref) : list ref :=
  List.filter (fun c => negb (bool_decide (c = o))) children ++ [o].

(** [scene.remove(o)] splices [o] out of the children. *)
Definition scene_remove (o : ref) (children : list ref) : list ref :=
  List.filter (fun c => negb (bool_decide (c = o))) children.

(** [m.position.set(px, py, pz)] and [m.position.copy(v)] *)
Definition position_set (px py pz : num) (m : Mesh) : Mesh :=
  {| position := Vector3.make px py pz; quaternion := quaternion m;
     scale := scale m; visible := visible m |}.

(** [m.quaternion.set(rx, ry, rz, rw)] *)
Definition quaternion_set (rx ry rz rw : num) (m : Mesh) : Mesh :=
  {| position := position m; quaternion := Quaternion.make rx ry rz rw;
     scale := scale m; visible := visible m |}.

(** [m.visible = b] *)
Definition visible_set (b : bool) (m : Mesh) : Mesh :=
  {| position := position m; quaternion := quaternion m;
     scale := scale m; visible := b |}.

(** Writing to the object behind a reference. *)
Definition update_object (r : ref) (f : Mesh -> Mesh) (h : ref -> Mesh) : ref -> Mesh :=
  fun r' => if decide (r' = r) then f (h r) else h r'.

(** [a[i]] on a typed array: [undefined] past the end. *)
Definition Float32Array_get (a : list num) (i : nat) : num :=
  match a !! i with
  | Some v => v
  | None => undefined
  end.

(** *** Worker actions *)

(** The body of the [forEach] in [initStartingObjects]. *)
Definition createStartingObject (st : State) : State :=
  let r := next_ref st in
  let '(oid, g, m) := createMesh sphere r in
  let threeMesh := {| id := oid; geometry := g; mesh := r |} in
  let st := with_next_ref (S r) (with_heap (fun h r' => if decide (r' = r) then m else h r') st) in
  let st := with_worldObjects (JSMap.set (id threeMesh) threeMesh) st in
  with_scene (scene_add (mesh threeMesh)) st.

(** The [map] callback that builds the ADD_OBJECTS data. *)
Definition objectData (h : ref -> Mesh) (o : WorldObjects) : ObjectData :=
  {| data_id := id o;
     data_geometry := geometry o;
     data_position := Vector3.toArray (position (h (mesh o)));
     data_randomScale := Vector3.x (scale (h (mesh o))) |}.

Definition initStartingObjects (st : State) : State :=
  let st := Nat.iter 20 createStartingObject st in
  postMessage
    {| type := ADD_OBJECTS WorkerEnum;
       payload := AddObjects (List.map (objectData (heap st)) (JSMap.values (worldObjects st))) |}
    st.

(** The [for] loop of [udpateAndSyncMeshBodies]: [remaining] iterations
    are left, [objIdx] and [i] are the two counters.  [id.toString()]
    throws when [ids[objIdx]] is [undefined]. *)
Fixpoint syncMeshBodies_loop (floats : list num) (ids : list string)
    (remaining objIdx i : nat) (st : State) : outcome State * nat :=
  match remaining with
  | O => (Returned st, i)
  | S remaining' =>
      let id := ids !! objIdx in
      let px := Float32Array_get floats i in
      let py := Float32Array_get floats (i + 1) in
      let pz := Float32Array_get floats (i + 2) in
      let rx := Float32Array_get floats (i + 3) in
      let ry := Float32Array_get floats (i + 4) in
      let rz := Float32Array_get floats (i + 5) in
      let rw := Float32Array_get floats (i + 6) in
      match id with
      | None => (Thrown TypeError st, i + 7)
      | Some id =>
          let st :=
            match JSMap.get id (worldObjects st) with
            | Some o =>
                with_heap
                  (update_object (mesh o)
                     (fun m => quaternion_set rx ry rz rw (position_set px py pz m)))
                  st
            | None => st
            end in
          syncMeshBodies_loop floats ids remaining' (S objIdx) (i + 7) st
      end
  end.

(** The view the handler reads through after its first [if]. *)
Definition currentView (b : SharedArrayBuffer) (st : State) : Float32Array :=
  match sharedFloatArray st with
  | Some v =>
      if bool_decide (f32_buffer v <> sab_id b)
      then {| f32_buffer := sab_id b |}
      else v
  | None => {| f32_buffer := sab_id b |}
  end.

Definition udpateAndSyncMeshBodies (p : Payload) (st : State) : outcome State :=
  let objectCount := count p in
  let st := with_sharedFloatArray (Some (currentView (buffer p) st)) st in
  fst (syncMeshBodies_loop (sab_floats (buffer p)) (ids p)
         (Z.to_nat objectCount) 0 0 st).

Definition updateAndRotateFloor (p : Payload) (st : State) : State :=
  let st :=
    with_guiManager
      (fun g => {| isFloorAnimating := isFloorAnimating g;
                   floorRotationX := newFloorRotationX p;
                   endFloorRotationAngle := endFloorRotationAngle g;
                   isRaining := isRaining g;
                   rainSpeedTimer := rainSpeedTimer g;
                   rainingDuration := rainingDuration g |}) st in
  let t := translation p in
  let st := with_heap (update_object floor (position_set (Vector3.x t) (Vector3.y t) (Vector3.z t))) st in
  let q := rotation p in
  with_heap
    (update_object floor
       (quaternion_set (Quaternion.x q) (Quaternion.y q) (Quaternion.z q) (Quaternion.w q)))
    st.

(** The callback of the [forEach] in [removeInactiveMeshBodies];
    [disposeMesh] (lib/three-helper) is recorded as a call. *)
Definition removeInactiveMeshBody (id : string) (st : State) : State :=
  match JSMap.get id (worldObjects st) with
  | Some meshObject =>
      let st := with_worldObjects (JSMap.delete id) st in
      let st := with_scene (scene_remove (mesh meshObject)) st in
      with_disposed (fun d => d ++ [mesh meshObject]) st
  | None => st
  end.

Definition removeInactiveMeshBodies (p : Payload) (st : State) : State :=
  List.fold_left (fun st id => removeInactiveMeshBody id st) (ids p) st.

(** The callback of the [forEach] in [checkAndRemoveFallingObjects]. *)
Definition removeIfFalling (o : WorldObjects) (st : State) : State :=
  if num_le (Vector3.y (position (heap st (mesh o)))) (num_of_Z (-20)) then
    let st := with_worldObjects (JSMap.delete (id o)) st in
    let st := with_meshPool (fun pool => pool ++ [{| id := id o; geometry := geometry o; mesh := mesh o |}]) st in
    let st := with_heap (update_object (mesh o) (visible_set false)) st in
    postMessage
      {| type := REMOVE_BODY WorkerEnum; payload := RemoveBody (id o) true |} st
  else st.

(** [worldObjects.forEach(callback)]: the entries are visited in insertion
    order, and one deleted before its turn is skipped.  [pending] holds
    the keys still to visit. *)
Fixpoint forEach_worldObjects (callback : WorldObjects -> State -> State)
    (pending : list string) (st : State) : State :=
  match pending with
  | [] => st
  | k :: pending' =>
      match JSMap.get k (worldObjects st) with
      | Some o => forEach_worldObjects callback pending' (callback o st)
      | None => forEach_worldObjects callback pending' st
      end
  end.

Definition checkAndRemoveFallingObjects (st : State) : State :=
  forEach_worldObjects removeIfFalling (JSMap.keys (worldObjects st)) st.

Definition worldStepTick (timeDelta : num) (st : State) : State :=
  let g := guiManager st in
  postMessage
    {| type := WORLD_STEP WorkerEnum;
       payload := WorldStep (isFloorAnimating g) (floorRotationX g)
                    (endFloorRotationAngle g) timeDelta (isRaining g)
                    (rainSpeedTimer g) |}
    st.

(** *** Worker message capture *)

(** [worker.onmessage]: four [if] statements in a row. *)
Definition onmessage (m : Message tag Payload) (st : State) : outcome State :=
  let o := Returned st in
  let o := bind_outcome o (fun st =>
    if decide (type m = RAPIER_READY WorkerEnum)
    then Returned (initStartingObjects st) else Returned st) in
  let o := bind_outcome o (fun st =>
    if decide (type m = UPDATE_MESHES WorkerEnum)
    then udpateAndSyncMeshBodies (payload m) st else Returned st) in
  let o := bind_outcome o (fun st =>
    if decide (type m = ROTATE_FLOOR WorkerEnum)
    then Returned (updateAndRotateFloor (payload m) st) else Returned st) in
  bind_outcome o (fun st =>
    if decide (type m = REMOVE_INACTIVES WorkerEnum)
    then Returned (removeInactiveMeshBodies (payload m) st) else Returned st).

(** *** Animate *)

Definition fpsCap : num := num_of_Z 240.
Definition fpsInterval : num := num_div (num_of_Z 1) fpsCap.

(** [tick]; [delta] and [elapsedTime] are what [clock.getDelta()] and
    [clock.getElapsedTime()] return in this frame. *)
Definition tick (delta elapsedTime : num) (st : State) : State :=
  let st := perform RequestAnimationFrame st in
  let st := perform StatsBegin st in
  let st := with_fpsDelta (num_add (fpsDelta st) delta) st in
  if num_lt (fpsDelta st) fpsInterval then st
  else
    let timeDelta := num_sub elapsedTime (deltaTime st) in
    let st := with_deltaTime elapsedTime st in
    let st := with_fpsDelta (num_rem (fpsDelta st) fpsInterval) st in
    let st := perform ControlsUpdate st in
    let st := worldStepTick timeDelta st in
    let st := checkAndRemoveFallingObjects st in
    let st := perform RendererRender st in
    perform StatsEnd st.

(** *** The life of the page

    After the module body has run, [main.ts] is entered only through the
    callbacks it registered: [worker.onmessage], the animation frame and
    the resize listener.  (The GUI buttons call into [GUIManager], which
    is not part of [main.ts].)  An exception thrown by a callback ends
    that callback and leaves the state as it was at the throw. *)
Inductive Event :=
| WorkerMessage (m : Message tag Payload)
| AnimationFrame (delta elapsedTime : num)
| WindowResize.

Definition state_of (o : outcome State) : State :=
  match o with
  | Returned st => st
  | Thrown _ st => st
  end.

Definition handle (ev : Event) (st : State) : State :=
  match ev with
  | WorkerMessage m => state_of (onmessage m st)
  | AnimationFrame delta elapsedTime => tick delta elapsedTime st
  | WindowResize => perform ResizeCanvas st
  end.

Definition run (evs : list Event) (st : State) : State :=
  fold_left (fun st ev => handle ev st) evs st.

(** The state after the module body: the containers are empty, the floor
    has been added to the scene that [ThreeCanvas] built, and [tick()] has
    run once.  [canvasScene], [objects], [allocated] and [gui] are what
    the constructors of [ThreeCanvas] and [GUIManager] left behind. *)
Definition moduleBody (canvasScene : list ref) (objects : ref -> Mesh)
    (allocated : ref) (gui : GUIManager) (delta elapsedTime : num) : State :=
  tick delta elapsedTime
    {| worldObjects := [];
       meshPool := [];
       sharedFloatArray := None;
       guiManager := gui;
       deltaTime := num_of_Z 0;
       fpsDelta := num_of_Z 0;
       scene := scene_add floor canvasScene;
       heap := objects;
       next_ref := allocated;
       posted := [];
       disposed := [];
       effects := [] |}.

(** *** What the UPDATE_MESHES handler is to do, in the words of its
    description: object [objIdx] owns the seven floats that start at
    [7 * objIdx]. *)

Definition transformAt (floats : list num) (objIdx : nat) (m : Mesh) : Mesh :=
  quaternion_set
    (Float32Array_get floats (7 * objIdx + 3))
    (Float32Array_get floats (7 * objIdx + 4))
    (Float32Array_get floats (7 * objIdx + 5))
    (Float32Array_get floats (7 * objIdx + 6))
    (position_set
       (Float32Array_get floats (7 * objIdx))
       (Float32Array_get floats (7 * objIdx + 1))
       (Float32Array_get floats (7 * objIdx + 2))
       m).

(** The mesh registered under [ids[objIdx]], if any. *)
Definition meshAt (ids : list string) (objects : list (string * WorldObjects))
    (objIdx : nat) : option ref :=
  match ids !! objIdx with
  | Some id =>
      match JSMap.get id objects with
      | Some o => Some (mesh o)
      | None => None
      end
  | None => None
  end.

Definition assignTransform (floats : list num) (ids : list string)
    (objects : list (string * WorldObjects)) (h : ref -> Mesh) (objIdx : nat) : ref -> Mesh :=
  match meshAt ids objects objIdx with
  | Some r => update_object r (transformAt floats objIdx) h
  | None => h
  end.

(** *** Basic facts *)

(** Expose the fields of a state built with the updaters. *)
Ltac state_fields :=
  cbn [postMessage perform with_posted with_disposed with_next_ref with_heap
       with_scene with_fpsDelta with_deltaTime with_guiManager
       with_sharedFloatArray with_meshPool with_worldObjects
       worldObjects meshPool sharedFloatArray guiManager deltaTime fpsDelta
       scene heap next_ref posted disposed effects] in *.

(** Two states with the same fields are the same state. *)
Lemma State_ext (st1 st2 : State) :
  worldObjects st1 = worldObjects st2 ->
  meshPool st1 = meshPool st2 ->
  sharedFloatArray st1 = sharedFloatArray st2 ->
  guiManager st1 = guiManager st2 ->
  deltaTime st1 = deltaTime st2 ->
  fpsDelta st1 = fpsDelta st2 ->
  scene st1 = scene st2 ->
  heap st1 = heap st2 ->
  next_ref st1 = next_ref st2 ->
  posted st1 = posted st2 ->
  disposed st1 = disposed st2 ->
  effects st1 = effects st2 ->
  st1 = st2.
Proof. destruct st1, st2; cbn; intros; by subst. Qed.

Ltac state_eq := apply State_ext; state_fields; try reflexivity.

Lemma with_heap_id (st : State) : with_heap (fun h => h) st = st.
Proof. by state_eq. Qed.

Lemma syncMeshBodies_loop_spec floats ids remaining :
  forall objIdx st,
    objIdx + remaining <= length ids ->
    syncMeshBodies_loop floats ids remaining objIdx (7 * objIdx) st =
      (Returned
         (with_heap
            (fun h => fold_left (assignTransform floats ids (worldObjects st))
                        (seq objIdx remaining) h) st),
       7 * (objIdx + remaining)).
Proof.
  induction remaining as [|remaining IH]; intros objIdx st Hlen;
    cbn [syncMeshBodies_loop seq fold_left].
  - rewrite with_heap_id. f_equal. lia.
  - destruct (ids !! objIdx) as [id|] eqn:Hid.
    2: { apply lookup_ge_None in Hid. lia. }
    replace (7 * objIdx + 7) with (7 * S objIdx) by lia.
    rewrite IH by lia.
    replace (S objIdx + remaining) with (objIdx + S remaining) by lia.
    f_equal. f_equal.
    unfold assignTransform at 3. unfold meshAt. rewrite Hid.
    destruct (JSMap.get id (worldObjects st)) as [o|]; reflexivity.
Qed.

Lemma assignTransform_other floats ids objects h objIdx r :
  meshAt ids objects objIdx <> Some r ->
  assignTransform floats ids objects h objIdx r = h r.
Proof.
  unfold assignTransform. intros Hne.
  destruct (meshAt ids objects objIdx) as [r'|]; [|done].
  unfold update_object. destruct (decide (r = r')); [congruence|done].
Qed.

Lemma assignTransform_fold_other floats ids objects idxs :
  forall h r,
    (forall objIdx, In objIdx idxs -> meshAt ids objects objIdx <> Some r) ->
    fold_left (assignTransform floats ids objects) idxs h r = h r.
Proof.
  induction idxs as [|k idxs IH]; intros h r Hr; simpl; [done|].
  rewrite IH by (intros; apply Hr; by right).
  apply assignTransform_other, Hr. by left.
Qed.

Lemma assignTransform_fold_last floats ids objects n objIdx r h :
  objIdx < n ->
  meshAt ids objects objIdx = Some r ->
  (forall j, objIdx < j < n -> meshAt ids objects j <> Some r) ->
  fold_left (assignTransform floats ids objects) (seq 0 n) h r =
    transformAt floats objIdx
      (fold_left (assignTransform floats ids objects) (seq 0 objIdx) h r).
Proof.
  intros Hlt Hat Hlast.
  replace n with (objIdx + S (n - S objIdx)) by lia.
  rewrite seq_app, fold_left_app. simpl.
  rewrite assignTransform_fold_other.
  - unfold assignTransform at 1. rewrite Hat. unfold update_object.
    destruct (decide (r = r)); [done|congruence].
  - intros j Hj. apply in_seq in Hj. apply Hlast. lia.
Qed.

Lemma currentView_buffer (b : SharedArrayBuffer) (st : State) :
  currentView b st = {| f32_buffer := sab_id b |}.
Proof.
  unfold currentView. destruct (sharedFloatArray st) as [[v]|]; [|done].
  case_bool_decide as Hv; [done|]. simpl in Hv.
  f_equal. destruct (decide (v = sab_id b)); [done|]. by destruct Hv.
Qed.

Lemma transformAt_position floats objIdx m :
  position (transformAt floats objIdx m) =
    Vector3.make (Float32Array_get floats (7 * objIdx))
                 (Float32Array_get floats (7 * objIdx + 1))
                 (Float32Array_get floats (7 * objIdx + 2)).
Proof. reflexivity. Qed.

Lemma transformAt_quaternion floats objIdx m :
  quaternion (transformAt floats objIdx m) =
    Quaternion.make (Float32Array_get floats (7 * objIdx + 3))
                    (Float32Array_get floats (7 * objIdx + 4))
                    (Float32Array_get floats (7 * objIdx + 5))
                    (Float32Array_get floats (7 * objIdx + 6)).
Proof. reflexivity. Qed.

(** An index past the end of [ids] names no mesh. *)
Lemma assignTransform_fold_past floats ids objects idxs :
  forall h,
    Forall (fun objIdx => length ids <= objIdx) idxs ->
    fold_left (assignTransform floats ids objects) idxs h = h.
Proof.
  induction idxs as [|objIdx idxs IH]; intros h Hpast; cbn [fold_left]; [done|].
  apply Forall_cons in Hpast as [Hk Hpast].
  rewrite <- (IH h Hpast) at 2. f_equal.
  unfold assignTransform, meshAt.
  by rewrite (proj2 (lookup_ge_None ids objIdx) Hk).
Qed.

(** The loop when [ids] ends before the count is reached: it throws at
    the first index without an id, after reading that index's floats. *)
Lemma syncMeshBodies_loop_throw floats ids remaining :
  forall objIdx st,
    objIdx <= length ids < objIdx + remaining ->
    syncMeshBodies_loop floats ids remaining objIdx (7 * objIdx) st =
      (Thrown TypeError
         (with_heap
            (fun h => fold_left (assignTransform floats ids (worldObjects st))
                        (seq objIdx (length ids - objIdx)) h) st),
       7 * (length ids + 1)).
Proof.
  induction remaining as [|remaining IH]; intros objIdx st Hlen;
    cbn [syncMeshBodies_loop]; [lia|].
  destruct (ids !! objIdx) as [id|] eqn:Hid.
  - assert (objIdx < length ids) by (by apply lookup_lt_Some in Hid).
    replace (7 * objIdx + 7) with (7 * S objIdx) by lia.
    rewrite IH by lia.
    replace (length ids - objIdx) with (S (length ids - S objIdx)) by lia.
    cbn [seq fold_left]. do 2 f_equal.
    unfold assignTransform at 3. unfold meshAt. rewrite Hid.
    destruct (JSMap.get id (worldObjects st)) as [o|]; reflexivity.
  - apply lookup_ge_None in Hid.
    replace (length ids - objIdx) with 0 by lia.
    cbn [seq fold_left]. rewrite with_heap_id. f_equal. lia.
Qed.

(** C1.  For every UPDATE_MESHES payload [(buffer, ids, count)] the
    handler reads the floats at stride 7 and leaves the page in the state
    [st'] below, whether it returns or throws: only the three.js objects
    and the cached view change, and the objects end as after assigning,
    for [objIdx = 0 .. count - 1] in turn, the floats
    [7 * objIdx .. 7 * objIdx + 6] to the position (x, y, z) and
    quaternion (x, y, z, w) of the mesh registered under [ids[objIdx]],
    an index without a registered mesh assigning nothing.  So a mesh
    holds the floats of the last index that names it, and a mesh no index
    names is as before.  When [ids] has an entry for every index below
    [count] the handler returns, having read [7 * count] floats;
    otherwise it throws at the first index without an id, having read
    the floats of that index too. *)
Theorem udpateAndSyncMeshBodies_stride7 (p : Payload) (st : State) :
  let floats := sab_floats (buffer p) in
  let n := Z.to_nat (count p) in
  let view := Some {| f32_buffer := sab_id (buffer p) |} in
  let assigned :=
    fold_left (assignTransform floats (ids p) (worldObjects st)) (seq 0 n) in
  let st' := with_heap assigned (with_sharedFloatArray view st) in
  let loop :=
    syncMeshBodies_loop floats (ids p) n 0 0 (with_sharedFloatArray view st) in
  state_of (udpateAndSyncMeshBodies p st) = st' /\
  (n <= length (ids p) ->
   loop = (Returned st', 7 * n) /\
   udpateAndSyncMeshBodies p st = Returned st') /\
  (length (ids p) < n ->
   loop = (Thrown TypeError st', 7 * (length (ids p) + 1)) /\
   udpateAndSyncMeshBodies p st = Thrown TypeError st') /\
  (forall objIdx r,
     objIdx < n ->
     meshAt (ids p) (worldObjects st) objIdx = Some r ->
     (forall j, objIdx < j < n -> meshAt (ids p) (worldObjects st) j <> Some r) ->
     position (assigned (heap st) r) =
       Vector3.make (Float32Array_get floats (7 * objIdx))
                    (Float32Array_get floats (7 * objIdx + 1))
                    (Float32Array_get floats (7 * objIdx + 2)) /\
     quaternion (assigned (heap st) r) =
       Quaternion.make (Float32Array_get floats (7 * objIdx + 3))
                       (Float32Array_get floats (7 * objIdx + 4))
                       (Float32Array_get floats (7 * objIdx + 5))
                       (Float32Array_get floats (7 * objIdx + 6))) /\
  (forall r,
     (forall objIdx, objIdx < n -> meshAt (ids p) (worldObjects st) objIdx <> Some r) ->
     assigned (heap st) r = heap st r).
Proof.
  intros floats n view assigned st' loop.
  assert (Hreturns : n <= length (ids p) -> loop = (Returned st', 7 * n)).
  { intros Hlen. subst loop. change 0 with (7 * 0) at 2.
    by rewrite (syncMeshBodies_loop_spec floats (ids p) n 0) by (simpl; lia). }
  assert (Hthrows : length (ids p) < n ->
                    loop = (Thrown TypeError st', 7 * (length (ids p) + 1))).
  { intros Hfew. subst loop. change 0 with (7 * 0) at 2.
    rewrite (syncMeshBodies_loop_throw floats (ids p) n 0) by lia.
    do 2 f_equal. subst st' assigned. apply State_ext; state_fields; try done.
    rewrite Nat.sub_0_r.
    replace n with (length (ids p) + (n - length (ids p))) by lia.
    rewrite seq_app, fold_left_app.
    symmetry. apply assignTransform_fold_past, Forall_forall.
    intros objIdx Hin%list_elem_of_In%in_seq. lia. }
  assert (Hhandler : udpateAndSyncMeshBodies p st = fst loop).
  { unfold udpateAndSyncMeshBodies. by rewrite currentView_buffer. }
  split; [|split; [|split; [|split]]].
  - rewrite Hhandler.
    destruct (le_lt_dec n (length (ids p))) as [Hlen|Hfew].
    + by rewrite (Hreturns Hlen).
    + by rewrite (Hthrows Hfew).
  - intros Hlen. split; [by apply Hreturns|].
    by rewrite Hhandler, (Hreturns Hlen).
  - intros Hfew. split; [by apply Hthrows|].
    by rewrite Hhandler, (Hthrows Hfew).
  - intros objIdx r Hlt Hat Hlast. subst assigned. cbv beta.
    rewrite (assignTransform_fold_last floats (ids p) (worldObjects st) n objIdx r)
      by assumption.
    by rewrite transformAt_position, transformAt_quaternion.
  - intros r Hr. subst assigned. cbv beta.
    apply assignTransform_fold_other.
    intros objIdx Hin. apply in_seq in Hin. apply Hr. lia.
Qed.

Lemma bind_outcome_Returned (o : outcome State) : bind_outcome o Returned = o.
Proof. by destruct o. Qed.

(** C2.  With the four handled members of [WorkerEnum] pairwise
    different, a message from the worker is dispatched on its [type]
    alone: RAPIER_READY runs [initStartingObjects], UPDATE_MESHES the
    shared-buffer copy, ROTATE_FLOOR the floor update, REMOVE_INACTIVES the
    mesh removal, and any other [type] returns with the state as it was. *)
Theorem onmessage_dispatch (m : Message tag Payload) (st : State) :
  NoDup [RAPIER_READY WorkerEnum; UPDATE_MESHES WorkerEnum;
         ROTATE_FLOOR WorkerEnum; REMOVE_INACTIVES WorkerEnum] ->
  (type m = RAPIER_READY WorkerEnum ->
     onmessage m st = Returned (initStartingObjects st)) /\
  (type m = UPDATE_MESHES WorkerEnum ->
     onmessage m st = udpateAndSyncMeshBodies (payload m) st) /\
  (type m = ROTATE_FLOOR WorkerEnum ->
     onmessage m st = Returned (updateAndRotateFloor (payload m) st)) /\
  (type m = REMOVE_INACTIVES WorkerEnum ->
     onmessage m st = Returned (removeInactiveMeshBodies (payload m) st)) /\
  (type m <> RAPIER_READY WorkerEnum ->
   type m <> UPDATE_MESHES WorkerEnum ->
   type m <> ROTATE_FLOOR WorkerEnum ->
   type m <> REMOVE_INACTIVES WorkerEnum ->
     onmessage m st = Returned st).
Proof.
  intros Hdistinct.
  apply NoDup_cons in Hdistinct as [H1 Hdistinct].
  apply NoDup_cons in Hdistinct as [H2 Hdistinct].
  apply NoDup_cons in Hdistinct as [H3 _].
  assert (H12 : RAPIER_READY WorkerEnum <> UPDATE_MESHES WorkerEnum) by set_solver.
  assert (H13 : RAPIER_READY WorkerEnum <> ROTATE_FLOOR WorkerEnum) by set_solver.
  assert (H14 : RAPIER_READY WorkerEnum <> REMOVE_INACTIVES WorkerEnum) by set_solver.
  assert (H23 : UPDATE_MESHES WorkerEnum <> ROTATE_FLOOR WorkerEnum) by set_solver.
  assert (H24 : UPDATE_MESHES WorkerEnum <> REMOVE_INACTIVES WorkerEnum) by set_solver.
  assert (H34 : ROTATE_FLOOR WorkerEnum <> REMOVE_INACTIVES WorkerEnum) by set_solver.
  unfold onmessage.
  repeat split; intros;
    repeat (destruct (decide _) as [?|?]; try congruence);
    cbn [bind_outcome]; try reflexivity.
  destruct (udpateAndSyncMeshBodies (payload m) st); reflexivity.
Qed.

(** *** REMOVE_INACTIVES *)

(** The entry's key is among the ids of the message. *)
Definition listed (ids : list string) (e : string * WorldObjects) : bool :=
  bool_decide (fst e ∈ ids).

Lemma filter_compose {A} (f g : A -> bool) (l : list A) :
  List.filter f (List.filter g l) = List.filter (fun a => g a && f a) l.
Proof.
  induction l as [|a l IH]; simpl; [done|].
  destruct (g a); simpl; [destruct (f a)|]; by rewrite IH.
Qed.

Lemma filter_all {A} (f : A -> bool) (l : list A) :
  (forall a, a ∈ l -> f a = true) -> List.filter f l = l.
Proof.
  induction l as [|a l IH]; simpl; [done|]. intros Hall.
  rewrite Hall by left. f_equal. apply IH. intros. apply Hall. by right.
Qed.

Lemma filter_same {A} (f g : A -> bool) (l : list A) :
  (forall a, a ∈ l -> f a = g a) -> List.filter f l = List.filter g l.
Proof.
  intros Hfg. apply List.filter_ext_in. intros a Ha. apply Hfg.
  by apply list_elem_of_In.
Qed.

Lemma listed_nil e : listed [] e = false.
Proof. unfold listed. apply bool_decide_eq_false_2, not_elem_of_nil. Qed.

Lemma listed_cons id ids e :
  listed (id :: ids) e = bool_decide (fst e = id) || listed ids e.
Proof.
  unfold listed. destruct (decide (fst e = id)) as [Heq|Hne].
  - rewrite (bool_decide_eq_true_2 (fst e = id)) by done.
    apply bool_decide_eq_true_2. rewrite Heq. left.
  - rewrite (bool_decide_eq_false_2 (fst e = id)) by done. simpl.
    apply bool_decide_ext. rewrite elem_of_cons. tauto.
Qed.

Lemma listed_cons_fresh id ids (objects : list (string * WorldObjects)) :
  id ∉ JSMap.keys objects ->
  List.filter (listed (id :: ids)) objects = List.filter (listed ids) objects.
Proof.
  intros Hfresh. apply filter_same. intros [k o] Hin.
  rewrite listed_cons. rewrite bool_decide_eq_false_2; [done|].
  simpl. intros ->. apply Hfresh. unfold JSMap.keys.
  apply list_elem_of_In, in_map_iff. exists (id, o).
  split; [done|]. by apply list_elem_of_In.
Qed.

Lemma listed_cons_found id ids (objects : list (string * WorldObjects)) o :
  NoDup (JSMap.keys objects) ->
  JSMap.get id objects = Some o ->
  List.filter (listed (id :: ids)) objects ≡ₚ
    (id, o) :: List.filter (listed ids) (JSMap.delete id objects).
Proof.
  induction objects as [|[k v] objects IH]; [done|].
  cbn [JSMap.keys List.map fst JSMap.get]. rewrite NoDup_cons.
  intros [Hk Hnd]. destruct (decide (id = k)) as [->|Hne].
  - intros [= ->]. rewrite JSMap.delete_head, (JSMap.delete_fresh k) by done.
    cbn [List.filter]. rewrite listed_cons. cbn [fst].
    rewrite bool_decide_eq_true_2 by done. cbn [orb].
    by rewrite listed_cons_fresh.
  - intros Hget. specialize (IH Hnd Hget).
    unfold JSMap.delete. cbn [List.filter fst].
    rewrite listed_cons. cbn [fst].
    rewrite (bool_decide_eq_false_2 (k = id)) by congruence.
    cbn [orb negb List.filter].
    destruct (listed ids (k, v)).
    + rewrite IH. apply Permutation_swap.
    + exact IH.
Qed.

Lemma removeInactiveMeshBodies_fold (ids : list string) :
  forall st : State,
    NoDup (JSMap.keys (worldObjects st)) ->
    exists removed : list ref,
      fold_left (fun st id => removeInactiveMeshBody id st) ids st =
        with_disposed (fun d => d ++ removed)
          (with_scene (List.filter (fun r => negb (bool_decide (r ∈ removed))))
             (with_worldObjects (List.filter (fun e => negb (listed ids e))) st)) /\
      removed ≡ₚ
        List.map (fun e => mesh (snd e)) (List.filter (listed ids) (worldObjects st)).
Proof.
  induction ids as [|id ids IH]; intros st Hnd; cbn [fold_left].
  - exists []. split.
    + destruct st. unfold with_disposed, with_scene, with_worldObjects.
      cbn. rewrite app_nil_r. f_equal.
      * symmetry. apply filter_all. intros. by rewrite listed_nil.
      * symmetry. apply filter_all. intros.
        by rewrite bool_decide_eq_false_2 by apply not_elem_of_nil.
    + rewrite (filter_same _ (fun _ => false)) by (intros; apply listed_nil).
      clear Hnd. by induction (worldObjects st).
  - unfold removeInactiveMeshBody at 2.
    destruct (JSMap.get id (worldObjects st)) as [o|] eqn:Hget.
    + destruct (IH (with_disposed (fun d => d ++ [mesh o])
                      (with_scene (scene_remove (mesh o))
                         (with_worldObjects (JSMap.delete id) st))))
        as (removed & -> & Hperm).
      { cbn. by apply JSMap.NoDup_keys_delete. }
      exists (mesh o :: removed). split.
      * unfold with_disposed, with_scene, with_worldObjects. cbn. f_equal.
        -- unfold JSMap.delete. rewrite filter_compose. apply filter_same.
           intros e _. rewrite listed_cons. by rewrite negb_orb.
        -- unfold scene_remove. rewrite filter_compose. apply filter_same.
           intros r _. rewrite <- negb_orb. f_equal.
           apply eq_true_iff_eq. rewrite orb_true_iff, !bool_decide_eq_true.
           rewrite elem_of_cons. tauto.
        -- by rewrite <- app_assoc.
      * cbn in Hperm. rewrite (listed_cons_found id ids _ o) by done.
        cbn [List.map snd]. by rewrite Hperm.
    + destruct (IH st Hnd) as (removed & -> & Hperm).
      exists removed. split.
      * unfold with_disposed, with_scene, with_worldObjects. cbn. f_equal.
        apply filter_same. intros [k v] Hin. rewrite listed_cons. cbn [fst].
        rewrite bool_decide_eq_false_2; [done|]. intros ->.
        apply JSMap.get_None in Hget. apply Hget.
        apply list_elem_of_In, in_map_iff. exists (id, v).
        split; [done|]. by apply list_elem_of_In.
      * rewrite listed_cons_fresh; [done|]. by apply JSMap.get_None.
Qed.

Lemma removeInactiveMeshBodies_unmatched (ids : list string) (st : State) :
  Forall (fun id => JSMap.get id (worldObjects st) = None) ids ->
  fold_left (fun st id => removeInactiveMeshBody id st) ids st = st.
Proof.
  induction 1 as [|id ids Hid _ IH]; cbn [fold_left]; [done|].
  unfold removeInactiveMeshBody at 2. by rewrite Hid.
Qed.

(** C6.  On a REMOVE_INACTIVES message the handler deletes from
    [worldObjects] the entries whose key is among the message's ids and
    keeps every other entry, in order; the meshes of the deleted entries,
    each once, are what it removes from the scene and passes to
    [disposeMesh]; the other children of the scene, every three.js object,
    the mesh pool and the messages posted stay as they were; and when no
    listed id has an entry the state is unchanged. *)
Theorem removeInactiveMeshBodies_exact (p : Payload) (st : State) :
  NoDup (JSMap.keys (worldObjects st)) ->
  (exists removed : list ref,
     removeInactiveMeshBodies p st =
       with_disposed (fun d => d ++ removed)
         (with_scene (List.filter (fun r => negb (bool_decide (r ∈ removed))))
            (with_worldObjects (List.filter (fun e => negb (listed (ids p) e))) st)) /\
     removed ≡ₚ
       List.map (fun e => mesh (snd e))
         (List.filter (listed (ids p)) (worldObjects st))) /\
  (Forall (fun id => JSMap.get id (worldObjects st) = None) (ids p) ->
   removeInactiveMeshBodies p st = st).
Proof.
  intros Hnd. split.
  - apply removeInactiveMeshBodies_fold, Hnd.
  - apply removeInactiveMeshBodies_unmatched.
Qed.

(** *** The falling-object check *)

(** [mesh.position.y <= -20] for the mesh of an entry. *)
Definition falling (h : ref -> Mesh) (e : string * WorldObjects) : bool :=
  num_le (Vector3.y (position (h (mesh (snd e))))) (num_of_Z (-20)).

(** [mesh.visible = false] on the mesh of an entry. *)
Definition hide (h : ref -> Mesh) (e : string * WorldObjects) : ref -> Mesh :=
  update_object (mesh (snd e)) (visible_set false) h.

Definition removeBodyMessage (e : string * WorldObjects) : Message tag OutPayload :=
  {| type := REMOVE_BODY WorkerEnum; payload := RemoveBody (id (snd e)) true |}.

Lemma falling_hide h e e' : falling (hide h e) e' = falling h e'.
Proof.
  unfold falling, hide, update_object.
  by destruct (decide (mesh (snd e') = mesh (snd e))) as [->|].
Qed.

Lemma hide_fold_lookup (fallen : list (string * WorldObjects)) :
  forall (h : ref -> Mesh) (r : ref),
    fold_left hide fallen h r =
      if bool_decide (r ∈ List.map (fun e => mesh (snd e)) fallen)
      then visible_set false (h r) else h r.
Proof.
  induction fallen as [|e fallen IH]; intros h r; cbn [fold_left List.map].
  - by rewrite bool_decide_eq_false_2 by apply not_elem_of_nil.
  - rewrite IH. unfold hide. unfold update_object.
    destruct (decide (r = mesh (snd e))) as [->|Hne].
    + rewrite (bool_decide_eq_true_2 (mesh (snd e) ∈ mesh (snd e) :: _)) by left.
      by case_bool_decide.
    + rewrite (bool_decide_ext (r ∈ mesh (snd e) :: _)
                 (r ∈ List.map (fun e => mesh (snd e)) fallen)); [done|].
      rewrite elem_of_cons. split; [by intros [?|?]|by right].
Qed.

Lemma NoDup_keys_middle (kept pending : list (string * WorldObjects)) k o :
  NoDup (JSMap.keys (kept ++ (k, o) :: pending)) ->
  (k ∉ JSMap.keys kept) /\ (k ∉ JSMap.keys pending) /\
  NoDup (JSMap.keys (kept ++ pending)).
Proof.
  unfold JSMap.keys. rewrite !map_app. cbn [List.map fst].
  rewrite !NoDup_app, NoDup_cons. intros (Hkept & Hdisj & Hk & Hpending).
  repeat split; try done.
  - intros Hin. apply (Hdisj _ Hin). left.
  - intros x Hx Hx'. apply (Hdisj _ Hx). by right.
Qed.

Lemma forEach_removeIfFalling (pending : list (string * WorldObjects)) :
  forall (kept : list (string * WorldObjects)) (st : State),
    worldObjects st = kept ++ pending ->
    NoDup (JSMap.keys (kept ++ pending)) ->
    (forall k o, (k, o) ∈ pending -> id o = k) ->
    forEach_worldObjects removeIfFalling (JSMap.keys pending) st =
      let fallen := List.filter (falling (heap st)) pending in
      with_posted (fun l => l ++ List.map removeBodyMessage fallen)
        (with_heap (fold_left hide fallen)
           (with_meshPool (fun pool => pool ++ List.map snd fallen)
              (with_worldObjects
                 (fun _ => kept ++ List.filter (fun e => negb (falling (heap st) e)) pending)
                 st))).
Proof.
  induction pending as [|[k o] pending IH]; intros kept st Hwo Hnd Hid;
    cbn [JSMap.keys List.map fst forEach_worldObjects].
  - cbn [List.filter List.map fold_left]. rewrite app_nil_r in *.
    state_eq; by rewrite ?app_nil_r.
  - destruct (NoDup_keys_middle _ _ _ _ Hnd) as (Hk1 & Hk2 & Hnd').
    rewrite Hwo, JSMap.get_app_fresh by done.
    assert (Hko : id o = k) by (apply Hid; left).
    unfold removeIfFalling at 2. cbn zeta. cbn [List.filter].
    change (num_le (Vector3.y (position (heap st (mesh o)))) (num_of_Z (-20)))
      with (falling (heap st) (k, o)).
    destruct (falling (heap st) (k, o)) eqn:Hfall; cbn [negb].
    + rewrite (IH kept).
      * cbv zeta. state_eq.
        all: change (update_object (mesh o) (visible_set false) (heap st))
               with (hide (heap st) (k, o)).
        all: rewrite ?(filter_same (falling (hide (heap st) (k, o))) (falling (heap st)))
               by (intros; apply falling_hide).
        -- f_equal. apply filter_same. intros. f_equal. apply falling_hide.
        -- unfold MeshPool. rewrite <- app_assoc. by destruct o.
        -- reflexivity.
        -- by rewrite <- app_assoc.
      * state_fields. rewrite Hko, Hwo, JSMap.delete_app, JSMap.delete_head.
        by rewrite !JSMap.delete_fresh.
      * done.
      * intros. apply Hid. by right.
    + rewrite (IH (kept ++ [(k, o)])).
      * cbv zeta. state_eq. by rewrite <- app_assoc.
      * by rewrite <- app_assoc.
      * by rewrite <- app_assoc.
      * intros. apply Hid. by right.
Qed.

Lemma NoDup_map_inj {A B} (f : A -> B) (l : list A) (a a' : A) :
  NoDup (List.map f l) -> a ∈ l -> a' ∈ l -> f a = f a' -> a = a'.
Proof.
  induction l as [|b l IH]; simpl.
  - intros _ Hin. by apply elem_of_nil in Hin.
  - rewrite NoDup_cons, !elem_of_cons. intros [Hb Hnd] [->|Ha] [->|Ha'] Hf.
    + done.
    + destruct Hb. rewrite Hf. apply list_elem_of_In, in_map, list_elem_of_In, Ha'.
    + destruct Hb. rewrite <- Hf. apply list_elem_of_In, in_map, list_elem_of_In, Ha.
    + auto.
Qed.

(** C3.  In a state whose [worldObjects] is keyed by the entries' ids and
    whose entries have meshes of their own, the falling-object check
    removes from [worldObjects] exactly the entries whose mesh has
    [position.y <= -20], pushes each of them onto the mesh pool, sets
    their meshes invisible, and posts one REMOVE_BODY message with
    [reusable = true] per removed entry; the scene and the disposal log
    are untouched.  An entry whose test is false stays registered and its
    mesh is as before. *)
Theorem checkAndRemoveFallingObjects_spec (st : State) :
  NoDup (JSMap.keys (worldObjects st)) ->
  (forall k o, (k, o) ∈ worldObjects st -> id o = k) ->
  NoDup (List.map (fun e => mesh (snd e)) (worldObjects st)) ->
  let fallen := List.filter (falling (heap st)) (worldObjects st) in
  let st' := checkAndRemoveFallingObjects st in
  st' =
    with_posted (fun l => l ++ List.map removeBodyMessage fallen)
      (with_heap (fold_left hide fallen)
         (with_meshPool (fun pool => pool ++ List.map snd fallen)
            (with_worldObjects
               (List.filter (fun e => negb (falling (heap st) e))) st))) /\
  (forall k o,
     (k, o) ∈ worldObjects st -> falling (heap st) (k, o) = true ->
     JSMap.get k (worldObjects st') = None /\
     o ∈ meshPool st' /\
     heap st' (mesh o) = visible_set false (heap st (mesh o)) /\
     (mesh o ∈ scene st' <-> mesh o ∈ scene st) /\
     disposed st' = disposed st /\
     removeBodyMessage (k, o) ∈ posted st') /\
  (forall k o,
     (k, o) ∈ worldObjects st -> falling (heap st) (k, o) = false ->
     JSMap.get k (worldObjects st') = Some o /\
     heap st' (mesh o) = heap st (mesh o)).
Proof.
  intros Hnd Hid Hmesh fallen st'.
  assert (Hst' : st' =
    with_posted (fun l => l ++ List.map removeBodyMessage fallen)
      (with_heap (fold_left hide fallen)
         (with_meshPool (fun pool => pool ++ List.map snd fallen)
            (with_worldObjects
               (List.filter (fun e => negb (falling (heap st) e))) st)))).
  { subst st'. unfold checkAndRemoveFallingObjects.
    by rewrite (forEach_removeIfFalling (worldObjects st) [] st). }
  split; [exact Hst'|]. rewrite Hst'. state_fields. split.
  - intros k o Hin Hfall.
    assert (Hfallen : (k, o) ∈ fallen).
    { apply list_elem_of_In, List.filter_In. split; [by apply list_elem_of_In|done]. }
    split; [|split; [|split; [|split; [|split]]]]; try done.
    + apply (JSMap.get_filter_false _ k o); [done..|]. by rewrite Hfall.
    + apply elem_of_app. right.
      apply list_elem_of_In, (in_map snd _ (k, o)), list_elem_of_In, Hfallen.
    + rewrite hide_fold_lookup. rewrite bool_decide_eq_true_2; [done|].
      apply list_elem_of_In, (in_map (fun e => mesh (snd e)) _ (k, o)).
      by apply list_elem_of_In.
    + apply elem_of_app. right.
      apply list_elem_of_In, (in_map removeBodyMessage _ (k, o)).
      by apply list_elem_of_In.
  - intros k o Hin Hfall. split.
    + apply (JSMap.get_filter_true _ k o); [done..|]. by rewrite Hfall.
    + rewrite hide_fold_lookup. rewrite bool_decide_eq_false_2; [done|].
      intros Hr. apply list_elem_of_In, in_map_iff in Hr as (e & He & Hefallen).
      apply List.filter_In in Hefallen as [Hein Hefall].
      apply list_elem_of_In in Hein.
      assert (e = (k, o)) as -> by by apply (NoDup_map_inj _ _ _ _ Hmesh).
      congruence.
Qed.

(** *** The render tick *)

Lemma forEach_removeIfFalling_posted (pending : list string) :
  forall st : State,
    exists removals : list (Message tag OutPayload),
      posted (forEach_worldObjects removeIfFalling pending st) =
        posted st ++ removals /\
      Forall (fun m => type m = REMOVE_BODY WorkerEnum) removals.
Proof.
  induction pending as [|k pending IH]; intros st; cbn [forEach_worldObjects].
  - exists []. by rewrite app_nil_r.
  - destruct (JSMap.get k (worldObjects st)) as [o|]; [|apply IH].
    unfold removeIfFalling at 2.
    destruct (num_le _ _); [|apply IH].
    match goal with
    | |- context [forEach_worldObjects _ _ ?st1] =>
        destruct (IH st1) as (removals & -> & Hall)
    end.
    state_fields.
    exists ({| type := REMOVE_BODY WorkerEnum; payload := RemoveBody (id o) true |}
              :: removals).
    split; [by rewrite <- app_assoc|]. by constructor.
Qed.

Lemma tick_below (delta elapsedTime : num) (st : State) :
  num_lt (num_add (fpsDelta st) delta) fpsInterval = true ->
  tick delta elapsedTime st =
    with_fpsDelta (num_add (fpsDelta st) delta)
      (perform StatsBegin (perform RequestAnimationFrame st)).
Proof.
  intros Hlt. unfold tick. cbv zeta.
  match goal with
  | |- context [num_lt ?a fpsInterval] =>
      change a with (num_add (fpsDelta st) delta)
  end.
  by rewrite Hlt.
Qed.

Lemma tick_reached (delta elapsedTime : num) (st : State) :
  num_lt (num_add (fpsDelta st) delta) fpsInterval = false ->
  tick delta elapsedTime st =
    perform StatsEnd
      (perform RendererRender
         (checkAndRemoveFallingObjects
            (worldStepTick (num_sub elapsedTime (deltaTime st))
               (perform ControlsUpdate
                  (with_fpsDelta
                     (num_rem (num_add (fpsDelta st) delta) fpsInterval)
                     (with_deltaTime elapsedTime
                        (perform StatsBegin
                           (perform RequestAnimationFrame st)))))))).
Proof.
  intros Hlt. unfold tick. cbv zeta.
  match goal with
  | |- context [num_lt ?a fpsInterval] =>
      change a with (num_add (fpsDelta st) delta)
  end.
  by rewrite Hlt.
Qed.

(** C5.  With WORLD_STEP and REMOVE_BODY different members of
    [WorkerEnum]: a tick whose accumulated frame delta is not below the
    frame-cap interval posts, before anything else, one WORLD_STEP message
    carrying the time elapsed since the last step and the current
    floor-animation and rain settings of [guiManager], and it is the only
    WORLD_STEP message of the tick; a tick whose accumulated delta is
    below the interval posts nothing. *)
Theorem tick_posts_one_WORLD_STEP (delta elapsedTime : num) (st : State) :
  WORLD_STEP WorkerEnum <> REMOVE_BODY WorkerEnum ->
  let accumulated := num_add (fpsDelta st) delta in
  let g := guiManager st in
  let worldStep :=
    {| type := WORLD_STEP WorkerEnum;
       payload := WorldStep (isFloorAnimating g) (floorRotationX g)
                    (endFloorRotationAngle g)
                    (num_sub elapsedTime (deltaTime st))
                    (isRaining g) (rainSpeedTimer g) |} in
  (num_lt accumulated fpsInterval = false ->
   exists removals,
     posted (tick delta elapsedTime st) = posted st ++ worldStep :: removals /\
     List.filter (fun m => bool_decide (type m = WORLD_STEP WorkerEnum))
       (worldStep :: removals) = [worldStep]) /\
  (num_lt accumulated fpsInterval = true ->
   posted (tick delta elapsedTime st) = posted st).
Proof.
  intros Hne accumulated g worldStep. split; intros Hlt.
  - rewrite tick_reached by done.
    unfold checkAndRemoveFallingObjects.
    match goal with
    | |- context [forEach_worldObjects _ ?pending ?st1] =>
        destruct (forEach_removeIfFalling_posted pending st1)
          as (removals & Hposted & Hall)
    end.
    exists removals. split.
    + change (posted (perform ?e ?s)) with (posted s).
      change (posted (perform ?e ?s)) with (posted s).
      rewrite Hposted. unfold worldStepTick. state_fields.
      by rewrite <- app_assoc.
    + cbn [List.filter type]. rewrite bool_decide_eq_true_2 by done. f_equal.
      clear Hposted. induction Hall as [|m removals Hm _ IH]; [done|].
      cbn [List.filter]. rewrite bool_decide_eq_false_2; [done|]. congruence.
  - by rewrite tick_below.
Qed.

(** *** Before and at RAPIER_READY *)

(** Nothing has been created yet: no tracked object, no object allocated
    beyond the first [allocated], the scene as the module body left it,
    and no ADD_OBJECTS payload posted. *)
Definition notStarted (scene0 : list ref) (allocated : ref) (st : State) : Prop :=
  worldObjects st = [] /\
  next_ref st = allocated /\
  scene st = scene0 /\
  Forall (fun m => forall data, payload m <> AddObjects data) (posted st).

(** The entry, the mesh fields and the message data of the object that
    [createMesh("sphere")] allocates as number [r]. *)
Definition createdEntry (r : ref) : string * WorldObjects :=
  let '(oid, g, _) := createMesh sphere r in
  (oid, {| id := oid; geometry := g; mesh := r |}).

Definition createdMesh (r : ref) : Mesh := snd (createMesh sphere r).

Definition createdData (r : ref) : ObjectData :=
  let '(oid, g, m) := createMesh sphere r in
  {| data_id := oid;
     data_geometry := g;
     data_position := Vector3.toArray (position m);
     data_randomScale := Vector3.x (scale m) |}.

Lemma syncMeshBodies_loop_frame floats ids remaining :
  forall objIdx i st,
    let st' := state_of (fst (syncMeshBodies_loop floats ids remaining objIdx i st)) in
    worldObjects st' = worldObjects st /\ next_ref st' = next_ref st /\
    scene st' = scene st /\ posted st' = posted st.
Proof.
  induction remaining as [|remaining IH]; intros objIdx i st;
    cbn [syncMeshBodies_loop]; [done|].
  destruct (ids !! objIdx) as [id|]; [|done].
  match goal with
  | |- context [syncMeshBodies_loop _ _ _ _ _ ?st1] =>
      destruct (IH (S objIdx) (i + 7) st1) as (-> & -> & -> & ->)
  end.
  by destruct (JSMap.get id (worldObjects st)).
Qed.

Lemma notStarted_onmessage scene0 allocated (m : Message tag Payload) (st : State) :
  type m <> RAPIER_READY WorkerEnum ->
  notStarted scene0 allocated st ->
  notStarted scene0 allocated (state_of (onmessage m st)).
Proof.
  intros Hm Hst. unfold onmessage. cbn [bind_outcome].
  destruct (decide (type m = RAPIER_READY WorkerEnum)); [done|].
  cbn [bind_outcome].
  assert (Hrest : forall st1 : State,
    notStarted scene0 allocated st1 ->
    notStarted scene0 allocated
      (state_of
         (bind_outcome
            (bind_outcome (Returned st1) (fun st =>
               if decide (type m = ROTATE_FLOOR WorkerEnum)
               then Returned (updateAndRotateFloor (payload m) st) else Returned st))
            (fun st =>
               if decide (type m = REMOVE_INACTIVES WorkerEnum)
               then Returned (removeInactiveMeshBodies (payload m) st)
               else Returned st)))).
  { intros st1 (Hwo & Hnext & Hscene & Hposted). cbn [bind_outcome].
    assert (Hrot : notStarted scene0 allocated (updateAndRotateFloor (payload m) st1))
      by done.
    assert (Hrem : forall st2 : State, notStarted scene0 allocated st2 ->
              notStarted scene0 allocated (removeInactiveMeshBodies (payload m) st2)).
    { intros st2 Hst2. unfold removeInactiveMeshBodies.
      rewrite removeInactiveMeshBodies_unmatched; [done|].
      destruct Hst2 as (-> & _). by apply Forall_forall. }
    destruct (decide (type m = ROTATE_FLOOR WorkerEnum)); cbn [bind_outcome];
      destruct (decide (type m = REMOVE_INACTIVES WorkerEnum)); cbn [state_of];
      auto. }
  destruct (decide (type m = UPDATE_MESHES WorkerEnum)); [|by apply Hrest].
  assert (Hupd : notStarted scene0 allocated
            (state_of (udpateAndSyncMeshBodies (payload m) st))).
  { unfold udpateAndSyncMeshBodies, notStarted.
    match goal with
    | |- context [syncMeshBodies_loop ?f ?i ?n ?a ?b ?st1] =>
        destruct (syncMeshBodies_loop_frame f i n a b st1) as (-> & -> & -> & ->)
    end.
    exact Hst. }
  destruct (udpateAndSyncMeshBodies (payload m) st) as [st1|err st1].
  - by apply Hrest.
  - exact Hupd.
Qed.

Lemma notStarted_tick scene0 allocated (delta elapsedTime : num) (st : State) :
  notStarted scene0 allocated st ->
  notStarted scene0 allocated (tick delta elapsedTime st).
Proof.
  intros (Hwo & Hnext & Hscene & Hposted).
  destruct (num_lt (num_add (fpsDelta st) delta) fpsInterval) eqn:Hlt.
  - by rewrite tick_below.
  - rewrite tick_reached by done. unfold checkAndRemoveFallingObjects.
    match goal with
    | |- context [forEach_worldObjects _ (JSMap.keys (worldObjects ?st1)) _] =>
        change (worldObjects st1) with (worldObjects st)
    end.
    rewrite Hwo. cbn [JSMap.keys List.map forEach_worldObjects].
    repeat split; try done.
    unfold worldStepTick. state_fields. apply Forall_app. split; [done|].
    by repeat constructor.
Qed.

Lemma notStarted_run scene0 allocated (evs : list Event) :
  forall st : State,
    Forall (fun ev => forall m, ev = WorkerMessage m ->
                      type m <> RAPIER_READY WorkerEnum) evs ->
    notStarted scene0 allocated st ->
    notStarted scene0 allocated (run evs st).
Proof.
  induction evs as [|ev evs IH]; intros st Hevs Hst; [done|].
  apply Forall_cons in Hevs as [Hev Hevs]. cbn [run fold_left].
  apply IH; [done|]. destruct ev as [m|delta elapsedTime|]; cbn [handle].
  - apply notStarted_onmessage; auto.
  - by apply notStarted_tick.
  - done.
Qed.

Lemma scene_add_fresh (r : ref) (children : list ref) :
  r ∉ children -> scene_add r children = children ++ [r].
Proof.
  intros Hr. unfold scene_add. f_equal. apply filter_all.
  intros c Hc. apply negb_true_iff, bool_decide_eq_false_2. by intros ->.
Qed.

Lemma createdEntry_eq r oid g m :
  createMesh sphere r = (oid, g, m) ->
  createdEntry r = (oid, {| id := oid; geometry := g; mesh := r |}) /\
  createdMesh r = m /\
  createdData r =
    {| data_id := oid; data_geometry := g;
       data_position := Vector3.toArray (position m);
       data_randomScale := Vector3.x (scale m) |}.
Proof. unfold createdEntry, createdMesh, createdData. by intros ->. Qed.

(** A created entry is registered under its own id and owns the mesh
    allocated for it. *)
Lemma createdEntry_keyed r :
  id (snd (createdEntry r)) = fst (createdEntry r) /\
  mesh (snd (createdEntry r)) = r.
Proof. unfold createdEntry. by destruct (createMesh sphere r) as [[oid g] m]. Qed.

Lemma createStartingObject_iter (n : nat) (st : State) :
  (forall r, r ∈ seq (next_ref st) n ->
     fst (createdEntry r) ∉ JSMap.keys (worldObjects st)) ->
  NoDup (List.map (fun r => fst (createdEntry r)) (seq (next_ref st) n)) ->
  Forall (fun r => r < next_ref st) (scene st) ->
  let st' := Nat.iter n createStartingObject st in
  next_ref st' = next_ref st + n /\
  worldObjects st' =
    worldObjects st ++ List.map createdEntry (seq (next_ref st) n) /\
  scene st' = scene st ++ seq (next_ref st) n /\
  (forall r, heap st' r =
     if bool_decide (next_ref st <= r < next_ref st + n)
     then createdMesh r else heap st r) /\
  posted st' = posted st /\ meshPool st' = meshPool st /\
  disposed st' = disposed st /\ guiManager st' = guiManager st /\
  sharedFloatArray st' = sharedFloatArray st /\ effects st' = effects st.
Proof.
  induction n as [|n IH]; intros Hfresh Hnd Hscene.
  - change (Nat.iter 0 createStartingObject st) with st.
    cbn [seq List.map]. rewrite !app_nil_r, Nat.add_0_r.
    repeat split; try done. intros r.
    rewrite bool_decide_eq_false_2; [done|lia].
  - rewrite seq_S, map_app, NoDup_app in Hnd.
    destruct Hnd as (Hnd & Hlast & _).
    destruct IH as (Hnext & Hwo & Hsc & Hheap & Hrest); [|exact Hnd|exact Hscene|].
    { intros r Hr. apply Hfresh. rewrite seq_S. apply elem_of_app. by left. }
    rewrite Nat.iter_succ.
    set (stn := Nat.iter n createStartingObject st) in *.
    unfold createStartingObject. cbv zeta.
    destruct (createMesh sphere (next_ref stn)) as [[oid g] m] eqn:Hcreate.
    rewrite Hnext in Hcreate.
    destruct (createdEntry_eq _ _ _ _ Hcreate) as (Hentry & Hmesh & _).
    state_fields. rewrite seq_S, map_app, !app_assoc. cbn [List.map].
    rewrite Hentry, Hnext, Hwo, Hsc.
    split; [lia|]. split; [|split; [|split; [|exact Hrest]]].
    + apply JSMap.set_fresh. unfold JSMap.keys. rewrite map_app.
      intros [Hin|Hin]%elem_of_app.
      * apply (Hfresh (next_ref st + n)).
        -- rewrite seq_S. apply elem_of_app. right. left.
        -- by rewrite Hentry.
      * apply (Hlast oid).
        -- by rewrite map_map in Hin.
        -- cbn [List.map]. rewrite Hentry. left.
    + apply scene_add_fresh. intros [Hin|Hin]%elem_of_app.
      * rewrite Forall_forall in Hscene. specialize (Hscene _ Hin). lia.
      * apply list_elem_of_In, in_seq in Hin. lia.
    + intros r. rewrite Hheap.
      destruct (decide (r = next_ref st + n)) as [->|Hne].
      * rewrite bool_decide_eq_true_2 by lia. done.
      * apply (f_equal (fun b : bool => if b then _ else _)).
        apply bool_decide_ext. lia.
Qed.

Lemma notStarted_moduleBody canvasScene objects allocated gui delta elapsedTime :
  notStarted (scene_add floor canvasScene) allocated
    (moduleBody canvasScene objects allocated gui delta elapsedTime).
Proof. unfold moduleBody. apply notStarted_tick. by repeat split. Qed.

(** C4.  Before a RAPIER_READY message, whatever other messages, frames
    and resizes the page handles after its module body, no object has
    been created or registered, the scene is as the module body left it
    and no ADD_OBJECTS payload has been posted.  And when
    [initStartingObjects] runs in a state where the ids of the next 20
    created spheres are new and distinct, it allocates 20 meshes with
    [createMesh("sphere")], registers them in [worldObjects] after the
    entries already there, appends them to the scene, and posts one
    message, of type ADD_OBJECTS, whose data lists the id, geometry,
    position and scale of every registered object. *)
Theorem initStartingObjects_only_when_ready :
  (forall canvasScene objects allocated gui delta elapsedTime evs,
     Forall (fun ev => forall m, ev = WorkerMessage m ->
                       type m <> RAPIER_READY WorkerEnum) evs ->
     notStarted (scene_add floor canvasScene) allocated
       (run evs (moduleBody canvasScene objects allocated gui delta elapsedTime))) /\
  (forall st : State,
     let created := seq (next_ref st) 20 in
     (forall r, r ∈ created -> fst (createdEntry r) ∉ JSMap.keys (worldObjects st)) ->
     NoDup (List.map (fun r => fst (createdEntry r)) created) ->
     Forall (fun r => r < next_ref st) (scene st) ->
     Forall (fun e => mesh (snd e) < next_ref st) (worldObjects st) ->
     let st' := initStartingObjects st in
     worldObjects st' = worldObjects st ++ List.map createdEntry created /\
     scene st' = scene st ++ created /\
     next_ref st' = next_ref st + 20 /\
     (forall r, r ∈ created -> heap st' r = createdMesh r) /\
     (forall r, r < next_ref st -> heap st' r = heap st r) /\
     posted st' =
       posted st ++
       [{| type := ADD_OBJECTS WorkerEnum;
           payload :=
             AddObjects
               (List.map (objectData (heap st)) (JSMap.values (worldObjects st)) ++
                List.map createdData created) |}]).
Proof.
  split.
  - intros. apply notStarted_run; [done|]. apply notStarted_moduleBody.
  - intros st created Hfresh Hnd Hscene Hold st'.
    destruct (createStartingObject_iter 20 st Hfresh Hnd Hscene)
      as (Hnext & Hwo & Hsc & Hheap & Hposted & _).
    subst st'. unfold initStartingObjects.
    set (st20 := Nat.iter 20 createStartingObject st) in *.
    cbv zeta. state_fields.
    split; [done|]. split; [done|]. split; [done|]. split; [|split].
    + intros r Hr%list_elem_of_In%in_seq. rewrite Hheap.
      by rewrite bool_decide_eq_true_2.
    + intros r Hr. rewrite Hheap. rewrite bool_decide_eq_false_2; [done|lia].
    + rewrite Hposted, Hwo. do 4 f_equal.
      unfold JSMap.values. rewrite !map_app, !map_map.
      apply (f_equal2 (@app ObjectData)).
      * apply map_ext_in. intros [k o] Hin. cbn [snd]. unfold objectData.
        rewrite Forall_forall in Hold.
        apply list_elem_of_In, Hold in Hin. cbn [snd] in Hin.
        rewrite Hheap. rewrite bool_decide_eq_false_2; [done|lia].
      * apply map_ext_in. intros r Hr. apply in_seq in Hr.
        unfold objectData, createdData, createdEntry.
        pose proof (Hheap r) as Hr'. rewrite bool_decide_eq_true_2 in Hr' by done.
        unfold createdMesh in Hr'.
        destruct (createMesh sphere r) as [[oid g] m]. cbn [snd id geometry mesh] in *.
        by rewrite Hr'.
Qed.

(** *** What a frame leaves alone *)

Lemma forEach_removeIfFalling_frame (pending : list string) :
  forall st : State,
    let st' := forEach_worldObjects removeIfFalling pending st in
    scene st' = scene st /\ next_ref st' = next_ref st /\
    effects st' = effects st /\ disposed st' = disposed st.
Proof.
  induction pending as [|k pending IH]; intros st; cbn [forEach_worldObjects];
    [done|].
  destruct (JSMap.get k (worldObjects st)) as [o|]; [|apply IH].
  unfold removeIfFalling at 2 4 6 8.
  destruct (num_le _ _); [|apply IH].
  match goal with
  | |- context [forEach_worldObjects _ _ ?st1] =>
      destruct (IH st1) as (-> & -> & -> & ->)
  end.
  done.
Qed.

(** What [tick] asks of the browser and of three.js. *)
Definition frameEffects (reached : bool) : list Effect :=
  if reached
  then [RequestAnimationFrame; StatsBegin; ControlsUpdate; RendererRender; StatsEnd]
  else [RequestAnimationFrame; StatsBegin].

Lemma tick_frame (delta elapsedTime : num) (st : State) :
  let st' := tick delta elapsedTime st in
  scene st' = scene st /\ next_ref st' = next_ref st /\
  disposed st' = disposed st /\
  effects st' =
    effects st ++
    frameEffects (negb (num_lt (num_add (fpsDelta st) delta) fpsInterval)).
Proof.
  destruct (num_lt (num_add (fpsDelta st) delta) fpsInterval) eqn:Hlt;
    cbn [negb frameEffects].
  - rewrite tick_below by done. state_fields.
    by rewrite <- app_assoc.
  - rewrite tick_reached by done. unfold checkAndRemoveFallingObjects.
    match goal with
    | |- context [forEach_worldObjects _ ?pending ?st1] =>
        destruct (forEach_removeIfFalling_frame pending st1)
          as (Hscene & Hnext & Heffects & Hdisposed)
    end.
    state_fields. rewrite Hscene, Hnext, Heffects, Hdisposed.
    unfold worldStepTick. state_fields.
    by rewrite <- !app_assoc.
Qed.

Lemma frames_keep_scene (evs : list Event) :
  forall st : State,
    Forall (fun ev => forall m, ev <> WorkerMessage m) evs ->
    scene (run evs st) = scene st /\ next_ref (run evs st) = next_ref st.
Proof.
  induction evs as [|ev evs IH]; intros st Hevs; [done|].
  apply Forall_cons in Hevs as [Hev Hevs].
  change (run (ev :: evs) st) with (run evs (handle ev st)).
  destruct (IH (handle ev st) Hevs) as [-> ->].
  destruct ev as [m|delta elapsedTime|]; cbn [handle].
  - by destruct (Hev m).
  - by destruct (tick_frame delta elapsedTime st) as (-> & -> & _).
  - done.
Qed.


(** *** More on the UPDATE_MESHES handler *)

Lemma syncMeshBodies_loop_short floats ids remaining :
  forall objIdx st,
    objIdx <= length ids < objIdx + remaining ->
    fst (syncMeshBodies_loop floats ids remaining objIdx (7 * objIdx) st) =
      Thrown TypeError
        (with_heap
           (fun h => fold_left (assignTransform floats ids (worldObjects st))
                       (seq objIdx (length ids - objIdx)) h) st).
Proof.
  induction remaining as [|remaining IH]; intros objIdx st Hlen;
    cbn [syncMeshBodies_loop]; [lia|].
  destruct (ids !! objIdx) as [id|] eqn:Hid.
  - assert (objIdx < length ids) by (by apply lookup_lt_Some in Hid).
    replace (7 * objIdx + 7) with (7 * S objIdx) by lia.
    rewrite IH by lia.
    replace (length ids - objIdx) with (S (length ids - S objIdx)) by lia.
    cbn [seq fold_left]. f_equal.
    unfold assignTransform at 3. unfold meshAt. rewrite Hid.
    destruct (JSMap.get id (worldObjects st)) as [o|]; reflexivity.
  - apply lookup_ge_None in Hid.
    replace (length ids - objIdx) with 0 by lia.
    cbn [fst seq fold_left]. by rewrite with_heap_id.
Qed.

(** X1.  A message that announces more objects than it has ids makes the
    handler throw a [TypeError], and the transforms of the ids it does
    have were assigned before the throw. *)
Theorem udpateAndSyncMeshBodies_too_few_ids (p : Payload) (st : State) :
  length (ids p) < Z.to_nat (count p) ->
  udpateAndSyncMeshBodies p st =
    Thrown TypeError
      (with_heap
         (fold_left
            (assignTransform (sab_floats (buffer p)) (ids p) (worldObjects st))
            (seq 0 (length (ids p))))
         (with_sharedFloatArray (Some {| f32_buffer := sab_id (buffer p) |}) st)).
Proof.
  intros Hfew. unfold udpateAndSyncMeshBodies. rewrite currentView_buffer.
  cbv zeta. change 0 with (7 * 0) at 2.
  rewrite syncMeshBodies_loop_short by lia.
  by rewrite Nat.sub_0_r.
Qed.

(** [st'] has the fields of [st], the objects apart. *)
Definition same_but_heap (st st' : State) : Prop :=
  with_heap (fun _ => heap st) st' = st.

Lemma same_but_heap_fields (st st' : State) :
  same_but_heap st st' ->
  worldObjects st' = worldObjects st /\ meshPool st' = meshPool st /\
  sharedFloatArray st' = sharedFloatArray st /\ guiManager st' = guiManager st /\
  deltaTime st' = deltaTime st /\ fpsDelta st' = fpsDelta st /\
  scene st' = scene st /\ next_ref st' = next_ref st /\
  posted st' = posted st /\ disposed st' = disposed st /\
  effects st' = effects st.
Proof. unfold same_but_heap. intros <-. by state_fields. Qed.

Lemma same_but_heap_with_heap f (st st' : State) :
  same_but_heap st st' -> same_but_heap st (with_heap f st').
Proof.
  intros Hsame. apply same_but_heap_fields in Hsame
    as (? & ? & ? & ? & ? & ? & ? & ? & ? & ? & ?).
  unfold same_but_heap. by state_eq.
Qed.

Lemma same_but_heap_refl (st : State) : same_but_heap st st.
Proof. unfold same_but_heap. by state_eq. Qed.

Lemma same_but_heap_trans (st1 st2 st3 : State) :
  same_but_heap st1 st2 -> same_but_heap st2 st3 -> same_but_heap st1 st3.
Proof.
  intros H12 H23.
  apply same_but_heap_fields in H12 as (? & ? & ? & ? & ? & ? & ? & ? & ? & ? & ?).
  apply same_but_heap_fields in H23 as (? & ? & ? & ? & ? & ? & ? & ? & ? & ? & ?).
  unfold same_but_heap. state_eq; congruence.
Qed.

Lemma syncMeshBodies_loop_keeps floats ids remaining :
  forall objIdx i st,
    let st' := state_of (fst (syncMeshBodies_loop floats ids remaining objIdx i st)) in
    same_but_heap st st' /\
    forall r, scale (heap st' r) = scale (heap st r) /\
              visible (heap st' r) = visible (heap st r).
Proof.
  induction remaining as [|remaining IH]; intros objIdx i st;
    cbn [syncMeshBodies_loop].
  - split; [apply same_but_heap_refl|done].
  - destruct (ids !! objIdx) as [id|]; [|split; [apply same_but_heap_refl|done]].
    match goal with
    | |- context [syncMeshBodies_loop _ _ _ _ _ ?st1] =>
        destruct (IH (S objIdx) (i + 7) st1) as [Hframe Hmesh]; revert Hframe Hmesh;
        generalize (state_of (fst (syncMeshBodies_loop floats ids remaining
                                     (S objIdx) (i + 7) st1)))
    end.
    intros st' Hframe Hmesh. cbv zeta. split.
    + refine (same_but_heap_trans _ _ _ _ Hframe).
      destruct (JSMap.get id (worldObjects st));
        [apply same_but_heap_with_heap|]; apply same_but_heap_refl.
    + intros r. destruct (Hmesh r) as [-> ->].
      destruct (JSMap.get id (worldObjects st)) as [o|]; [|done].
      state_fields. unfold update_object.
      by destruct (decide (r = mesh o)) as [->|].
Qed.

(** X2.  Whether it returns or throws, the UPDATE_MESHES handler changes
    nothing but the cached view and the objects' positions and
    quaternions: the containers, the scene, the logs and every object's
    scale and visibility are as before. *)
Theorem udpateAndSyncMeshBodies_keeps (p : Payload) (st : State) :
  let st' := state_of (udpateAndSyncMeshBodies p st) in
  same_but_heap st (with_sharedFloatArray (sharedFloatArray st) st') /\
  forall r, scale (heap st' r) = scale (heap st r) /\
            visible (heap st' r) = visible (heap st r).
Proof.
  unfold udpateAndSyncMeshBodies. cbv zeta.
  match goal with
  | |- context [syncMeshBodies_loop ?f ?i ?n ?a ?b ?st1] =>
      destruct (syncMeshBodies_loop_keeps f i n a b st1) as [Hframe Hmesh];
      revert Hframe Hmesh;
      generalize (state_of (fst (syncMeshBodies_loop f i n a b st1)))
  end.
  intros st' Hframe Hmesh. split; [|exact Hmesh].
  apply same_but_heap_fields in Hframe
    as (? & ? & ? & ? & ? & ? & ? & ? & ? & ? & ?).
  unfold same_but_heap. by state_eq.
Qed.

Lemma udpateAndSyncMeshBodies_returned (p : Payload) (st : State) :
  Z.to_nat (count p) <= length (ids p) ->
  udpateAndSyncMeshBodies p st =
    Returned
      (with_heap
         (fold_left
            (assignTransform (sab_floats (buffer p)) (ids p) (worldObjects st))
            (seq 0 (Z.to_nat (count p))))
         (with_sharedFloatArray (Some {| f32_buffer := sab_id (buffer p) |}) st)).
Proof.
  intros Hlen. unfold udpateAndSyncMeshBodies. rewrite currentView_buffer.
  cbv zeta. change 0 with (7 * 0) at 2.
  by rewrite syncMeshBodies_loop_spec by (simpl; lia).
Qed.

Lemma transformAt_twice floats k k' (m : Mesh) :
  transformAt floats k' (transformAt floats k m) = transformAt floats k' m.
Proof. reflexivity. Qed.

Lemma assignTransform_named floats ids objects h k r :
  meshAt ids objects k = Some r ->
  assignTransform floats ids objects h k r = transformAt floats k (h r).
Proof.
  intros Hat. unfold assignTransform. rewrite Hat. unfold update_object.
  by destruct (decide (r = r)).
Qed.

(** What a run of assignments does to one object: nothing, or the
    assignment of one index. *)
Lemma assignTransform_fold_shape floats ids objects idxs r :
  (forall h, fold_left (assignTransform floats ids objects) idxs h r = h r) \/
  (exists k, forall h,
     fold_left (assignTransform floats ids objects) idxs h r =
       transformAt floats k (h r)).
Proof.
  induction idxs as [|k idxs IH]; cbn [fold_left]; [by left|].
  destruct (decide (meshAt ids objects k = Some r)) as [Hat|Hat];
    destruct IH as [Hrest|[k' Hrest]].
  - right. exists k. intros h. by rewrite Hrest, assignTransform_named.
  - right. exists k'. intros h.
    by rewrite Hrest, assignTransform_named, transformAt_twice.
  - left. intros h. by rewrite Hrest, assignTransform_other.
  - right. exists k'. intros h. by rewrite Hrest, assignTransform_other.
Qed.

(** X3.  Handling the same UPDATE_MESHES message again, with the same
    floats in the buffer, returns again and changes nothing more: an
    object named twice in [ids] ends with the floats of its last index
    both times. *)
Theorem udpateAndSyncMeshBodies_replay (p : Payload) (st : State) :
  Z.to_nat (count p) <= length (ids p) ->
  exists st1 st2,
    udpateAndSyncMeshBodies p st = Returned st1 /\
    udpateAndSyncMeshBodies p st1 = Returned st2 /\
    same_but_heap st1 st2 /\
    forall r, heap st2 r = heap st1 r.
Proof.
  intros Hlen. eexists _, _.
  split; [by apply udpateAndSyncMeshBodies_returned|].
  split; [by apply udpateAndSyncMeshBodies_returned|].
  split; [unfold same_but_heap; by state_eq|].
  intros r. state_fields.
  destruct (assignTransform_fold_shape (sab_floats (buffer p)) (ids p)
              (worldObjects st) (seq 0 (Z.to_nat (count p))) r)
    as [Hid|[k Hk]].
  - by rewrite !Hid.
  - by rewrite !Hk, transformAt_twice.
Qed.

(** *** The ROTATE_FLOOR handler *)

(** X5.  Of two ROTATE_FLOOR messages in a row the second one decides: the
    floor and the settings end as if only the second had arrived. *)
Theorem updateAndRotateFloor_last_wins (p1 p2 : Payload) (st : State) :
  let st12 := updateAndRotateFloor p2 (updateAndRotateFloor p1 st) in
  let st2 := updateAndRotateFloor p2 st in
  same_but_heap st2 st12 /\ forall r, heap st12 r = heap st2 r.
Proof.
  cbv zeta. unfold updateAndRotateFloor. split.
  - unfold same_but_heap. by state_eq.
  - intros r. state_fields. unfold update_object.
    destruct (decide (r = floor)); [|done].
    by destruct (decide (floor = floor)).
Qed.

(** *** More on the REMOVE_INACTIVES handler *)

Lemma removeInactiveMeshBody_gone (id : string) (st : State) :
  JSMap.get id (worldObjects (removeInactiveMeshBody id st)) = None.
Proof.
  unfold removeInactiveMeshBody.
  destruct (JSMap.get id (worldObjects st)) as [o|] eqn:Hget; [|done].
  state_fields. apply JSMap.get_None. rewrite JSMap.keys_delete.
  intros Hin%list_elem_of_In%List.filter_In. destruct Hin as [_ Hne].
  by rewrite bool_decide_eq_true_2 in Hne.
Qed.

Lemma removeInactiveMeshBody_stays_gone (id id' : string) (st : State) :
  JSMap.get id (worldObjects st) = None ->
  JSMap.get id (worldObjects (removeInactiveMeshBody id' st)) = None.
Proof.
  intros Hgone. unfold removeInactiveMeshBody.
  destruct (JSMap.get id' (worldObjects st)) as [o|]; [|done].
  state_fields. apply JSMap.get_None. apply JSMap.get_None in Hgone.
  rewrite JSMap.keys_delete.
  intros Hin%list_elem_of_In%List.filter_In. destruct Hin as [Hin _].
  by apply Hgone, list_elem_of_In.
Qed.

Lemma removeInactiveMeshBodies_gone (ids : list string) :
  forall (st : State) (id : string),
    id ∈ ids \/ JSMap.get id (worldObjects st) = None ->
    JSMap.get id
      (worldObjects (fold_left (fun st id => removeInactiveMeshBody id st) ids st)) =
      None.
Proof.
  induction ids as [|id' ids IH]; intros st id Hid; cbn [fold_left].
  - destruct Hid as [Hin|Hgone]; [by apply elem_of_nil in Hin|done].
  - apply IH. destruct Hid as [Hin|Hgone].
    + apply elem_of_cons in Hin as [->|Hin]; [|by left].
      right. apply removeInactiveMeshBody_gone.
    + right. by apply removeInactiveMeshBody_stays_gone.
Qed.

(** X6.  A REMOVE_INACTIVES message that arrives a second time finds none of
    its ids registered and changes nothing: no mesh is removed from the
    scene or passed to [disposeMesh] twice. *)
Theorem removeInactiveMeshBodies_replay (p : Payload) (st : State) :
  removeInactiveMeshBodies p (removeInactiveMeshBodies p st) =
    removeInactiveMeshBodies p st.
Proof.
  unfold removeInactiveMeshBodies at 1.
  apply removeInactiveMeshBodies_unmatched, Forall_forall.
  intros id Hin. apply removeInactiveMeshBodies_gone. by left.
Qed.

(** *** What holds in every state the page reaches *)

(** [createMesh] gives every mesh an id of its own. *)
Definition distinctIds : Prop :=
  forall r r', fst (createdEntry r) = fst (createdEntry r') -> r = r'.

(** The meshes [createMesh] has built since the module body ran. *)
Definition createdSince (base : ref) (st : State) : list ref :=
  seq base (next_ref st - base).

(** The [{ id, reusable }] payloads among the posted messages. *)
Definition removedBodies (l : list (Message tag OutPayload)) : list (string * bool) :=
  flat_map (fun m => match payload m with
                     | RemoveBody body_id reusable => [(body_id, reusable)]
                     | _ => []
                     end) l.

(** The bookkeeping of [main.ts]: every mesh built since the module body
    is registered, pooled or disposed, and only one of the three;
    [scene0] is the scene the module body left. *)
Definition consistent (scene0 : list ref) (base : ref) (st : State) : Prop :=
  exists tracked pooled : list ref,
    worldObjects st = List.map createdEntry tracked /\
    meshPool st = List.map (fun r => snd (createdEntry r)) pooled /\
    tracked ++ pooled ++ disposed st ≡ₚ createdSince base st /\
    base <= next_ref st /\
    scene st =
      scene0 ++
      List.filter (fun r => negb (bool_decide (r ∈ disposed st)))
        (createdSince base st) /\
    (forall r, r ∈ pooled -> visible (heap st r) = false) /\
    removedBodies (posted st) =
      List.map (fun r => (fst (createdEntry r), true)) pooled.

Lemma filter_map_swap {A B} (f : B -> bool) (g : A -> B) (l : list A) :
  List.filter f (List.map g l) = List.map g (List.filter (fun a => f (g a)) l).
Proof.
  induction l as [|a l IH]; simpl; [done|].
  destruct (f (g a)); simpl; by rewrite IH.
Qed.

Lemma filter_split {A} (f : A -> bool) (l : list A) :
  List.filter (fun a => negb (f a)) l ++ List.filter f l ≡ₚ l.
Proof.
  induction l as [|a l IH]; simpl; [done|].
  destruct (f a); simpl.
  - rewrite <- Permutation_middle. by f_equiv.
  - by f_equiv.
Qed.

Lemma filter_split_last {A} (f : A -> bool) (l l1 l2 : list A) :
  List.filter (fun a => negb (f a)) l ++ l1 ++ l2 ++ List.filter f l ≡ₚ
    l ++ l1 ++ l2.
Proof.
  rewrite <- (filter_split f l) at 3.
  rewrite <- !(assoc_L (++)). f_equiv.
  rewrite (assoc_L (++) l1 l2). apply Permutation_app_comm.
Qed.

Lemma filter_split_middle {A} (f : A -> bool) (l l1 l2 : list A) :
  List.filter (fun a => negb (f a)) l ++ (l1 ++ List.filter f l) ++ l2 ≡ₚ
    l ++ l1 ++ l2.
Proof.
  rewrite <- (filter_split f l) at 3.
  rewrite <- !(assoc_L (++)). f_equiv.
  apply Permutation_app_swap_app.
Qed.

Lemma NoDup_map_injective {A B} (f : A -> B) (l : list A) :
  (forall a a', f a = f a' -> a = a') -> NoDup l -> NoDup (List.map f l).
Proof.
  intros Hinj. induction 1 as [|a l Ha Hnd IH]; simpl; [constructor|].
  apply NoDup_cons. split; [|done].
  intros Hin. apply list_elem_of_In, in_map_iff in Hin as (a' & Heq & Hin).
  apply Hinj in Heq as ->. by apply Ha, list_elem_of_In.
Qed.

Lemma removedBodies_app l1 l2 :
  removedBodies (l1 ++ l2) = removedBodies l1 ++ removedBodies l2.
Proof. apply flat_map_app. Qed.

Lemma removedBodies_AddObjects l t data :
  removedBodies (l ++ [{| type := t; payload := AddObjects data |}]) =
    removedBodies l.
Proof. rewrite removedBodies_app. apply app_nil_r. Qed.

Lemma removedBodies_WorldStep l t a b c e f g :
  removedBodies (l ++ [{| type := t; payload := WorldStep a b c e f g |}]) =
    removedBodies l.
Proof. rewrite removedBodies_app. apply app_nil_r. Qed.

Lemma removedBodies_removeBodyMessage (fallen : list (string * WorldObjects)) :
  removedBodies (List.map removeBodyMessage fallen) =
    List.map (fun e => (id (snd e), true)) fallen.
Proof. induction fallen as [|e l IH]; simpl; [done|]. by rewrite <- IH. Qed.

Lemma createdSince_bounds base (st : State) r :
  r ∈ createdSince base st -> base <= r < next_ref st.
Proof.
  unfold createdSince. rewrite list_elem_of_In, in_seq. lia.
Qed.

Section Consistent.
Variable scene0 : list ref.
Variable base : ref.

Lemma consistent_parts (st : State) tracked pooled :
  tracked ++ pooled ++ disposed st ≡ₚ createdSince base st ->
  NoDup tracked /\ NoDup pooled /\ NoDup (disposed st) /\
  (forall r, r ∈ tracked -> (r ∉ pooled) /\ (r ∉ disposed st)) /\
  (forall r, r ∈ pooled -> r ∉ disposed st) /\
  (forall r, r ∈ tracked ++ pooled ++ disposed st -> base <= r < next_ref st).
Proof.
  intros Hperm.
  assert (Hnd : NoDup (tracked ++ pooled ++ disposed st)).
  { rewrite Hperm. apply NoDup_ListNoDup, seq_NoDup. }
  assert (Hbounds : forall r, r ∈ tracked ++ pooled ++ disposed st ->
                      base <= r < next_ref st).
  { intros r Hr. rewrite Hperm in Hr. by apply createdSince_bounds. }
  apply NoDup_app in Hnd as (Ht & Htp & Hnd).
  apply NoDup_app in Hnd as (Hp & Hpd & Hd).
  split; [done|]. split; [done|]. split; [done|].
  split; [|by split].
  intros r Hr. split; intros Hin; apply (Htp r Hr), elem_of_app; auto.
Qed.

Lemma consistent_keys (st : State) :
  distinctIds -> consistent scene0 base st ->
  NoDup (JSMap.keys (worldObjects st)).
Proof.
  intros Hinj (tracked & pooled & Hwo & _ & Hperm & _).
  apply consistent_parts in Hperm as (Hnd & _).
  rewrite Hwo. unfold JSMap.keys. rewrite List.map_map.
  by apply NoDup_map_injective.
Qed.

Lemma consistent_keyed (st : State) k o :
  consistent scene0 base st -> (k, o) ∈ worldObjects st -> id o = k.
Proof.
  intros (tracked & pooled & Hwo & _) Hin. rewrite Hwo in Hin.
  apply list_elem_of_In, in_map_iff in Hin as (r & Heq & _).
  pose proof (createdEntry_keyed r) as [Hid _]. rewrite Heq in Hid. done.
Qed.

(** A handler that leaves the containers, the scene and the disposal log
    alone, posts no REMOVE_BODY and changes no [visible] keeps the
    bookkeeping. *)
Lemma consistent_same (st st' : State) :
  worldObjects st' = worldObjects st ->
  meshPool st' = meshPool st ->
  disposed st' = disposed st ->
  next_ref st' = next_ref st ->
  scene st' = scene st ->
  removedBodies (posted st') = removedBodies (posted st) ->
  (forall r, visible (heap st' r) = visible (heap st r)) ->
  consistent scene0 base st -> consistent scene0 base st'.
Proof.
  intros Hwo Hpool Hd Hnext Hscene Hposted Hvis
    (tracked & pooled & ? & ? & ? & ? & ? & ? & ?).
  exists tracked, pooled. unfold createdSince in *.
  rewrite Hwo, Hpool, Hd, Hnext, Hscene, Hposted.
  repeat split; try done. intros r Hr. rewrite Hvis. auto.
Qed.

Lemma consistent_rotate (p : Payload) (st : State) :
  consistent scene0 base st ->
  consistent scene0 base (updateAndRotateFloor p st).
Proof.
  apply consistent_same; unfold updateAndRotateFloor; state_fields; try done.
  intros r. unfold update_object.
  destruct (decide (r = floor)) as [->|]; [|done].
  by destruct (decide (floor = floor)).
Qed.

Lemma consistent_update (p : Payload) (st : State) :
  consistent scene0 base st ->
  consistent scene0 base (state_of (udpateAndSyncMeshBodies p st)).
Proof.
  unfold udpateAndSyncMeshBodies. cbv zeta.
  match goal with
  | |- context [syncMeshBodies_loop ?f ?i ?n ?a ?b ?st1] =>
      destruct (syncMeshBodies_loop_keeps f i n a b st1) as [Hsame Hheap];
      revert Hsame Hheap;
      generalize (state_of (fst (syncMeshBodies_loop f i n a b st1)))
  end.
  intros st' Hsame Hheap.
  apply same_but_heap_fields in Hsame. state_fields.
  destruct Hsame as (? & ? & _ & _ & _ & _ & ? & ? & Hposted & ? & _).
  apply consistent_same; try done.
  - by rewrite Hposted.
  - intros r. apply Hheap.
Qed.

Lemma consistent_remove (p : Payload) (st : State) :
  distinctIds ->
  Forall (fun r => r < base) scene0 ->
  consistent scene0 base st ->
  consistent scene0 base (removeInactiveMeshBodies p st).
Proof.
  intros Hinj Hscene0 Hc.
  destruct (removeInactiveMeshBodies_fold (ids p) st (consistent_keys st Hinj Hc))
    as (removed & Heq & Hremoved).
  destruct Hc as (tracked & pooled & Hwo & Hpool & Hperm & Hbase & Hscene & Hvis & Hposted).
  unfold removeInactiveMeshBodies. rewrite Heq. clear Heq.
  rewrite Hwo, filter_map_swap, List.map_map in Hremoved.
  rewrite (map_ext _ (fun r => r)), List.map_id in Hremoved
    by (intros r; apply createdEntry_keyed).
  exists (List.filter (fun r => negb (listed (ids p) (createdEntry r))) tracked), pooled.
  unfold createdSince in *. state_fields.
  split; [by rewrite Hwo, filter_map_swap|].
  split; [done|].
  split.
  { rewrite <- Hperm, Hremoved. apply filter_split_last. }
  split; [done|].
  split.
  { rewrite Hscene, List.filter_app, filter_compose. f_equal.
    - apply filter_all. intros r Hr. apply negb_true_iff, bool_decide_eq_false.
      intros Hin. rewrite Hremoved in Hin.
      apply list_elem_of_In, List.filter_In in Hin as [Hin _].
      assert (base <= r < next_ref st) as [? _].
      { apply (createdSince_bounds base st). unfold createdSince.
        rewrite <- Hperm. apply elem_of_app. left. by apply list_elem_of_In. }
      rewrite Forall_forall in Hscene0. apply Hscene0 in Hr. lia.
    - apply filter_same. intros r _.
      rewrite <- negb_orb. f_equal.
      rewrite <- bool_decide_or. apply bool_decide_ext.
      by rewrite elem_of_app. }
  split; done.
Qed.

Lemma consistent_falling (st : State) :
  distinctIds ->
  consistent scene0 base st ->
  consistent scene0 base (checkAndRemoveFallingObjects st).
Proof.
  intros Hinj Hc.
  pose proof (consistent_keys st Hinj Hc) as Hkeys.
  pose proof (fun k o => consistent_keyed st k o Hc) as Hkeyed.
  destruct Hc as (tracked & pooled & Hwo & Hpool & Hperm & Hbase & Hscene & Hvis & Hposted).
  unfold checkAndRemoveFallingObjects.
  rewrite (forEach_removeIfFalling (worldObjects st) [] st); [|done..].
  cbv zeta. rewrite app_nil_l.
  set (fell := fun r => falling (heap st) (createdEntry r)).
  assert (Hfallen : List.filter (falling (heap st)) (worldObjects st) =
                    List.map createdEntry (List.filter fell tracked)).
  { by rewrite Hwo, filter_map_swap. }
  rewrite Hfallen.
  exists (List.filter (fun r => negb (fell r)) tracked), (pooled ++ List.filter fell tracked).
  unfold createdSince in *. state_fields.
  split; [by rewrite Hwo, filter_map_swap|].
  split; [by rewrite Hpool, List.map_app, List.map_map|].
  split; [rewrite <- Hperm; apply filter_split_middle|].
  split; [done|].
  split; [done|].
  split.
  - intros r Hr. rewrite hide_fold_lookup, List.map_map.
    rewrite (map_ext _ (fun r => r)), List.map_id
      by (intros r'; apply createdEntry_keyed).
    apply elem_of_app in Hr as [Hr|Hr].
    + destruct (bool_decide _); [done|by apply Hvis].
    + by rewrite bool_decide_eq_true_2.
  - rewrite removedBodies_app, Hposted, removedBodies_removeBodyMessage.
    rewrite List.map_app, List.map_map. f_equal.
    apply map_ext. intros r. f_equal. apply createdEntry_keyed.
Qed.

Lemma consistent_init (st : State) :
  distinctIds ->
  Forall (fun r => r < base) scene0 ->
  consistent scene0 base st ->
  consistent scene0 base (initStartingObjects st).
Proof.
  intros Hinj Hscene0 Hc.
  destruct Hc as (tracked & pooled & Hwo & Hpool & Hperm & Hbase & Hscene & Hvis & Hposted).
  pose proof (consistent_parts st tracked pooled Hperm)
    as (_ & _ & _ & _ & _ & Hbounds).
  destruct (createStartingObject_iter 20 st)
    as (Hnext & Hwo' & Hscene' & Hheap & Hposted' & Hpool' & Hd & _).
  { intros r Hr Hin. rewrite Hwo in Hin. unfold JSMap.keys in Hin.
    rewrite List.map_map in Hin.
    apply list_elem_of_In, in_map_iff in Hin as (r' & Heq & Hin).
    apply Hinj in Heq as ->.
    apply list_elem_of_In, in_seq in Hr.
    assert (base <= r < next_ref st) as [_ ?]; [|lia].
    apply Hbounds, elem_of_app. left. by apply list_elem_of_In. }
  { apply NoDup_map_injective; [exact Hinj|]. apply NoDup_ListNoDup, seq_NoDup. }
  { rewrite Hscene. apply Forall_app. split.
    - eapply Forall_impl; [exact Hscene0|]. simpl. lia.
    - apply Forall_forall. intros r Hr.
      apply list_elem_of_In, List.filter_In in Hr as [Hr _].
      apply in_seq in Hr. lia. }
  assert (Hsince : seq base (next_ref st + 20 - base) =
                   seq base (next_ref st - base) ++ seq (next_ref st) 20).
  { replace (next_ref st + 20 - base) with ((next_ref st - base) + 20) by lia.
    rewrite seq_app. do 2 f_equal. lia. }
  unfold initStartingObjects.
  set (st20 := Nat.iter 20 createStartingObject st) in *.
  cbv zeta.
  exists (tracked ++ seq (next_ref st) 20), pooled.
  unfold createdSince in *. state_fields.
  rewrite removedBodies_AddObjects.
  rewrite Hnext, Hwo', Hscene', Hposted', Hpool', Hd, Hsince.
  split; [by rewrite Hwo, List.map_app|].
  split; [done|].
  split.
  { rewrite <- Hperm, <- !(assoc_L (++)). f_equiv.
    rewrite (assoc_L (++) pooled). apply Permutation_app_comm. }
  split; [lia|].
  split.
  { rewrite Hscene, List.filter_app, <- !(assoc_L (++)). do 2 f_equal.
    symmetry. apply filter_all. intros r Hr.
    apply negb_true_iff, bool_decide_eq_false. intros Hin.
    apply list_elem_of_In, in_seq in Hr.
    assert (base <= r < next_ref st) as [_ ?]; [|lia].
    apply Hbounds. rewrite !elem_of_app. auto. }
  split.
  - intros r Hr. rewrite Hheap.
    assert (base <= r < next_ref st) as [_ ?].
    { apply Hbounds. rewrite !elem_of_app. auto. }
    rewrite bool_decide_eq_false_2 by lia. by apply Hvis.
  - done.
Qed.

Lemma consistent_tick (delta elapsedTime : num) (st : State) :
  distinctIds ->
  consistent scene0 base st ->
  consistent scene0 base (tick delta elapsedTime st).
Proof.
  intros Hinj Hc.
  destruct (num_lt (num_add (fpsDelta st) delta) fpsInterval) eqn:Hcap.
  - rewrite tick_below by done. revert Hc. by apply consistent_same.
  - rewrite tick_reached by done.
    set (st1 := checkAndRemoveFallingObjects _).
    apply (consistent_same st1); try done.
    apply consistent_falling; [done|].
    revert Hc. apply consistent_same; unfold worldStepTick; state_fields; try done.
    apply removedBodies_WorldStep.
Qed.

Lemma consistent_bind (o : outcome State) (k : State -> outcome State) :
  (forall st, consistent scene0 base st -> consistent scene0 base (state_of (k st))) ->
  consistent scene0 base (state_of o) ->
  consistent scene0 base (state_of (bind_outcome o k)).
Proof. intros Hk. destruct o; simpl; auto. Qed.

Lemma consistent_onmessage (m : Message tag Payload) (st : State) :
  distinctIds ->
  Forall (fun r => r < base) scene0 ->
  consistent scene0 base st ->
  consistent scene0 base (state_of (onmessage m st)).
Proof.
  intros Hinj Hscene0 Hc. unfold onmessage. cbv zeta.
  apply consistent_bind.
  { intros st' Hc'. destruct (decide _); [|done]. by apply consistent_remove. }
  apply consistent_bind.
  { intros st' Hc'. destruct (decide _); [|done]. by apply consistent_rotate. }
  apply consistent_bind.
  { intros st' Hc'. destruct (decide _); [|done]. by apply consistent_update. }
  apply consistent_bind; [|done].
  intros st' Hc'. destruct (decide _); [|done]. by apply consistent_init.
Qed.

Lemma consistent_run (evs : list Event) :
  forall st : State,
    distinctIds ->
    Forall (fun r => r < base) scene0 ->
    consistent scene0 base st ->
    consistent scene0 base (run evs st).
Proof.
  induction evs as [|ev evs IH]; intros st Hinj Hscene0 Hc; [done|].
  change (run (ev :: evs) st) with (run evs (handle ev st)).
  apply IH; try done.
  destruct ev as [m|delta elapsedTime|]; simpl.
  - by apply consistent_onmessage.
  - by apply consistent_tick.
  - revert Hc. by apply consistent_same.
Qed.

End Consistent.

(** The bookkeeping is in order after the module body and stays so. *)
Lemma consistent_reachable canvasScene objects allocated gui delta elapsedTime evs :
  distinctIds ->
  floor < allocated ->
  Forall (fun r => r < allocated) canvasScene ->
  consistent (scene_add floor canvasScene) allocated
    (run evs (moduleBody canvasScene objects allocated gui delta elapsedTime)).
Proof.
  intros Hinj Hfloor Hcanvas.
  assert (Hscene0 : Forall (fun r => r < allocated) (scene_add floor canvasScene)).
  { unfold scene_add. apply Forall_app. split; [|by repeat constructor].
    apply Forall_forall. intros r Hr.
    apply list_elem_of_In, List.filter_In in Hr as [Hr _].
    rewrite Forall_forall in Hcanvas. by apply Hcanvas, list_elem_of_In. }
  apply consistent_run; [done..|].
  unfold moduleBody. apply consistent_tick; [done|].
  exists [], []. unfold createdSince. state_fields.
  rewrite Nat.sub_diag. simpl. rewrite app_nil_r.
  repeat split; try done. intros r Hr. by apply elem_of_nil in Hr.
Qed.

Lemma consistent_tracked_meshes (st : State) tracked :
  worldObjects st = List.map createdEntry tracked ->
  List.map (fun e => mesh (snd e)) (worldObjects st) = tracked.
Proof.
  intros ->. rewrite List.map_map.
  rewrite (map_ext _ (fun r => r)), List.map_id; [done|].
  intros r. apply createdEntry_keyed.
Qed.

Lemma consistent_pooled_meshes (st : State) pooled :
  meshPool st = List.map (fun r => snd (createdEntry r)) pooled ->
  List.map mesh (meshPool st) = pooled /\
  List.map (fun o => (id o, true)) (meshPool st) =
    List.map (fun r => (fst (createdEntry r), true)) pooled.
Proof.
  intros ->. rewrite !List.map_map. split.
  - rewrite (map_ext _ (fun r => r)), List.map_id; [done|].
    intros r. apply createdEntry_keyed.
  - apply map_ext. intros r. f_equal. apply createdEntry_keyed.
Qed.

(** X7.  The theorems of this part are about the states the page reaches
    when, after the module body, it is entered through the callbacks of
    [main.ts] only (worker messages, frames, resizes), [createMesh] gives
    every mesh an id of its own, and the floor and the objects of
    [ThreeCanvas] were built before any ball.

    Every mesh built by [initStartingObjects] is then in one of three
    places, and in one only: registered in [worldObjects], parked in
    [meshPool], or passed to [disposeMesh].  No mesh is disposed of twice,
    and none is registered or pooled twice. *)
Theorem reachable_partition canvasScene objects allocated gui delta elapsedTime evs :
  distinctIds ->
  floor < allocated ->
  Forall (fun r => r < allocated) canvasScene ->
  let st := run evs (moduleBody canvasScene objects allocated gui delta elapsedTime) in
  List.map (fun e => mesh (snd e)) (worldObjects st) ++
    List.map mesh (meshPool st) ++ disposed st ≡ₚ
    seq allocated (next_ref st - allocated) /\
  NoDup (List.map (fun e => mesh (snd e)) (worldObjects st) ++
         List.map mesh (meshPool st) ++ disposed st).
Proof.
  intros Hinj Hfloor Hcanvas st.
  destruct (consistent_reachable canvasScene objects allocated gui delta
              elapsedTime evs Hinj Hfloor Hcanvas)
    as (tracked & pooled & Hwo & Hpool & Hperm & _).
  fold st in Hwo, Hpool, Hperm.
  rewrite (consistent_tracked_meshes st tracked Hwo).
  destruct (consistent_pooled_meshes st pooled Hpool) as [-> _].
  split; [done|]. rewrite Hperm. apply NoDup_ListNoDup, seq_NoDup.
Qed.

(** X8.  In every such state the registry is well formed: an id is
    registered once, under the id its entry carries, no two entries share
    a mesh, and the mesh of every entry is in the scene and has not been
    disposed of. *)
Theorem reachable_registry canvasScene objects allocated gui delta elapsedTime evs :
  distinctIds ->
  floor < allocated ->
  Forall (fun r => r < allocated) canvasScene ->
  let st := run evs (moduleBody canvasScene objects allocated gui delta elapsedTime) in
  NoDup (JSMap.keys (worldObjects st)) /\
  NoDup (List.map (fun e => mesh (snd e)) (worldObjects st)) /\
  (forall k o, (k, o) ∈ worldObjects st ->
     id o = k /\ JSMap.get k (worldObjects st) = Some o /\
     mesh o ∈ scene st /\ mesh o ∉ disposed st).
Proof.
  intros Hinj Hfloor Hcanvas st.
  pose proof (consistent_reachable canvasScene objects allocated gui delta
                elapsedTime evs Hinj Hfloor Hcanvas) as Hc.
  fold st in Hc.
  pose proof (consistent_keys _ _ st Hinj Hc) as Hkeys.
  pose proof (fun k o => consistent_keyed _ _ st k o Hc) as Hkeyed.
  destruct Hc as (tracked & pooled & Hwo & Hpool & Hperm & Hbase & Hscene & _).
  pose proof (consistent_parts allocated st tracked pooled Hperm)
    as (Hnd & _ & _ & Htracked & _ & _).
  split; [done|].
  split.
  { by rewrite (consistent_tracked_meshes st tracked Hwo). }
  intros k o Hin.
  split; [by apply Hkeyed|].
  split; [by apply JSMap.get_elem|].
  assert (Hr : mesh o ∈ tracked).
  { rewrite <- (consistent_tracked_meshes st tracked Hwo).
    apply list_elem_of_In, in_map_iff. exists (k, o).
    split; [done|]. by apply list_elem_of_In. }
  destruct (Htracked _ Hr) as [_ Hnot].
  split; [|done].
  rewrite Hscene. apply elem_of_app. right.
  apply list_elem_of_In, List.filter_In. split.
  - apply list_elem_of_In. unfold createdSince in Hperm. rewrite <- Hperm.
    apply elem_of_app. by left.
  - by apply negb_true_iff, bool_decide_eq_false.
Qed.

(** X9.  In every such state the scene is what the module body left,
    followed by the meshes built since, in the order they were built,
    without the disposed ones.  A mesh passed to [disposeMesh] was built
    by [initStartingObjects] and is no longer in the scene. *)
Theorem reachable_scene canvasScene objects allocated gui delta elapsedTime evs :
  distinctIds ->
  floor < allocated ->
  Forall (fun r => r < allocated) canvasScene ->
  let st := run evs (moduleBody canvasScene objects allocated gui delta elapsedTime) in
  scene st =
    scene_add floor canvasScene ++
    List.filter (fun r => negb (bool_decide (r ∈ disposed st)))
      (seq allocated (next_ref st - allocated)) /\
  (forall r, r ∈ disposed st -> allocated <= r < next_ref st /\ r ∉ scene st).
Proof.
  intros Hinj Hfloor Hcanvas st.
  destruct (consistent_reachable canvasScene objects allocated gui delta
              elapsedTime evs Hinj Hfloor Hcanvas)
    as (tracked & pooled & _ & _ & Hperm & _ & Hscene & _).
  fold st in Hperm, Hscene.
  pose proof (consistent_parts allocated st tracked pooled Hperm)
    as (_ & _ & _ & _ & _ & Hbounds).
  split; [done|].
  intros r Hr.
  assert (Hb : allocated <= r < next_ref st).
  { apply Hbounds. rewrite !elem_of_app. auto. }
  split; [done|].
  rewrite Hscene. intros Hin. apply elem_of_app in Hin as [Hin|Hin].
  - unfold scene_add in Hin. apply elem_of_app in Hin as [Hin|Hin].
    + apply list_elem_of_In, List.filter_In in Hin as [Hin _].
      rewrite Forall_forall in Hcanvas.
      apply list_elem_of_In, Hcanvas in Hin. lia.
    + apply list_elem_of_singleton in Hin. lia.
  - apply list_elem_of_In, List.filter_In in Hin as [_ Hin].
    by apply negb_true_iff, bool_decide_eq_false in Hin.
Qed.

(** X10.  [main.ts] itself only ever adds to [meshPool]: in every such
    state a pooled mesh is hidden, still in the scene, not disposed of
    and no longer registered, and the REMOVE_BODY messages posted so far
    name the pooled objects one by one, in the order of the pool, each
    with [reusable: true]. *)
Theorem reachable_pool canvasScene objects allocated gui delta elapsedTime evs :
  distinctIds ->
  floor < allocated ->
  Forall (fun r => r < allocated) canvasScene ->
  let st := run evs (moduleBody canvasScene objects allocated gui delta elapsedTime) in
  removedBodies (posted st) = List.map (fun o => (id o, true)) (meshPool st) /\
  (forall o, o ∈ meshPool st ->
     visible (heap st (mesh o)) = false /\
     mesh o ∈ scene st /\
     (mesh o ∉ disposed st) /\
     JSMap.get (id o) (worldObjects st) = None).
Proof.
  intros Hinj Hfloor Hcanvas st.
  destruct (consistent_reachable canvasScene objects allocated gui delta
              elapsedTime evs Hinj Hfloor Hcanvas)
    as (tracked & pooled & Hwo & Hpool & Hperm & _ & Hscene & Hvis & Hposted).
  fold st in Hwo, Hpool, Hperm, Hscene, Hvis, Hposted.
  pose proof (consistent_parts allocated st tracked pooled Hperm)
    as (_ & _ & _ & Htracked & Hpooled & _).
  destruct (consistent_pooled_meshes st pooled Hpool) as [_ Hids].
  split; [by rewrite Hids|].
  intros o Ho. rewrite Hpool in Ho.
  apply list_elem_of_In, in_map_iff in Ho as (r & <- & Hr).
  apply list_elem_of_In in Hr.
  destruct (createdEntry_keyed r) as [Hid ->]. rewrite Hid.
  split; [by apply Hvis|].
  split; [|split; [by apply Hpooled|]].
  - rewrite Hscene. apply elem_of_app. right.
    apply list_elem_of_In, List.filter_In. split.
    + apply list_elem_of_In. unfold createdSince in Hperm. rewrite <- Hperm.
      rewrite !elem_of_app. auto.
    + by apply negb_true_iff, bool_decide_eq_false, Hpooled.
  - apply JSMap.get_None. rewrite Hwo. unfold JSMap.keys.
    rewrite List.map_map. intros Hin.
    apply list_elem_of_In, in_map_iff in Hin as (r' & Heq & Hr').
    apply Hinj in Heq as ->. apply list_elem_of_In in Hr'.
    by destruct (Htracked _ Hr') as [? _].
Qed.

Lemma syncMeshBodies_loop_untracked floats ids remaining r :
  forall objIdx i st,
    (forall k o, (k, o) ∈ worldObjects st -> mesh o <> r) ->
    heap (state_of (fst (syncMeshBodies_loop floats ids remaining objIdx i st))) r =
      heap st r.
Proof.
  induction remaining as [|remaining IH]; intros objIdx i st Hfree;
    cbn [syncMeshBodies_loop]; [done|].
  destruct (ids !! objIdx) as [id|]; [|done].
  cbv zeta.
  destruct (JSMap.get id (worldObjects st)) as [o|] eqn:Hget; [|by apply IH].
  rewrite IH by done. state_fields. unfold update_object.
  destruct (decide (r = mesh o)) as [->|]; [|done].
  by destruct (Hfree id o (JSMap.get_Some_elem _ _ _ Hget)).
Qed.

(** X11.  In every such state an object that fell or was retired stays
    where it was: whatever an UPDATE_MESHES message says, and whether its
    handler returns or throws, a pooled mesh and a disposed mesh keep
    their position and quaternion. *)
Theorem reachable_pooled_frozen canvasScene objects allocated gui delta elapsedTime evs
    (p : Payload) (r : ref) :
  distinctIds ->
  floor < allocated ->
  Forall (fun r => r < allocated) canvasScene ->
  let st := run evs (moduleBody canvasScene objects allocated gui delta elapsedTime) in
  r ∈ List.map mesh (meshPool st) ++ disposed st ->
  heap (state_of (udpateAndSyncMeshBodies p st)) r = heap st r.
Proof.
  intros Hinj Hfloor Hcanvas st Hr.
  destruct (consistent_reachable canvasScene objects allocated gui delta
              elapsedTime evs Hinj Hfloor Hcanvas)
    as (tracked & pooled & Hwo & Hpool & Hperm & _).
  fold st in Hwo, Hpool, Hperm.
  pose proof (consistent_parts allocated st tracked pooled Hperm)
    as (_ & _ & _ & Htracked & _ & _).
  destruct (consistent_pooled_meshes st pooled Hpool) as [Hmeshes _].
  rewrite Hmeshes in Hr.
  unfold udpateAndSyncMeshBodies. cbv zeta.
  rewrite syncMeshBodies_loop_untracked; [done|].
  state_fields. intros k o Hin <-.
  assert (Ho : mesh o ∈ tracked).
  { rewrite <- (consistent_tracked_meshes st tracked Hwo).
    apply list_elem_of_In, in_map_iff. exists (k, o).
    split; [done|]. by apply list_elem_of_In. }
  destruct (Htracked _ Ho) as [Hp Hd].
  apply elem_of_app in Hr as [Hr|Hr]; [by apply Hp|by apply Hd].
Qed.

(** *** Frames that follow one another *)

Lemma checkAndRemoveFallingObjects_fallen (st : State) :
  NoDup (JSMap.keys (worldObjects st)) ->
  (forall k o, (k, o) ∈ worldObjects st -> id o = k) ->
  checkAndRemoveFallingObjects st =
    with_posted
      (fun l => l ++ List.map removeBodyMessage
                       (List.filter (falling (heap st)) (worldObjects st)))
      (with_heap (fold_left hide (List.filter (falling (heap st)) (worldObjects st)))
         (with_meshPool
            (fun pool => pool ++ List.map snd
                                   (List.filter (falling (heap st)) (worldObjects st)))
            (with_worldObjects
               (List.filter (fun e => negb (falling (heap st) e))) st))).
Proof.
  intros Hkeys Hkeyed. unfold checkAndRemoveFallingObjects.
  rewrite (forEach_removeIfFalling (worldObjects st) [] st); [|done..].
  cbv zeta. by state_eq.
Qed.

Lemma filter_none {A} (l : list A) : List.filter (fun _ => false) l = [].
Proof. induction l; simpl; done. Qed.

Lemma falling_hide_fold (fallen : list (string * WorldObjects)) :
  forall h e, falling (fold_left hide fallen h) e = falling h e.
Proof.
  induction fallen as [|e' l IH]; intros h e; cbn [fold_left]; [done|].
  by rewrite IH, falling_hide.
Qed.

(** X12.  Checking again right after a check finds nothing: no entry is left
    at or below -20, so nothing more is pooled, hidden or posted. *)
Theorem checkAndRemoveFallingObjects_twice (st : State) :
  NoDup (JSMap.keys (worldObjects st)) ->
  (forall k o, (k, o) ∈ worldObjects st -> id o = k) ->
  checkAndRemoveFallingObjects (checkAndRemoveFallingObjects st) =
    checkAndRemoveFallingObjects st.
Proof.
  intros Hkeys Hkeyed.
  rewrite (checkAndRemoveFallingObjects_fallen st) by done.
  set (fallen := List.filter (falling (heap st)) (worldObjects st)).
  set (st1 := with_posted _ _).
  assert (Hwo1 : worldObjects st1 =
                 List.filter (fun e => negb (falling (heap st) e)) (worldObjects st))
    by done.
  assert (Hheap1 : heap st1 = fold_left hide fallen (heap st)) by done.
  assert (Hnone : List.filter (falling (heap st1)) (worldObjects st1) = []).
  { rewrite Hwo1, Hheap1, filter_compose.
    rewrite (filter_same _ (fun _ => false)).
    - apply filter_none.
    - intros e _. rewrite falling_hide_fold. by destruct (falling (heap st) e). }
  rewrite (checkAndRemoveFallingObjects_fallen st1).
  - rewrite Hnone. apply State_ext; state_fields; rewrite ?app_nil_r; try done.
    apply filter_all. intros e He.
    destruct (falling (heap st1) e) eqn:Hfall; [|done].
    assert (Hin : e ∈ List.filter (falling (heap st1)) (worldObjects st1)).
    { apply list_elem_of_In, List.filter_In. by rewrite <- list_elem_of_In. }
    rewrite Hnone in Hin. by apply elem_of_nil in Hin.
  - rewrite Hwo1. by apply JSMap.NoDup_keys_filter.
  - intros k o Hin. rewrite Hwo1 in Hin.
    apply list_elem_of_In, List.filter_In in Hin as [Hin _].
    by apply Hkeyed, list_elem_of_In.
Qed.

Lemma forEach_removeIfFalling_clock (pending : list string) :
  forall st : State,
    let st' := forEach_worldObjects removeIfFalling pending st in
    deltaTime st' = deltaTime st /\ fpsDelta st' = fpsDelta st /\
    guiManager st' = guiManager st /\ sharedFloatArray st' = sharedFloatArray st.
Proof.
  induction pending as [|k pending IH]; intros st; cbn [forEach_worldObjects];
    [done|].
  destruct (JSMap.get k (worldObjects st)) as [o|]; [|apply IH].
  unfold removeIfFalling at 2 4 6 8.
  destruct (num_le _ _); [|apply IH].
  match goal with
  | |- context [forEach_worldObjects _ _ ?st1] =>
      destruct (IH st1) as (-> & -> & -> & ->)
  end.
  done.
Qed.

(** What a frame does to the two clocks and to the settings. *)
Lemma tick_clock (delta elapsedTime : num) (st : State) :
  let below := num_lt (num_add (fpsDelta st) delta) fpsInterval in
  let st' := tick delta elapsedTime st in
  deltaTime st' = (if below then deltaTime st else elapsedTime) /\
  fpsDelta st' =
    (if below then num_add (fpsDelta st) delta
     else num_rem (num_add (fpsDelta st) delta) fpsInterval) /\
  guiManager st' = guiManager st.
Proof.
  cbv zeta.
  destruct (num_lt (num_add (fpsDelta st) delta) fpsInterval) eqn:Hlt.
  - by rewrite tick_below by done.
  - rewrite tick_reached by done. unfold checkAndRemoveFallingObjects.
    match goal with
    | |- context [forEach_worldObjects _ ?pending ?st1] =>
        destruct (forEach_removeIfFalling_clock pending st1)
          as (Hdelta & Hfps & Hgui & _)
    end.
    state_fields. by rewrite Hdelta, Hfps, Hgui.
Qed.

(** X13.  The [timeDelta] of a WORLD_STEP is the time since the last frame that
    stepped, not since the last frame: a frame below the cap leaves
    [deltaTime] alone and only adds its delta to [fpsDelta], a frame that
    reaches the cap sets [deltaTime] and keeps the remainder of
    [fpsDelta]. *)
Theorem tick_timeDelta_since_last_step (d1 e1 d2 e2 : num) (st : State) :
  let below := num_lt (num_add (fpsDelta st) d1) fpsInterval in
  let st1 := tick d1 e1 st in
  let g := guiManager st in
  num_lt (num_add (fpsDelta st1) d2) fpsInterval = false ->
  fpsDelta st1 =
    (if below then num_add (fpsDelta st) d1
     else num_rem (num_add (fpsDelta st) d1) fpsInterval) /\
  exists removals,
    posted (tick d2 e2 st1) =
      posted st1 ++
      {| type := WORLD_STEP WorkerEnum;
         payload := WorldStep (isFloorAnimating g) (floorRotationX g)
                      (endFloorRotationAngle g)
                      (num_sub e2 (if below then deltaTime st else e1))
                      (isRaining g) (rainSpeedTimer g) |} :: removals /\
    Forall (fun m => type m = REMOVE_BODY WorkerEnum) removals.
Proof.
  cbv zeta. intros Hreached.
  destruct (tick_clock d1 e1 st) as (Hdelta & Hfps & Hgui).
  split; [exact Hfps|].
  rewrite (tick_reached d2 e2 _ Hreached).
  unfold checkAndRemoveFallingObjects.
  match goal with
  | |- context [forEach_worldObjects removeIfFalling ?pending ?st2] =>
      destruct (forEach_removeIfFalling_posted pending st2)
        as (removals & Hposted & Hall)
  end.
  exists removals. split; [|exact Hall].
  state_fields. rewrite Hposted. unfold worldStepTick. state_fields.
  by rewrite Hdelta, Hgui, <- app_assoc.
Qed.

End Main.

(** *** A concrete run on doubles *)

Definition demoEnum : WorkerEnumT (tag := string) :=
  {| RAPIER_READY := "RAPIER_READY"; UPDATE_MESHES := "UPDATE_MESHES";
     ROTATE_FLOOR := "ROTATE_FLOOR"; REMOVE_INACTIVES := "REMOVE_INACTIVES";
     ADD_OBJECTS := "ADD_OBJECTS"; REMOVE_BODY := "REMOVE_BODY";
     WORLD_STEP := "WORLD_STEP" |}.

Definition d (n : Z) : Binary64.value := num_of_Z n.

Definition demoMesh (py : Z) : Mesh :=
  {| position := Vector3.make (d 0) (d py) (d 0);
     quaternion := Quaternion.make (d 0) (d 0) (d 0) (d 1);
     scale := Vector3.make (d 1) (d 1) (d 1);
     visible := true |}.

(** The k-th created object: id ["ball-k"]-like names are not in the
    sources; any injective naming will do. *)
Definition demoCreateMesh (g : randomGeometry) (k : ref) : string * randomGeometry * Mesh :=
  (String (Ascii.ascii_of_nat (65 + k)) EmptyString, g, demoMesh 15).

Definition demoGUI : GUIManager :=
  {| isFloorAnimating := false; floorRotationX := d 0;
     endFloorRotationAngle := d 0; isRaining := false;
     rainSpeedTimer := d 5; rainingDuration := d 1 |}.

(** Two tracked balls, ["a"] above the floor and ["b"] fallen below -20,
    and the floor (object 0). *)
Definition demoState : State (tag := string) :=
  {| worldObjects :=
       [("a", {| id := "a"; geometry := sphere; mesh := 1 |});
        ("b", {| id := "b"; geometry := sphere; mesh := 2 |})];
     meshPool := [];
     sharedFloatArray := None;
     guiManager := demoGUI;
     deltaTime := d 0;
     fpsDelta := d 0;
     scene := [0; 1; 2];
     heap := fun r => match r with 2 => demoMesh (-25) | _ => demoMesh 3 end;
     next_ref := 3;
     posted := [];
     disposed := [];
     effects := [] |}.

Definition demoPayload : Payload :=
  {| buffer := {| sab_id := 7;
                  sab_floats := List.map d [1; 2; 3; 0; 0; 0; 1;
                                            4; 5; 6; 0; 0; 1; 0;
                                            7; 8; 9; 0; 1; 0; 0]%Z |};
     ids := ["b"; "gone"; "a"];
     count := 3;
     newFloorRotationX := d 1;
     translation := Vector3.make (d 0) (d 0) (d 0);
     rotation := Quaternion.make (d 0) (d 0) (d 0) (d 1) |}.

Lemma udpateAndSyncMeshBodies_stride7_witness :
  udpateAndSyncMeshBodies demoPayload demoState =
    Returned
      (with_heap
         (fold_left
            (assignTransform (sab_floats (buffer demoPayload)) (ids demoPayload)
               (worldObjects demoState))
            (seq 0 3))
         (with_sharedFloatArray (Some {| f32_buffer := 7 |}) demoState)) /\
  position
    (fold_left
       (assignTransform (sab_floats (buffer demoPayload)) (ids demoPayload)
          (worldObjects demoState))
       (seq 0 3) (heap demoState) 1) =
    Vector3.make (d 7) (d 8) (d 9).
Proof.
  destruct (udpateAndSyncMeshBodies_stride7 demoPayload demoState)
    as (_ & Hreturns & _ & Hlast & _).
  split.
  - apply Hreturns. vm_compute. lia.
  - refine (proj1 (Hlast 2 1 _ _ _)).
    + vm_compute. lia.
    + reflexivity.
    + intros j Hj. change (Z.to_nat (count demoPayload)) with 3 in Hj. lia.
Defined.

Lemma demoEnum_distinct :
  NoDup [RAPIER_READY demoEnum; UPDATE_MESHES demoEnum;
         ROTATE_FLOOR demoEnum; REMOVE_INACTIVES demoEnum].
Proof. compute_done. Defined.

Lemma demoState_keys : NoDup (JSMap.keys (worldObjects demoState)).
Proof. compute_done. Defined.

Lemma demoState_ids k o : (k, o) ∈ worldObjects demoState -> id o = k.
Proof.
  intros Hin.
  apply elem_of_cons in Hin as [Heq|Hin]; [by injection Heq as -> ->|].
  apply elem_of_cons in Hin as [Heq|Hin]; [by injection Heq as -> ->|].
  by apply elem_of_nil in Hin.
Defined.

Lemma demoState_meshes :
  NoDup (List.map (fun e => mesh (snd e)) (worldObjects demoState)).
Proof. compute_done. Defined.

Lemma onmessage_dispatch_witness :
  NoDup [RAPIER_READY demoEnum; UPDATE_MESHES demoEnum;
         ROTATE_FLOOR demoEnum; REMOVE_INACTIVES demoEnum] /\
  onmessage demoEnum demoCreateMesh 0
    {| type := "REMOVE_INACTIVES"; payload := demoPayload |} demoState =
  Returned (removeInactiveMeshBodies demoPayload demoState).
Proof.
  split; [exact demoEnum_distinct|].
  refine (proj1 (proj2 (proj2 (proj2
    (onmessage_dispatch demoEnum demoCreateMesh 0
       {| type := "REMOVE_INACTIVES"; payload := demoPayload |}
       demoState demoEnum_distinct)))) _).
  reflexivity.
Defined.

Lemma checkAndRemoveFallingObjects_spec_witness :
  NoDup (JSMap.keys (worldObjects demoState)) /\
  JSMap.get "b" (worldObjects (checkAndRemoveFallingObjects demoEnum demoState)) = None /\
  JSMap.get "a" (worldObjects (checkAndRemoveFallingObjects demoEnum demoState)) =
    Some {| id := "a"; geometry := sphere; mesh := 1 |}.
Proof.
  split; [exact demoState_keys|].
  destruct (checkAndRemoveFallingObjects_spec demoEnum demoState
              demoState_keys demoState_ids demoState_meshes)
    as (_ & Hfallen & Hkept).
  split.
  - refine (proj1 (Hfallen "b" {| id := "b"; geometry := sphere; mesh := 2 |} _ _)).
    + right. left.
    + vm_compute. reflexivity.
  - refine (proj1 (Hkept "a" {| id := "a"; geometry := sphere; mesh := 1 |} _ _)).
    + left.
    + vm_compute. reflexivity.
Defined.

Lemma initStartingObjects_only_when_ready_witness :
  NoDup (List.map (fun r => fst (createdEntry demoCreateMesh r))
           (seq (next_ref demoState) 20)) /\
  scene (initStartingObjects demoEnum demoCreateMesh demoState) =
    scene demoState ++ seq 3 20.
Proof.
  assert (Hnd : NoDup (List.map (fun r => fst (createdEntry demoCreateMesh r))
                         (seq (next_ref demoState) 20))).
  { compute_done. }
  split; [exact Hnd|].
  refine (proj1 (proj2
    (proj2 (initStartingObjects_only_when_ready demoEnum demoCreateMesh 0)
       demoState _ Hnd _ _))).
  - apply Forall_forall. compute_done.
  - compute_done.
  - compute_done.
Defined.

Lemma tick_posts_one_WORLD_STEP_witness :
  WORLD_STEP demoEnum <> REMOVE_BODY demoEnum /\
  exists removals,
    posted (tick demoEnum (d 1) (d 1) demoState) =
      posted demoState ++
      {| type := "WORLD_STEP";
         payload := WorldStep false (d 0) (d 0) (num_sub (d 1) (d 0)) false (d 5) |}
      :: removals.
Proof.
  assert (Hne : WORLD_STEP demoEnum <> REMOVE_BODY demoEnum) by discriminate.
  split; [exact Hne|].
  destruct (proj1 (tick_posts_one_WORLD_STEP demoEnum (d 1) (d 1) demoState Hne))
    as (removals & Hposted & _).
  - vm_compute. reflexivity.
  - exists removals. exact Hposted.
Defined.

Lemma removeInactiveMeshBodies_exact_witness :
  NoDup (JSMap.keys (worldObjects demoState)) /\
  exists removed,
    removeInactiveMeshBodies demoPayload demoState =
      with_disposed (fun d => d ++ removed)
        (with_scene (List.filter (fun r => negb (bool_decide (r ∈ removed))))
           (with_worldObjects
              (List.filter (fun e => negb (listed (ids demoPayload) e)))
              demoState)) /\
    removed ≡ₚ [1; 2].
Proof.
  split; [exact demoState_keys|].
  destruct (proj1 (removeInactiveMeshBodies_exact demoPayload demoState demoState_keys))
    as (removed & Heq & Hperm).
  exists removed. split; [exact Heq|]. exact Hperm.
Defined.

(** *** More concrete runs *)

(** A message that announces four objects and names three. *)
Definition shortPayload : Payload :=
  {| buffer := buffer demoPayload;
     ids := ids demoPayload;
     count := 4;
     newFloorRotationX := newFloorRotationX demoPayload;
     translation := translation demoPayload;
     rotation := rotation demoPayload |}.

Lemma udpateAndSyncMeshBodies_too_few_ids_witness :
  length (ids shortPayload) < Z.to_nat (count shortPayload) /\
  exists st', udpateAndSyncMeshBodies shortPayload demoState = Thrown TypeError st' /\
              position (heap st' 1) = Vector3.make (d 7) (d 8) (d 9).
Proof.
  assert (Hlen : length (ids shortPayload) < Z.to_nat (count shortPayload))
    by (vm_compute; lia).
  split; [exact Hlen|].
  eexists. split.
  - exact (udpateAndSyncMeshBodies_too_few_ids shortPayload demoState Hlen).
  - reflexivity.
Defined.

Lemma udpateAndSyncMeshBodies_replay_witness :
  Z.to_nat (count demoPayload) <= length (ids demoPayload) /\
  exists st1 st2,
    udpateAndSyncMeshBodies demoPayload demoState = Returned st1 /\
    udpateAndSyncMeshBodies demoPayload st1 = Returned st2 /\
    heap st2 2 = heap st1 2.
Proof.
  assert (Hlen : Z.to_nat (count demoPayload) <= length (ids demoPayload))
    by (vm_compute; lia).
  split; [exact Hlen|].
  destruct (udpateAndSyncMeshBodies_replay demoPayload demoState Hlen)
    as (st1 & st2 & H1 & H2 & _ & Hheap).
  exists st1, st2. split; [exact H1|]. split; [exact H2|]. apply Hheap.
Defined.

Lemma checkAndRemoveFallingObjects_twice_witness :
  NoDup (JSMap.keys (worldObjects demoState)) /\
  checkAndRemoveFallingObjects demoEnum
    (checkAndRemoveFallingObjects demoEnum demoState) =
  checkAndRemoveFallingObjects demoEnum demoState.
Proof.
  split; [exact demoState_keys|].
  exact (checkAndRemoveFallingObjects_twice demoEnum demoState
           demoState_keys demoState_ids).
Defined.

(** Two frames one thousandth of a second apart: the first stays below
    the cap of 1/240 s, the second does not. *)
Definition millis (n : Z) : Binary64.value := num_div (d n) (d 1000).

Lemma tick_timeDelta_since_last_step_witness :
  num_lt (num_add (fpsDelta (tick demoEnum (millis 1) (millis 1) demoState)) (millis 4))
         fpsInterval = false /\
  exists removals,
    posted (tick demoEnum (millis 4) (millis 5)
              (tick demoEnum (millis 1) (millis 1) demoState)) =
      {| type := "WORLD_STEP";
         payload := WorldStep false (d 0) (d 0) (num_sub (millis 5) (d 0)) false (d 5) |}
      :: removals.
Proof.
  assert (Hreached :
    num_lt (num_add (fpsDelta (tick demoEnum (millis 1) (millis 1) demoState)) (millis 4))
           fpsInterval = false) by (vm_compute; reflexivity).
  split; [exact Hreached|].
  destruct (tick_timeDelta_since_last_step demoEnum (millis 1) (millis 1)
              (millis 4) (millis 5) demoState Hreached)
    as (_ & removals & Hposted & _).
  exists removals. exact Hposted.
Defined.

(** A [createMesh] that names the k-th mesh with k strokes. *)
Fixpoint tally (k : nat) : string :=
  match k with
  | O => EmptyString
  | S k' => String.append "|" (tally k')
  end.

Definition tallyCreateMesh (g : randomGeometry) (k : ref) : string * randomGeometry * Mesh :=
  (tally k, g, demoMesh 15).

Lemma tally_inj k : forall k', tally k = tally k' -> k = k'.
Proof.
  induction k as [|k IH]; intros [|k']; simpl; try done.
  intros Heq. injection Heq as Heq. f_equal. by apply IH.
Defined.

Lemma tallyCreateMesh_distinct : distinctIds tallyCreateMesh.
Proof. intros r r'. apply tally_inj. Defined.

(** A message about one ball: as UPDATE_MESHES it puts the first ball
    below the floor, as REMOVE_INACTIVES it retires the third. *)
Definition ballPayload (name : string) : Payload :=
  {| buffer := {| sab_id := 8;
                  sab_floats := List.map d [0; -25; 0; 0; 0; 0; 1]%Z |};
     ids := [name];
     count := 1;
     newFloorRotationX := d 0;
     translation := translation demoPayload;
     rotation := rotation demoPayload |}.

(** The page starts with the floor (object 0) alone in the scene; the
    worker reports ready, a frame passes, the worker retires the third
    ball and reports the first one far below the floor, and the next
    frame finds it there. *)
Definition demoEvents : list (Event (num := Binary64.value) (tag := string)) :=
  [WorkerMessage {| type := "RAPIER_READY"; payload := demoPayload |};
   AnimationFrame (millis 5) (millis 5);
   WorkerMessage {| type := "REMOVE_INACTIVES"; payload := ballPayload (tally 3) |};
   WorkerMessage {| type := "UPDATE_MESHES"; payload := ballPayload (tally 1) |};
   WindowResize;
   AnimationFrame (millis 5) (millis 10)].

Definition demoPage : State (tag := string) :=
  run demoEnum tallyCreateMesh 0 demoEvents
    (moduleBody demoEnum 0 [] (fun _ => demoMesh 0) 1 demoGUI (millis 1) (millis 1)).

Lemma demoPage_canvas : Forall (fun r => r < 1) ([] : list ref).
Proof. constructor. Defined.

Lemma reachable_partition_witness :
  distinctIds tallyCreateMesh /\
  List.map (fun e => mesh (snd e)) (worldObjects demoPage) ++
    List.map mesh (meshPool demoPage) ++ disposed demoPage ≡ₚ
    seq 1 (next_ref demoPage - 1).
Proof.
  split; [exact tallyCreateMesh_distinct|].
  refine (proj1 (reachable_partition demoEnum tallyCreateMesh 0 [] (fun _ => demoMesh 0)
                   1 demoGUI (millis 1) (millis 1) demoEvents
                   tallyCreateMesh_distinct _ demoPage_canvas)).
  lia.
Defined.

Lemma reachable_registry_witness :
  distinctIds tallyCreateMesh /\
  NoDup (JSMap.keys (worldObjects demoPage)).
Proof.
  split; [exact tallyCreateMesh_distinct|].
  refine (proj1 (reachable_registry demoEnum tallyCreateMesh 0 [] (fun _ => demoMesh 0)
                   1 demoGUI (millis 1) (millis 1) demoEvents
                   tallyCreateMesh_distinct _ demoPage_canvas)).
  lia.
Defined.

Lemma reachable_scene_witness :
  distinctIds tallyCreateMesh /\
  scene demoPage =
    scene_add 0 [] ++
    List.filter (fun r => negb (bool_decide (r ∈ disposed demoPage)))
      (seq 1 (next_ref demoPage - 1)).
Proof.
  split; [exact tallyCreateMesh_distinct|].
  refine (proj1 (reachable_scene demoEnum tallyCreateMesh 0 [] (fun _ => demoMesh 0)
                   1 demoGUI (millis 1) (millis 1) demoEvents
                   tallyCreateMesh_distinct _ demoPage_canvas)).
  lia.
Defined.

Lemma reachable_pool_witness :
  distinctIds tallyCreateMesh /\
  removedBodies (posted demoPage) =
    List.map (fun o => (id o, true)) (meshPool demoPage).
Proof.
  split; [exact tallyCreateMesh_distinct|].
  refine (proj1 (reachable_pool demoEnum tallyCreateMesh 0 [] (fun _ => demoMesh 0)
                   1 demoGUI (millis 1) (millis 1) demoEvents
                   tallyCreateMesh_distinct _ demoPage_canvas)).
  lia.
Defined.

Lemma reachable_pooled_frozen_witness :
  distinctIds tallyCreateMesh /\
  1 ∈ List.map mesh (meshPool demoPage) ++ disposed demoPage /\
  heap (state_of (udpateAndSyncMeshBodies (ballPayload (tally 1)) demoPage)) 1 =
    heap demoPage 1.
Proof.
  split; [exact tallyCreateMesh_distinct|].
  assert (Hr : 1 ∈ List.map mesh (meshPool demoPage) ++ disposed demoPage).
  { apply list_elem_of_In. vm_compute. left. reflexivity. }
  split; [exact Hr|].
  revert Hr. unfold demoPage. intros Hr.
  refine (reachable_pooled_frozen demoEnum tallyCreateMesh 0 [] (fun _ => demoMesh 0)
            1 demoGUI (millis 1) (millis 1) demoEvents (ballPayload (tally 1)) 1
            tallyCreateMesh_distinct _ demoPage_canvas Hr).
  lia.
Defined.

End Bouncy.

(** ** fontloading-texture/src/utils.ts *)
Module FontLoading.
Section Utils.
Context {num : Type} `{JSNumber num}.

(** [three.BufferGeometry] and [three.Material] objects are only passed
    on, never looked into. *)
Variables BufferGeometry Material : Type.

(** [type Position = { position: three.Vector3 }] *)
Record Position := { position : Vector3.t num }.

(** The fields of a [three.Mesh] that [renderRandomizedGeometry] sets. *)
Record Mesh := {
  geometry : BufferGeometry;
  material : Material;
  mesh_position : Vector3.t num;
  rotation_x : num;
  rotation_y : num
}.

(** A [three.Group] is the list of its children. *)
Definition Group := list Mesh.

(** The module-level [positions] when the module is loaded: the origin
    is kept free for the text geometry. *)
Definition initialPositions : list Position :=
  [{| position := Vector3.make (num_of_Z 0) (num_of_Z 0) (num_of_Z 0) |}].

(** [getRandomVertex(num)] for the outcome [r] of its [Math.random()]. *)
Definition getRandomVertex (r : num) (n : num) : num :=
  num_mul (num_sub r num_half) n.

(** The default of the parameter [minDistance]. *)
Definition minDistance_default : num := num_of_Z 5.

(** [hasOverlapNeighbor(pos, minDistance)] over the list [positions]. *)
Fixpoint hasOverlapNeighbor (pos : Vector3.t num) (minDistance : num)
    (positions : list Position) : bool :=
  match positions with
  | [] => false
  | p :: positions' =>
      let distance := Vector3.distanceTo pos (position p) in
      if num_lt distance minDistance then true
      else hasOverlapNeighbor pos minDistance positions'
  end.

(** The [do ... while] of [renderRandomizedGeometry].  [tape] holds the
    outcomes of the calls to [Math.random()] still to come, in order; a
    round takes three of them.  The loop has no bound of its own: [None]
    says that the tape ended before a candidate was accepted. *)
Fixpoint drawPosition (positions : list Position) (tape : list num)
    : option (Vector3.t num * list num) :=
  match tape with
  | r1 :: r2 :: r3 :: tape' =>
      let position :=
        Vector3.make (getRandomVertex r1 (num_of_Z 50))
                     (getRandomVertex r2 (num_of_Z 50))
                     (getRandomVertex r3 (num_of_Z 50)) in
      if hasOverlapNeighbor position minDistance_default positions
      then drawPosition positions tape'
      else Some (position, tape')
  | _ => None
  end.

(** The [for] loop of [renderRandomizedGeometry] with [remaining]
    iterations to go.  It returns the group when it completes, and in any
    case the [positions] list and the tape as it left them. *)
Fixpoint placeMeshes (geometry : BufferGeometry) (material : Material)
    (remaining : nat) (geometryGroup : Group) (positions : list Position)
    (tape : list num) : option Group * list Position * list num :=
  match remaining with
  | O => (Some geometryGroup, positions, tape)
  | S remaining' =>
      match drawPosition positions tape with
      | Some (position, rx :: ry :: tape') =>
          let mesh :=
            {| geometry := geometry;
               material := material;
               mesh_position := position;
               rotation_x := num_mul num_PI rx;
               rotation_y := num_mul num_PI ry |} in
          placeMeshes geometry material remaining'
            (geometryGroup ++ [mesh])
            (positions ++ [{| position := position |}])
            tape'
      | Some (_, _) => (None, positions, [])
      | None => (None, positions, [])
      end
  end.

(** [renderRandomizedGeometry({ amount, geometry, material })]: the loop
    runs for [i = 0 .. amount]. *)
Definition renderRandomizedGeometry (amount : Z) (geometry : BufferGeometry)
    (material : Material) (positions : list Position) (tape : list num)
    : option Group * list Position * list num :=
  placeMeshes geometry material (Z.to_nat (amount + 1)) [] positions tape.

(** [p] is not closer than the default [minDistance] to [q], in the
    code's own terms: the test [distance < minDistance] is false. *)
Definition apart (p q : Position) : Prop :=
  num_lt (Vector3.distanceTo (position p) (position q)) minDistance_default = false.

(** Every position of the list is [apart] from all those before it. *)
Fixpoint spaced_from (earlier : list Position) (l : list Position) : Prop :=
  match l with
  | [] => True
  | p :: l' => Forall (apart p) earlier /\ spaced_from (earlier ++ [p]) l'
  end.

Definition spaced (l : list Position) : Prop := spaced_from [] l.

(** The values [positions] can have: the initial one, and what a call
    leaves behind, whether it returned or not. *)
Inductive reachable : list Position -> Prop :=
| reachable_initial : reachable initialPositions
| reachable_call positions amount geometry material tape :
    reachable positions ->
    reachable
      (snd (fst (renderRandomizedGeometry amount geometry material positions tape))).

(** *** The positions that are accepted *)

Lemma hasOverlapNeighbor_false pos minDistance positions :
  hasOverlapNeighbor pos minDistance positions = false <->
  Forall (fun p => num_lt (Vector3.distanceTo pos (position p)) minDistance = false)
    positions.
Proof.
  induction positions as [|p positions IH]; cbn [hasOverlapNeighbor].
  - split; [constructor|done].
  - rewrite Forall_cons.
    destruct (num_lt (Vector3.distanceTo pos (position p)) minDistance).
    + split; [done|]. by intros [? _].
    + rewrite IH. split; [done|]. by intros [_ ?].
Qed.

Lemma drawPosition_accepted positions tape :
  forall pos tape',
    drawPosition positions tape = Some (pos, tape') ->
    hasOverlapNeighbor pos minDistance_default positions = false.
Proof.
  remember (length tape) as n eqn:Hn.
  revert tape Hn. induction (lt_wf n) as [n _ IH]. intros tape -> pos tape'.
  destruct tape as [|r1 [|r2 [|r3 tape1]]]; try done.
  cbn [drawPosition].
  destruct (hasOverlapNeighbor _ _ positions) eqn:Hoverlap.
  - apply (IH (length tape1)); [cbn [length]; lia|done].
  - by intros [= <- _].
Qed.

Lemma spaced_from_app earlier l1 l2 :
  spaced_from earlier (l1 ++ l2) <->
  spaced_from earlier l1 /\ spaced_from (earlier ++ l1) l2.
Proof.
  revert earlier. induction l1 as [|p l1 IH]; intros earlier; cbn [app spaced_from].
  - rewrite app_nil_r. tauto.
  - rewrite IH, <- app_assoc. cbn [app]. tauto.
Qed.

Lemma placeMeshes_spaced g m remaining :
  forall geometryGroup positions tape,
    exists accepted,
      snd (fst (placeMeshes g m remaining geometryGroup positions tape)) =
        positions ++ accepted /\
      spaced_from positions accepted.
Proof.
  induction remaining as [|remaining IH]; intros geometryGroup positions tape;
    cbn [placeMeshes].
  - exists []. by rewrite app_nil_r.
  - destruct (drawPosition positions tape) as [[pos tape1]|] eqn:Hdraw;
      [|exists []; by rewrite app_nil_r].
    destruct tape1 as [|rx [|ry tape2]]; try (exists []; by rewrite app_nil_r).
    match goal with
    | |- context [placeMeshes g m remaining ?gg ?ps ?t] =>
        destruct (IH gg ps t) as (accepted & -> & Hspaced)
    end.
    exists ({| position := pos |} :: accepted).
    rewrite <- app_assoc. split; [done|]. cbn [spaced_from]. split; [|done].
    apply drawPosition_accepted, hasOverlapNeighbor_false in Hdraw.
    exact Hdraw.
Qed.

Lemma reachable_spaced positions : reachable positions -> spaced positions.
Proof.
  induction 1 as [|positions amount g m tape _ IH].
  - cbn. by repeat constructor.
  - unfold renderRandomizedGeometry.
    destruct (placeMeshes_spaced g m (Z.to_nat (amount + 1)) [] positions tape)
      as (accepted & -> & Hspaced).
    by apply spaced_from_app.
Qed.

Lemma spaced_from_lookup earlier l :
  spaced_from earlier l ->
  forall i j p q,
    i < j -> (earlier ++ l) !! i = Some q -> l !! (j - length earlier) = Some p ->
    length earlier <= j -> apart p q.
Proof.
  revert earlier. induction l as [|a l IH]; intros earlier Hsp i j p q Hij Hi Hj Hlen.
  - done.
  - destruct Hsp as [Ha Hsp].
    destruct (decide (j = length earlier)) as [->|Hne].
    + rewrite Nat.sub_diag in Hj. injection Hj as ->.
      rewrite lookup_app_l in Hi by lia.
      rewrite Forall_forall in Ha. apply Ha. by apply list_elem_of_lookup_2 in Hi.
    + apply (IH (earlier ++ [a]) Hsp i j p q Hij).
      * by rewrite <- app_assoc.
      * rewrite length_app. cbn [length].
        replace (j - length earlier) with (S (j - (length earlier + 1))) in Hj by lia.
        exact Hj.
      * rewrite length_app. cbn [length]. lia.
Qed.

(** C9, as the code has it.  Whether a call returns or not, it only
    appends to [positions], and each position it appends is, when it is
    accepted, not closer than 5 to any position then in the list by the
    measure of the code: the distance that [distanceTo] computes on
    doubles is not below 5 (the test [distance < 5] of
    [hasOverlapNeighbor] is false).  Hence every value [positions] can
    take, from the initial list with the origin on, has each of its
    positions not closer than 5, in that measure, to every position
    before it.  The Euclidean distance itself can be a rounding error
    below 5, as the run on doubles at the end of this module shows. *)
Theorem accepted_positions_spaced :
  (forall amount (g : BufferGeometry) (m : Material) positions tape,
     exists accepted,
       snd (fst (renderRandomizedGeometry amount g m positions tape)) =
         positions ++ accepted /\
       forall before p after,
         accepted = before ++ p :: after ->
         Forall (apart p) (positions ++ before)) /\
  (forall positions,
     reachable positions ->
     forall i j p q,
       i < j -> positions !! i = Some q -> positions !! j = Some p -> apart p q).
Proof.
  split.
  - intros amount g m positions tape. unfold renderRandomizedGeometry.
    destruct (placeMeshes_spaced g m (Z.to_nat (amount + 1)) [] positions tape)
      as (accepted & -> & Hspaced).
    exists accepted. split; [done|]. intros before p after ->.
    apply spaced_from_app in Hspaced as [_ [Hp _]]. exact Hp.
  - intros positions Hreach i j p q Hij Hi Hj.
    apply reachable_spaced in Hreach.
    apply (spaced_from_lookup [] positions Hreach i j p q Hij Hi); cbn [length].
    + by rewrite Nat.sub_0_r.
    + lia.
Qed.

(** *** Returning

    The [do ... while] ends as soon as a candidate is accepted, and a run
    that returned on some outcomes of [Math.random()] returns the same
    group when more outcomes follow. *)

Lemma drawPosition_first positions r1 r2 r3 tape :
  hasOverlapNeighbor
    (Vector3.make (getRandomVertex r1 (num_of_Z 50))
                  (getRandomVertex r2 (num_of_Z 50))
                  (getRandomVertex r3 (num_of_Z 50)))
    minDistance_default positions = false ->
  drawPosition positions (r1 :: r2 :: r3 :: tape) =
    Some (Vector3.make (getRandomVertex r1 (num_of_Z 50))
                       (getRandomVertex r2 (num_of_Z 50))
                       (getRandomVertex r3 (num_of_Z 50)), tape).
Proof. intros Hfree. cbn [drawPosition]. by rewrite Hfree. Qed.

Lemma drawPosition_more_tape positions tape more :
  forall pos tape',
    drawPosition positions tape = Some (pos, tape') ->
    drawPosition positions (tape ++ more) = Some (pos, tape' ++ more).
Proof.
  remember (length tape) as n eqn:Hn.
  revert tape Hn. induction (lt_wf n) as [n _ IH]. intros tape -> pos tape'.
  destruct tape as [|r1 [|r2 [|r3 tape1]]]; try done.
  cbn [drawPosition app].
  destruct (hasOverlapNeighbor _ _ positions).
  - apply (IH (length tape1)); [cbn [length]; lia|done].
  - by intros [= <- <-].
Qed.

Lemma placeMeshes_more_tape g m remaining more :
  forall geometryGroup positions tape group positions' tape',
    placeMeshes g m remaining geometryGroup positions tape =
      (Some group, positions', tape') ->
    placeMeshes g m remaining geometryGroup positions (tape ++ more) =
      (Some group, positions', tape' ++ more).
Proof.
  induction remaining as [|remaining IH];
    intros geometryGroup positions tape group positions' tape';
    cbn [placeMeshes].
  - by intros [= <- <- <-].
  - destruct (drawPosition positions tape) as [[pos tape1]|] eqn:Hdraw;
      [|discriminate].
    rewrite (drawPosition_more_tape _ _ more _ _ Hdraw).
    destruct tape1 as [|rx [|ry tape2]]; try discriminate.
    cbn [app]. apply IH.
Qed.

(** *** Where the meshes are put, and what it costs *)

Lemma placeMeshes_positions g m remaining :
  forall geometryGroup positions tape group positions' tape',
    placeMeshes g m remaining geometryGroup positions tape =
      (Some group, positions', tape') ->
    exists added,
      group = geometryGroup ++ added /\
      positions' =
        positions ++ List.map (fun mesh => {| position := mesh_position mesh |}) added.
Proof.
  induction remaining as [|remaining IH];
    intros geometryGroup positions tape group positions' tape';
    cbn [placeMeshes].
  - intros [= <- <- _]. exists []. by rewrite !app_nil_r.
  - destruct (drawPosition positions tape) as [[position [|rx [|ry tape1]]]|];
      try discriminate.
    intros Hrun. apply IH in Hrun as (added & -> & ->).
    eexists (_ :: added). by rewrite <- !app_assoc.
Qed.

(** X14.  When a call returns, the positions it has pushed are the positions
    of the meshes of the group, one for one and in the same order; what
    was in [positions] before is still there, in front. *)
Theorem renderRandomizedGeometry_meshes_placed (amount : Z) (g : BufferGeometry)
    (m : Material) (positions : list Position) (tape : list num)
    (group : Group) (positions' : list Position) (tape' : list num) :
  renderRandomizedGeometry amount g m positions tape =
    (Some group, positions', tape') ->
  positions' =
    positions ++ List.map (fun mesh => {| position := mesh_position mesh |}) group.
Proof.
  intros Hrun. unfold renderRandomizedGeometry in Hrun.
  by apply placeMeshes_positions in Hrun as (added & -> & ->).
Qed.

(** X15.  With a negative [amount] the loop body never runs: the group is
    empty, nothing is pushed and [Math.random] is not called. *)
Theorem renderRandomizedGeometry_negative_amount (amount : Z) (g : BufferGeometry)
    (m : Material) (positions : list Position) (tape : list num) :
  (amount < 0)%Z ->
  renderRandomizedGeometry amount g m positions tape = (Some [], positions, tape).
Proof.
  intros Hamount. unfold renderRandomizedGeometry.
  by replace (Z.to_nat (amount + 1)) with 0 by lia.
Qed.

(** The candidate that a round of the [do ... while] builds. *)
Definition candidate (r : num * num * num) : Vector3.t num :=
  Vector3.make (getRandomVertex (fst (fst r)) (num_of_Z 50))
               (getRandomVertex (snd (fst r)) (num_of_Z 50))
               (getRandomVertex (snd r) (num_of_Z 50)).

(** The outcomes of [Math.random()] that some rounds take, in order. *)
Definition outcomes (rounds : list (num * num * num)) : list num :=
  flat_map (fun r => [fst (fst r); snd (fst r); snd r]) rounds.

Definition overlaps (positions : list Position) (r : num * num * num) : Prop :=
  hasOverlapNeighbor (candidate r) minDistance_default positions = true.

Lemma drawPosition_round positions r tape :
  drawPosition positions (outcomes [r] ++ tape) =
    if hasOverlapNeighbor (candidate r) minDistance_default positions
    then drawPosition positions tape
    else Some (candidate r, tape).
Proof. by destruct r as [[r1 r2] r3]. Qed.

Lemma drawPosition_rejected positions rejected :
  forall tape,
    Forall (overlaps positions) rejected ->
    drawPosition positions (outcomes rejected ++ tape) = drawPosition positions tape.
Proof.
  induction rejected as [|r rejected IH]; intros tape Hall; [done|].
  apply Forall_cons in Hall as [Hr Hall].
  change (outcomes (r :: rejected)) with (outcomes [r] ++ outcomes rejected).
  rewrite <- app_assoc, drawPosition_round. unfold overlaps in Hr. rewrite Hr.
  by apply IH.
Qed.

Lemma drawPosition_short positions tape :
  length tape < 3 -> drawPosition positions tape = None.
Proof. destruct tape as [|r1 [|r2 [|r3 tape]]]; simpl; [done..|lia]. Qed.

Lemma drawPosition_rounds positions :
  forall tape,
    exists rejected rest,
      tape = outcomes rejected ++ rest /\
      Forall (overlaps positions) rejected /\
      match drawPosition positions tape with
      | Some (pos, tape') =>
          exists r, rest = outcomes [r] ++ tape' /\ pos = candidate r /\
                    ~ overlaps positions r
      | None => length rest < 3
      end.
Proof.
  intros tape. remember (length tape) as n eqn:Hn. revert tape Hn.
  induction (lt_wf n) as [n _ IH]. intros tape ->.
  destruct tape as [|r1 [|r2 [|r3 tape]]];
    [exists [], []; simpl; split; [done|split; [done|lia]]
    |exists [], [r1]; simpl; split; [done|split; [done|lia]]
    |exists [], [r1; r2]; simpl; split; [done|split; [done|lia]]|].
  change (r1 :: r2 :: r3 :: tape) with (outcomes [(r1, r2, r3)] ++ tape).
  rewrite drawPosition_round.
  destruct (hasOverlapNeighbor (candidate (r1, r2, r3)) minDistance_default positions)
    eqn:Hoverlap.
  - destruct (IH (length tape) ltac:(simpl; lia) tape eq_refl)
      as (rejected & rest & -> & Hall & Hrest).
    exists ((r1, r2, r3) :: rejected), rest.
    split; [reflexivity|]. split; [by constructor|done].
  - exists [], (outcomes [(r1, r2, r3)] ++ tape).
    split; [done|]. split; [done|].
    exists (r1, r2, r3). split; [done|]. split; [done|].
    unfold overlaps. by rewrite Hoverlap.
Qed.

(** X16.  The [do ... while] hands over the first candidate that has no
    neighbour within [minDistance], having used three outcomes of
    [Math.random()] for it and for each candidate it rejected before; it
    comes to no position when every complete candidate overlaps. *)
Theorem drawPosition_first_accepted positions tape :
  (forall pos tape',
     drawPosition positions tape = Some (pos, tape') <->
     exists rejected r,
       tape = outcomes rejected ++ outcomes [r] ++ tape' /\
       pos = candidate r /\
       Forall (overlaps positions) rejected /\
       ~ overlaps positions r) /\
  (drawPosition positions tape = None <->
   exists rejected rest,
     tape = outcomes rejected ++ rest /\
     Forall (overlaps positions) rejected /\
     length rest < 3).
Proof.
  split; [intros pos tape'|]; split.
  - intros Hdraw.
    destruct (drawPosition_rounds positions tape)
      as (rejected & rest & Htape & Hall & Hrest).
    rewrite Hdraw in Hrest. destruct Hrest as (r & -> & -> & Hfree).
    by exists rejected, r.
  - intros (rejected & r & -> & -> & Hall & Hfree).
    rewrite drawPosition_rejected by done.
    rewrite drawPosition_round. unfold overlaps in Hfree.
    by destruct (hasOverlapNeighbor _ _ _).
  - intros Hdraw.
    destruct (drawPosition_rounds positions tape)
      as (rejected & rest & Htape & Hall & Hrest).
    rewrite Hdraw in Hrest. by exists rejected, rest.
  - intros (rejected & rest & -> & Hall & Hshort).
    rewrite drawPosition_rejected by done. by apply drawPosition_short.
Qed.

(** *** A call, turn by turn

    One turn of the [for] loop as the outcomes of [Math.random()] decide
    it: the candidates that the [do ... while] rejects, the candidate it
    accepts, and the two outcomes that turn the mesh. *)
Record Round := {
  round_rejected : list (num * num * num);
  round_accepted : num * num * num;
  round_turn_x : num;
  round_turn_y : num
}.

(** The outcomes that some turns use, in the order of the calls. *)
Definition round_outcomes (rd : Round) : list num :=
  outcomes (round_rejected rd) ++ outcomes [round_accepted rd] ++
  [round_turn_x rd; round_turn_y rd].

Definition rounds_outcomes (rounds : list Round) : list num :=
  flat_map round_outcomes rounds.

(** The position pushed and the mesh added in a turn. *)
Definition round_position (rd : Round) : Position :=
  {| position := candidate (round_accepted rd) |}.

Definition round_mesh (g : BufferGeometry) (m : Material) (rd : Round) : Mesh :=
  {| geometry := g;
     material := m;
     mesh_position := candidate (round_accepted rd);
     rotation_x := num_mul num_PI (round_turn_x rd);
     rotation_y := num_mul num_PI (round_turn_y rd) |}.

(** The turns fit the list [positions]: in each turn every rejected
    candidate has a neighbour within [minDistance] in the list as it is
    by then, and the accepted candidate has none. *)
Fixpoint rounds_fit (positions : list Position) (rounds : list Round) : Prop :=
  match rounds with
  | [] => True
  | rd :: rounds' =>
      Forall (overlaps positions) (round_rejected rd) /\
      ~ overlaps positions (round_accepted rd) /\
      rounds_fit (positions ++ [round_position rd]) rounds'
  end.

(** The number of candidates rejected in all the turns. *)
Definition rejections (rounds : list Round) : nat :=
  length (flat_map round_rejected rounds).

(** The call is stuck on the outcomes [leftover]: they end before the
    [do ... while] has accepted a candidate, or before the two outcomes
    that turn the mesh. *)
Definition stalls (positions : list Position) (leftover : list num) : Prop :=
  match drawPosition positions leftover with
  | Some (_, rest) => length rest < 2
  | None => True
  end.

Lemma drawPosition_fit positions rejected r tape :
  Forall (overlaps positions) rejected ->
  ~ overlaps positions r ->
  drawPosition positions (outcomes rejected ++ outcomes [r] ++ tape) =
    Some (candidate r, tape).
Proof.
  intros Hall Hfree. rewrite drawPosition_rejected by done.
  rewrite drawPosition_round. unfold overlaps in Hfree.
  by destruct (hasOverlapNeighbor _ _ _).
Qed.

Lemma placeMeshes_rounds g m rounds :
  forall geometryGroup positions rest,
    rounds_fit positions rounds ->
    placeMeshes g m (length rounds) geometryGroup positions
      (rounds_outcomes rounds ++ rest) =
      (Some (geometryGroup ++ List.map (round_mesh g m) rounds),
       positions ++ List.map round_position rounds,
       rest).
Proof.
  induction rounds as [|rd rounds IH]; intros geometryGroup positions rest Hfit.
  - cbn. by rewrite !app_nil_r.
  - destruct Hfit as (Hall & Hfree & Hfit).
    change (rounds_outcomes (rd :: rounds))
      with (round_outcomes rd ++ rounds_outcomes rounds).
    unfold round_outcomes. rewrite <- !app_assoc.
    cbn [length placeMeshes]. rewrite drawPosition_fit by done.
    cbn [app]. rewrite (IH _ _ _ Hfit). cbn [List.map].
    by rewrite <- !app_assoc.
Qed.

Lemma placeMeshes_rounds_inv g m remaining :
  forall geometryGroup positions tape group positions' tape',
    placeMeshes g m remaining geometryGroup positions tape =
      (Some group, positions', tape') ->
    exists rounds,
      length rounds = remaining /\
      rounds_fit positions rounds /\
      tape = rounds_outcomes rounds ++ tape' /\
      group = geometryGroup ++ List.map (round_mesh g m) rounds /\
      positions' = positions ++ List.map round_position rounds.
Proof.
  induction remaining as [|remaining IH];
    intros geometryGroup positions tape group positions' tape';
    cbn [placeMeshes].
  - intros [= <- <- <-]. exists []. by rewrite !app_nil_r.
  - destruct (drawPosition_rounds positions tape)
      as (rejected & rest & -> & Hall & Hrest).
    destruct (drawPosition positions (outcomes rejected ++ rest))
      as [[pos tape1]|]; [|discriminate].
    destruct Hrest as (r & -> & -> & Hfree).
    destruct tape1 as [|rx [|ry tape1]]; try discriminate.
    intros Hrun. apply IH in Hrun as (rounds & <- & Hfit & -> & -> & ->).
    exists ({| round_rejected := rejected; round_accepted := r;
               round_turn_x := rx; round_turn_y := ry |} :: rounds).
    split; [done|]. split; [done|].
    split; [|by rewrite <- !app_assoc].
    change (rounds_outcomes (?rd :: rounds))
      with (round_outcomes rd ++ rounds_outcomes rounds).
    unfold round_outcomes. cbn [round_rejected round_accepted round_turn_x round_turn_y].
    by rewrite <- !app_assoc.
Qed.

Lemma placeMeshes_stalls g m remaining :
  forall geometryGroup positions tape positions' tape',
    placeMeshes g m remaining geometryGroup positions tape =
      (None, positions', tape') ->
    exists rounds leftover,
      length rounds < remaining /\
      rounds_fit positions rounds /\
      tape = rounds_outcomes rounds ++ leftover /\
      positions' = positions ++ List.map round_position rounds /\
      stalls positions' leftover.
Proof.
  induction remaining as [|remaining IH];
    intros geometryGroup positions tape positions' tape';
    cbn [placeMeshes]; [discriminate|].
  assert (Hstuck : stalls positions tape ->
                   exists rounds leftover,
                     length rounds < S remaining /\
                     rounds_fit positions rounds /\
                     tape = rounds_outcomes rounds ++ leftover /\
                     positions = positions ++ List.map round_position rounds /\
                     stalls positions leftover).
  { intros Hstalls. exists [], tape. cbn. rewrite app_nil_r.
    split; [lia|]. done. }
  unfold stalls in Hstuck.
  destruct (drawPosition_rounds positions tape)
    as (rejected & rest & Htape & Hall & Hrest).
  destruct (drawPosition positions tape) as [[pos tape1]|];
    [|intros [= <- _]; by apply Hstuck].
  destruct Hrest as (r & -> & -> & Hfree).
  destruct tape1 as [|rx [|ry tape1]];
    [intros [= <- _]; apply Hstuck; simpl; lia
    |intros [= <- _]; apply Hstuck; simpl; lia|].
  clear Hstuck. intros Hrun.
  apply IH in Hrun as (rounds & leftover & Hlen & Hfit & Hrest & -> & Hstalls).
  exists ({| round_rejected := rejected; round_accepted := r;
             round_turn_x := rx; round_turn_y := ry |} :: rounds), leftover.
  split; [simpl; lia|]. split; [done|].
  split; [|split].
  - rewrite Htape.
    change (rounds_outcomes (?rd :: rounds))
      with (round_outcomes rd ++ rounds_outcomes rounds).
    unfold round_outcomes. cbn [round_rejected round_accepted round_turn_x round_turn_y].
    rewrite <- !app_assoc. do 2 f_equal. cbn [app]. by rewrite Hrest.
  - cbn [List.map]. by rewrite <- !app_assoc.
  - revert Hstalls. cbn [List.map]. by rewrite <- !app_assoc.
Qed.

Lemma rounds_outcomes_length (rounds : list Round) :
  length (rounds_outcomes rounds) = 5 * length rounds + 3 * rejections rounds.
Proof.
  assert (Houtcomes : forall l : list (num * num * num),
            length (outcomes l) = 3 * length l).
  { induction l as [|r l IH]; simpl; [done|]. simpl in IH. lia. }
  unfold rejections.
  induction rounds as [|rd rounds IH]; [done|].
  change (rounds_outcomes (rd :: rounds))
    with (round_outcomes rd ++ rounds_outcomes rounds).
  cbn [flat_map length]. unfold round_outcomes.
  rewrite !length_app, IH, !Houtcomes. simpl. lia.
Qed.

(** C8.  A call with [amount >= 0] runs its loop for [i = 0 .. amount].
    Whenever the outcomes of [Math.random()] offer, turn by turn, a
    candidate without a neighbour within [minDistance] and two more
    outcomes, the call returns, and the group it returns holds exactly
    [amount + 1] meshes, each built on the geometry and the material of
    the call.  Every call that returns went that way.  A call that does
    not return has placed fewer than [amount + 1] meshes and is stuck in
    a turn for lack of such outcomes: the [do ... while] has no bound of
    its own. *)
Theorem renderRandomizedGeometry_count (amount : Z) (g : BufferGeometry)
    (m : Material) (positions : list Position) :
  (0 <= amount)%Z ->
  (forall rounds rest,
     Z.of_nat (length rounds) = (amount + 1)%Z ->
     rounds_fit positions rounds ->
     renderRandomizedGeometry amount g m positions (rounds_outcomes rounds ++ rest) =
       (Some (List.map (round_mesh g m) rounds),
        positions ++ List.map round_position rounds,
        rest)) /\
  (forall tape group positions' tape',
     renderRandomizedGeometry amount g m positions tape =
       (Some group, positions', tape') ->
     Z.of_nat (length group) = (amount + 1)%Z /\
     Forall (fun mesh => geometry mesh = g /\ material mesh = m) group /\
     exists rounds,
       rounds_fit positions rounds /\
       tape = rounds_outcomes rounds ++ tape' /\
       group = List.map (round_mesh g m) rounds) /\
  (forall tape positions' tape',
     renderRandomizedGeometry amount g m positions tape =
       (None, positions', tape') ->
     exists rounds leftover,
       (Z.of_nat (length rounds) < amount + 1)%Z /\
       rounds_fit positions rounds /\
       tape = rounds_outcomes rounds ++ leftover /\
       stalls (positions ++ List.map round_position rounds) leftover).
Proof.
  intros Hamount. unfold renderRandomizedGeometry. split; [|split].
  - intros rounds rest Hlen Hfit.
    replace (Z.to_nat (amount + 1)) with (length rounds) by lia.
    by rewrite placeMeshes_rounds.
  - intros tape group positions' tape' Hrun.
    apply placeMeshes_rounds_inv in Hrun as (rounds & Hlen & Hfit & -> & -> & ->).
    cbn [app]. rewrite length_map. split; [lia|]. split.
    + apply Forall_forall. intros mesh Hin.
      apply list_elem_of_In, in_map_iff in Hin as (rd & <- & _). done.
    + by exists rounds.
  - intros tape positions' tape' Hrun.
    apply placeMeshes_stalls in Hrun
      as (rounds & leftover & Hlen & Hfit & -> & -> & Hstalls).
    exists rounds, leftover. split; [lia|]. done.
Qed.

(** X17.  A call that returns has called [Math.random()] five times for
    each mesh of the group, three for its position and two for its
    rotation, and three times more for each candidate that the
    [do ... while] rejected because it had a neighbour within
    [minDistance]; the outcomes it did not use are left in order. *)
Theorem renderRandomizedGeometry_draws (amount : Z) (g : BufferGeometry)
    (m : Material) (positions : list Position) (tape : list num)
    (group : Group) (positions' : list Position) (tape' : list num) :
  renderRandomizedGeometry amount g m positions tape =
    (Some group, positions', tape') ->
  exists rounds,
    rounds_fit positions rounds /\
    group = List.map (round_mesh g m) rounds /\
    tape = rounds_outcomes rounds ++ tape' /\
    length (rounds_outcomes rounds) = 5 * length group + 3 * rejections rounds.
Proof.
  intros Hrun. unfold renderRandomizedGeometry in Hrun.
  apply placeMeshes_rounds_inv in Hrun as (rounds & _ & Hfit & -> & -> & _).
  exists rounds. split; [done|]. split; [done|]. split; [done|].
  cbn [app]. rewrite length_map. apply rounds_outcomes_length.
Qed.

End Utils.

(** *** A concrete run on doubles: the first candidate is the origin and
    is rejected, the next two are accepted. *)

Definition tenth (n : Z) : Binary64.value := num_div (num_of_Z n) (num_of_Z 10).

Definition demoTape : list Binary64.value :=
  [tenth 5; tenth 5; tenth 5;
   tenth 9; tenth 9; tenth 9; tenth 2; tenth 7;
   tenth 1; tenth 1; tenth 1; tenth 5; tenth 5].

(** The same run, turn by turn. *)
Definition demoRounds : list (@Round Binary64.value) :=
  [{| round_rejected := [(tenth 5, tenth 5, tenth 5)];
      round_accepted := (tenth 9, tenth 9, tenth 9);
      round_turn_x := tenth 2;
      round_turn_y := tenth 7 |};
   {| round_rejected := [];
      round_accepted := (tenth 1, tenth 1, tenth 1);
      round_turn_x := tenth 5;
      round_turn_y := tenth 5 |}].

Lemma demoRounds_fit : rounds_fit initialPositions demoRounds.
Proof.
  split; [|split; [|split; [|split]]].
  - constructor; [|constructor]. vm_compute. reflexivity.
  - intros Hoverlap. vm_compute in Hoverlap. discriminate Hoverlap.
  - constructor.
  - intros Hoverlap. vm_compute in Hoverlap. discriminate Hoverlap.
  - exact I.
Defined.

Lemma renderRandomizedGeometry_count_witness :
  (0 <= 1)%Z /\
  rounds_fit initialPositions demoRounds /\
  renderRandomizedGeometry string string 1 "torus" "matcap"
    initialPositions demoTape =
    (Some (List.map (round_mesh string string "torus" "matcap") demoRounds),
     initialPositions ++ List.map round_position demoRounds,
     []).
Proof.
  assert (Hamount : (0 <= 1)%Z) by lia.
  split; [exact Hamount|]. split; [exact demoRounds_fit|].
  exact (proj1 (renderRandomizedGeometry_count string string 1 "torus" "matcap"
                  initialPositions Hamount)
           demoRounds [] eq_refl demoRounds_fit).
Defined.

Lemma accepted_positions_spaced_witness :
  reachable string string
    (snd (fst (renderRandomizedGeometry string string 1 "torus" "matcap"
                 initialPositions demoTape))) /\
  apart {| position := Vector3.make (num_of_Z (-20)) (num_of_Z (-20)) (num_of_Z (-20)) |}
        {| position := Vector3.make (num_of_Z 20) (num_of_Z 20) (num_of_Z 20) |}.
Proof.
  assert (Hreach : reachable string string
    (snd (fst (renderRandomizedGeometry string string 1 "torus" "matcap"
                 initialPositions demoTape)))).
  { apply reachable_call, reachable_initial. }
  split; [exact Hreach|].
  refine (proj2 (accepted_positions_spaced string string) _ Hreach 1 2 _ _ _ _ _).
  - lia.
  - vm_compute. reflexivity.
  - vm_compute. reflexivity.
Defined.

Lemma renderRandomizedGeometry_meshes_placed_witness :
  exists group positions' tape',
    renderRandomizedGeometry string string 1 "torus" "matcap"
      initialPositions demoTape = (Some group, positions', tape') /\
    positions' =
      initialPositions ++
      List.map (fun mesh => {| position := mesh_position string string mesh |}) group.
Proof.
  destruct (renderRandomizedGeometry string string 1 "torus" "matcap"
              initialPositions demoTape) as [[[group|] positions'] tape'] eqn:Hrun.
  - exists group, positions', tape'. split; [reflexivity|].
    exact (renderRandomizedGeometry_meshes_placed string string 1 "torus" "matcap"
             initialPositions demoTape group positions' tape' Hrun).
  - vm_compute in Hrun. discriminate Hrun.
Defined.

Lemma renderRandomizedGeometry_negative_amount_witness :
  (-1 < 0)%Z /\
  renderRandomizedGeometry string string (-1) "torus" "matcap"
    initialPositions demoTape = (Some [], initialPositions, demoTape).
Proof.
  split; [lia|].
  apply (renderRandomizedGeometry_negative_amount string string (-1)). lia.
Defined.

Lemma renderRandomizedGeometry_draws_witness :
  exists group positions' tape' rounds,
    renderRandomizedGeometry string string 1 "torus" "matcap"
      initialPositions demoTape = (Some group, positions', tape') /\
    rounds_fit initialPositions rounds /\
    demoTape = rounds_outcomes rounds ++ tape' /\
    length (rounds_outcomes rounds) = 5 * length group + 3 * rejections rounds.
Proof.
  destruct (renderRandomizedGeometry string string 1 "torus" "matcap"
              initialPositions demoTape) as [[[group|] positions'] tape'] eqn:Hrun.
  - destruct (renderRandomizedGeometry_draws string string 1 "torus" "matcap"
                initialPositions demoTape group positions' tape' Hrun)
      as (rounds & Hfit & _ & Htape & Hused).
    exists group, positions', tape', rounds.
    split; [reflexivity|]. split; [exact Hfit|]. split; [exact Htape|exact Hused].
  - vm_compute in Hrun. discriminate Hrun.
Defined.

(** *** Rounding: an accepted position less than 5 from the origin

    The exact square of the Euclidean distance between two positions
    with finite coordinates. *)
Definition exactDistanceSquared (a b : Vector3.t Binary64.value)
    : option QArith_base.Q :=
  let square (u v : Binary64.value) :=
    match Binary64.exact (Binary64.toNumber u), Binary64.exact (Binary64.toNumber v) with
    | Some p, Some q =>
        Some (QArith_base.Qmult (QArith_base.Qminus p q) (QArith_base.Qminus p q))
    | _, _ => None
    end in
  match square (Vector3.x a) (Vector3.x b),
        square (Vector3.y a) (Vector3.y b),
        square (Vector3.z a) (Vector3.z b) with
  | Some dx2, Some dy2, Some dz2 =>
      Some (QArith_base.Qplus (QArith_base.Qplus dx2 dy2) dz2)
  | _, _, _ => None
  end.

(** Three draws for a candidate just inside the sphere of radius 5
    around the origin, and two for the rotation. *)
Definition closeTape : list Binary64.value :=
  [Binary64.Number (S754_finite false 5021132735156816 (-53));
   Binary64.Number (S754_finite false 4973121846434731 (-53));
   Binary64.Number (S754_finite false 5071934697814065 (-53));
   tenth 5; tenth 5].

(** The call accepts the candidate, because the sum of the squares
    rounds to 25 and its root to 5, but the position is less than 5 away
    from the origin entry of [positions]. *)
Lemma accepted_position_closer_than_5 :
  Forall (fun r => Binary64.unit_interval (Binary64.toNumber r)) closeTape /\
  exists (group : Group string string) (p : Position),
    renderRandomizedGeometry string string 0 "torus" "matcap"
      initialPositions closeTape =
      (Some group, initialPositions ++ [p], []) /\
    exists d2,
      exactDistanceSquared (position p)
        (Vector3.make (num_of_Z 0) (num_of_Z 0) (num_of_Z 0)) = Some d2 /\
      QArith_base.Qlt d2 (QArith_base.Qmake 25 1).
Proof.
  split.
  - unfold closeTape.
    repeat (apply Forall_cons; split;
            [vm_compute; split; [reflexivity|split; reflexivity]|]).
    constructor.
  - eexists _, _. split; [vm_compute; reflexivity|].
    eexists. split; [vm_compute; reflexivity|].
    vm_compute. reflexivity.
Qed.

End FontLoading.

(** ** The three-helper fragment with [buildRandomVertexPosition] *)
Module ThreeHelper.
Import Binary64.
Local Open Scope Z_scope.

Definition floorWidth : spec_float := of_Z 12.

(** [getRandomNumber(min, max)] for the outcome [r] of its
    [Math.random()]. *)
Definition getRandomNumber (r : spec_float) (min max : spec_float) : spec_float :=
  SFadd prec emax
    (SFfloor
       (SFmul prec emax r
          (SFadd prec emax (SFsub prec emax max min) (of_Z 1))))
    min.

(** [buildRandomVertexPosition()] for the outcomes of its three draws,
    in the order the array literal makes them. *)
Definition buildRandomVertexPosition (r1 r2 r3 : spec_float) : list spec_float :=
  [getRandomNumber r1 (SFopp floorWidth) floorWidth;
   getRandomNumber r2 (of_Z 12) (of_Z 20);
   getRandomNumber r3 (SFopp floorWidth) floorWidth].

(** *** Rounding in [SpecFloat]

    The product of two doubles is the exact product of the mantissas,
    shifted right until it fits (remembering whether the bits shifted out
    reach one half) and rounded to nearest even. *)

Lemma digits2_size p : digits2_pos p = Pos.size p.
Proof. induction p; simpl; congruence. Qed.

Lemma digits_gt p : Zpos p < 2 ^ Zpos (digits2_pos p).
Proof.
  rewrite digits2_size. pose proof (Pos.size_gt p) as Hgt.
  apply Pos2Z.pos_lt_pos in Hgt. by rewrite Pos2Z.inj_pow in Hgt.
Qed.

Lemma digits_le p : 2 ^ (Zpos (digits2_pos p) - 1) <= Zpos p.
Proof.
  rewrite digits2_size. pose proof (Pos.size_le p) as Hle.
  apply Pos2Z.pos_le_pos in Hle. rewrite Pos2Z.inj_pow in Hle.
  replace (Zpos (Pos.size p)) with (Z.succ (Zpos (Pos.size p) - 1)) in Hle by lia.
  rewrite Z.pow_succ_r in Hle by lia. lia.
Qed.

Lemma digits_bound p k : 0 <= k -> Zpos p < 2 ^ k -> Zpos (digits2_pos p) <= k.
Proof.
  intros Hk Hlt. destruct (Z_le_gt_dec (Zpos (digits2_pos p)) k) as [|Hgt]; [done|].
  pose proof (digits_le p) as Hle.
  assert (2 ^ k <= 2 ^ (Zpos (digits2_pos p) - 1)) by (apply Z.pow_le_mono_r; lia).
  lia.
Qed.

(** After [k] right shifts of [m0]. *)
Definition shifted (m0 k : Z) (mrs : shr_record) : Prop :=
  shr_m mrs = m0 / 2 ^ k /\
  (shr_r mrs = true -> 1 <= k /\ 2 ^ (k - 1) <= m0 mod 2 ^ k).

Lemma shr_1_shifted m0 k mrs :
  0 <= m0 -> 0 <= k -> shifted m0 k mrs -> shifted m0 (k + 1) (shr_1 mrs).
Proof.
  intros Hm0 Hk [Hm _]. destruct mrs as [m r s]. cbn [shr_m shr_r] in *.
  assert (Hpow : 0 < 2 ^ k) by (apply Z.pow_pos_nonneg; lia).
  assert (Hdiv : m0 / 2 ^ (k + 1) = m / 2).
  { rewrite Z.pow_add_r, Z.pow_1_r by lia. rewrite <- Z.div_div by lia. by rewrite Hm. }
  assert (Hmod : m0 mod 2 ^ (k + 1) = m0 mod 2 ^ k + 2 ^ k * (m mod 2)).
  { rewrite Z.pow_add_r, Z.pow_1_r by lia. rewrite Z.rem_mul_r by lia. by rewrite Hm. }
  assert (Hm' : 0 <= m) by (rewrite Hm; apply Z.div_pos; lia).
  assert (Hrem : 0 <= m0 mod 2 ^ k) by (apply Z.mod_pos_bound; lia).
  unfold shifted. replace (k + 1 - 1) with k by lia.
  rewrite Hdiv, Hmod.
  destruct m as [|[p|p|]|p]; cbn [shr_1 shr_m shr_r]; try lia.
  - split; [reflexivity|discriminate].
  - split; [|intros _; split; [lia|]].
    + rewrite Pos2Z.inj_xI. apply (Z.div_unique _ _ _ 1); lia.
    + rewrite Pos2Z.inj_xI.
      replace ((2 * Zpos p + 1) mod 2) with 1; [lia|].
      apply (Z.mod_unique _ _ (Zpos p)); lia.
  - split; [|discriminate].
    rewrite Pos2Z.inj_xO. apply (Z.div_unique _ _ _ 0); lia.
  - split; [reflexivity|intros _; split; [lia|]].
    change (1 mod 2) with 1. lia.
Qed.

Lemma iter_pos_shifted m0 p :
  forall k mrs,
    0 <= m0 -> 0 <= k -> shifted m0 k mrs ->
    shifted m0 (k + Zpos p) (SpecFloat.iter_pos shr_1 p mrs).
Proof.
  induction p as [p IH|p IH|]; intros k mrs Hm0 Hk Hs; cbn [SpecFloat.iter_pos].
  - replace (k + Zpos p~1) with (k + 1 + Zpos p + Zpos p) by lia.
    apply IH; [done|lia|]. apply IH; [done|lia|]. by apply shr_1_shifted.
  - replace (k + Zpos p~0) with (k + Zpos p + Zpos p) by lia.
    apply IH; [done|lia|]. by apply IH.
  - by apply shr_1_shifted.
Qed.

Lemma shifted_round m0 n mrs :
  0 <= m0 -> 0 <= n -> shifted m0 n mrs ->
  let m1 := round_nearest_even (shr_m mrs) (loc_of_shr_record mrs) in
  0 <= m1 /\ 2 * (m1 * 2 ^ n) <= 2 * m0 + 2 ^ n.
Proof.
  intros Hm0 Hn [Hm Hr]. destruct mrs as [m r s]. cbn [shr_m shr_r] in *.
  assert (Hpow : 0 < 2 ^ n) by (apply Z.pow_pos_nonneg; lia).
  assert (Hm' : 0 <= m) by (rewrite Hm; apply Z.div_pos; lia).
  pose proof (Z.div_mod m0 (2 ^ n) ltac:(lia)) as Hdm. rewrite <- Hm in Hdm.
  pose proof (Z.mod_pos_bound m0 (2 ^ n) Hpow) as Hrem.
  assert (Hup : r = true -> 2 * ((m + 1) * 2 ^ n) <= 2 * m0 + 2 ^ n).
  { intros Hrt. destruct (Hr Hrt) as [Hn1 Hhalf].
    replace (2 ^ n) with (2 * 2 ^ (n - 1)) in *
      by (rewrite <- Z.pow_succ_r by lia; f_equal; lia).
    nia. }
  destruct r, s; cbn [loc_of_shr_record round_nearest_even].
  - split; [lia|]. by apply Hup.
  - destruct (Z.even m); (split; [lia|]); [nia|by apply Hup].
  - split; [lia|nia].
  - split; [lia|nia].
Qed.

Lemma shr_fexp_shifted m e :
  0 <= m ->
  let n := Z.max 0 (fexp prec emax (Zdigits2 m + e) - e) in
  exists mrs, shr_fexp prec emax m e loc_Exact = (mrs, e + n) /\ shifted m n mrs.
Proof.
  intros Hm n. unfold shr_fexp, shr. cbn [shr_record_of_loc].
  assert (H0 : shifted m 0 {| shr_m := m; shr_r := false; shr_s := false |}).
  { split; [|discriminate]. cbn [shr_m]. by rewrite Z.pow_0_r, Z.div_1_r. }
  subst n. destruct (fexp prec emax (Zdigits2 m + e) - e) as [|p|p] eqn:Hshift.
  - eexists. split; [|exact H0]. f_equal. lia.
  - eexists. split; [f_equal; lia|].
    replace (Z.max 0 (Zpos p)) with (0 + Zpos p) by lia.
    by apply iter_pos_shifted.
  - eexists. split; [|exact H0]. f_equal. lia.
Qed.

Lemma binary_round_aux_bound mx ex :
  0 < mx ->
  let n := Z.max 0 (fexp prec emax (Zdigits2 mx + ex) - ex) in
  exists m2 e2,
    0 <= m2 /\ ex <= e2 /\
    2 * (m2 * 2 ^ (e2 - ex)) <= 2 * mx + 2 ^ n /\
    binary_round_aux prec emax false mx ex loc_Exact =
      match m2 with
      | Z0 => S754_zero false
      | Zpos m =>
          if e2 <=? emax - prec then S754_finite false m e2
          else S754_infinity false
      | Zneg _ => S754_nan
      end.
Proof.
  intros Hmx n. unfold binary_round_aux.
  destruct (shr_fexp_shifted mx ex ltac:(lia)) as (mrs1 & -> & Hs1).
  fold n in Hs1 |- *.
  assert (Hn : 0 <= n) by (subst n; lia).
  destruct (shifted_round mx n mrs1 ltac:(lia) Hn Hs1) as [Hm1 Hround].
  set (m1 := round_nearest_even (shr_m mrs1) (loc_of_shr_record mrs1)) in *.
  destruct (shr_fexp_shifted m1 (ex + n) Hm1) as (mrs2 & -> & [Hm2 _]).
  set (n2 := Z.max 0 (fexp prec emax (Zdigits2 m1 + (ex + n)) - (ex + n))) in *.
  assert (Hn2 : 0 <= n2) by (subst n2; lia).
  exists (shr_m mrs2), (ex + n + n2).
  assert (Hpow2 : 0 < 2 ^ n2) by (apply Z.pow_pos_nonneg; lia).
  assert (Hpow : 0 < 2 ^ n) by (apply Z.pow_pos_nonneg; lia).
  split; [rewrite Hm2; apply Z.div_pos; lia|]. split; [lia|]. split; [|done].
  replace (ex + n + n2 - ex) with (n2 + n) by lia. rewrite Z.pow_add_r by lia.
  pose proof (Z.mul_div_le m1 (2 ^ n2) Hpow2) as Hle. rewrite <- Hm2 in Hle.
  nia.
Qed.

Lemma bounded_mantissa m e :
  bounded prec emax m e = true -> Zpos m < 2 ^ 53 /\ -1074 <= e.
Proof.
  unfold bounded, canonical_mantissa, fexp, emin, prec, emax.
  intros [Hcanon _]%andb_true_iff. apply Z.eqb_eq in Hcanon.
  split; [|lia].
  pose proof (digits_gt m) as Hgt.
  assert (Zpos (digits2_pos m) <= 53) by lia.
  assert (2 ^ Zpos (digits2_pos m) <= 2 ^ 53) by (apply Z.pow_le_mono_r; lia).
  lia.
Qed.

(** A double below 1 times a double [n * 2^(-ec)] that is an integer [n]
    and no power of two, floored. *)
Lemma floor_mul_range (m : positive) (e : Z) (mc : positive) (ec n : Z) :
  bounded prec emax m e = true ->
  e < -52 ->
  2 ^ 52 < Zpos mc < 2 ^ 53 ->
  -52 <= ec <= 0 ->
  Zpos mc = n * 2 ^ (- ec) ->
  exists k,
    0 <= k < n /\
    SFfloor (SFmul prec emax (S754_finite false m e) (S754_finite false mc ec)) =
      of_Z k.
Proof.
  intros Hbounded He Hmc Hec Hn.
  destruct (bounded_mantissa m e Hbounded) as [Hm Hemin].
  cbn [SFmul xorb].
  assert (Hn0 : 0 < n).
  { assert (0 < 2 ^ (- ec)) by (apply Z.pow_pos_nonneg; lia). nia. }
  destruct (binary_round_aux_bound (Zpos (m * mc)) (e + ec) ltac:(lia))
    as (m2 & e2 & Hm2 & He2 & Hbound & ->).
  set (n1 := Z.max 0 (fexp prec emax (Zdigits2 (Zpos (m * mc)) + (e + ec)) - (e + ec)))
    in Hbound.
  assert (Hn1 : 0 <= n1 <= 53).
  { subst n1. unfold fexp, emin, prec, emax. cbn [Zdigits2].
    assert (Zpos (digits2_pos (m * mc)) <= 106); [|lia].
    apply digits_bound; [lia|]. rewrite Pos2Z.inj_mul.
    change (2 ^ 106) with (2 ^ 53 * 2 ^ 53). nia. }
  assert (Hpow1 : 2 ^ n1 <= 2 ^ 53) by (apply Z.pow_le_mono_r; lia).
  set (w := - (e + ec)).
  assert (Hw : 53 <= w) by (subst w; lia).
  assert (Hm1 : Zpos m + 1 <= 2 ^ (- e)).
  { assert (2 ^ 53 <= 2 ^ (- e)) by (apply Z.pow_le_mono_r; lia). lia. }
  assert (Hscale : n * 2 ^ w = 2 ^ (- e) * Zpos mc).
  { subst w. replace (- (e + ec)) with (- e + - ec) by lia.
    rewrite Z.pow_add_r by lia. rewrite Hn. ring. }
  set (t := e2 - (e + ec)) in *.
  assert (Ht : 0 <= t) by (subst t; lia).
  assert (Hlt : m2 * 2 ^ t < n * 2 ^ w).
  { rewrite Hscale. rewrite Pos2Z.inj_mul in Hbound. nia. }
  assert (Hpw : 0 < 2 ^ w) by (apply Z.pow_pos_nonneg; lia).
  assert (Hpt : 0 < 2 ^ t) by (apply Z.pow_pos_nonneg; lia).
  destruct m2 as [|M|M]; [| |lia].
  - exists 0. split; [lia|reflexivity].
  - assert (He2' : e2 <= emax - prec).
    { unfold emax, prec.
      destruct (Z_le_gt_dec e2 971) as [|Hbig]; [done|exfalso].
      assert (Htw : t = w + (t - w)) by lia.
      assert (2 ^ 53 <= 2 ^ (t - w)) by (apply Z.pow_le_mono_r; subst t w; lia).
      rewrite Htw, Z.pow_add_r in Hlt by (subst t w; lia).
      assert (n <= Zpos mc).
      { assert (1 <= 2 ^ (- ec)) by (apply Z.pow_le_mono_r with (b := 0); lia).
        nia. }
      assert (n <= Zpos M * 2 ^ (t - w)) by nia.
      assert (n * 2 ^ w <= Zpos M * 2 ^ (t - w) * 2 ^ w)
        by (apply Z.mul_le_mono_nonneg_r; lia).
      replace (Zpos M * (2 ^ w * 2 ^ (t - w)))
        with (Zpos M * 2 ^ (t - w) * 2 ^ w) in Hlt by ring.
      lia. }
    apply Z.leb_le in He2'. rewrite He2'. cbn [SFfloor].
    exists (floorZ false M e2). split; [|reflexivity].
    unfold floorZ. destruct (0 <=? e2) eqn:Hsign.
    + apply Z.leb_le in Hsign. cbn [cond_Zopp].
      assert (Hte : t = e2 + w) by (subst t w; lia).
      rewrite Hte, Z.pow_add_r in Hlt by lia.
      assert (0 < 2 ^ e2) by (apply Z.pow_pos_nonneg; lia).
      split; [lia|nia].
    + apply Z.leb_gt in Hsign.
      assert (Hwe : w = - e2 + t) by (subst t w; lia).
      rewrite Hwe, Z.pow_add_r in Hlt by lia.
      assert (0 < 2 ^ (- e2)) by (apply Z.pow_pos_nonneg; lia).
      split; [apply Z.div_pos; lia|].
      apply Z.div_lt_upper_bound; [lia|]. nia.
Qed.

Lemma unit_interval_cases r :
  unit_interval r ->
  (exists s, r = S754_zero s) \/
  (exists m e, r = S754_finite false m e /\ bounded prec emax m e = true /\ e < -52).
Proof.
  intros (Hvalid & Hle & Hlt). destruct r as [s|s| |s m e]; try discriminate.
  - left. by exists s.
  - destruct s; discriminate.
  - right. destruct s; [discriminate|]. exists m, e. split; [done|].
    cbn [valid_binary] in Hvalid. split; [done|].
    change (of_Z 1) with (S754_finite false 4503599627370496 (-52)) in Hlt.
    unfold SFltb, SFcompare in Hlt.
    destruct (e ?= -52) eqn:Hcmp; try discriminate.
    + apply Z.compare_eq in Hcmp. subst e. exfalso.
      destruct (Pos.compare_cont Eq m 4503599627370496) eqn:Hm; try discriminate.
      assert (Hm' : Zpos m < 4503599627370496)
        by (apply Pos2Z.pos_lt_pos; exact Hm).
      unfold bounded, canonical_mantissa, fexp, emin, prec, emax in Hvalid.
      apply andb_true_iff in Hvalid as [Hcanon _]. apply Z.eqb_eq in Hcanon.
      pose proof (digits_le m) as Hdigits.
      replace (Zpos (digits2_pos m)) with 53 in Hdigits by lia.
      change (2 ^ (53 - 1)) with 4503599627370496 in Hdigits. lia.
    + by apply Z.compare_lt_iff in Hcmp.
Qed.

Lemma add_offset_x k :
  0 <= k < 25 ->
  SFadd prec emax (of_Z k) (SFopp floorWidth) = of_Z (k - 12).
Proof.
  intros Hk.
  assert (Hin : In k (List.map Z.of_nat (seq 0 25))).
  { apply in_map_iff. exists (Z.to_nat k). split; [lia|]. apply in_seq. lia. }
  vm_compute in Hin.
  repeat (destruct Hin as [<-|Hin]; [vm_compute; reflexivity|]).
  destruct Hin.
Qed.

Lemma add_offset_y k :
  0 <= k < 9 ->
  SFadd prec emax (of_Z k) (of_Z 12) = of_Z (k + 12).
Proof.
  intros Hk.
  assert (Hin : In k (List.map Z.of_nat (seq 0 9))).
  { apply in_map_iff. exists (Z.to_nat k). split; [lia|]. apply in_seq. lia. }
  vm_compute in Hin.
  repeat (destruct Hin as [<-|Hin]; [vm_compute; reflexivity|]).
  destruct Hin.
Qed.

Lemma getRandomNumber_x r :
  unit_interval r ->
  exists k, -12 <= k <= 12 /\
    getRandomNumber r (SFopp floorWidth) floorWidth = of_Z k.
Proof.
  intros Hr. unfold getRandomNumber.
  assert (Hc : SFadd prec emax (SFsub prec emax floorWidth (SFopp floorWidth)) (of_Z 1) =
               S754_finite false 7036874417766400 (-48)) by (vm_compute; reflexivity).
  rewrite Hc.
  destruct (unit_interval_cases r Hr) as [[s ->]|(m & e & -> & Hbounded & He)].
  - exists (-12). split; [lia|]. by destruct s.
  - destruct (floor_mul_range m e 7036874417766400 (-48) 25 Hbounded He)
      as (k & Hk & ->); [lia|lia|reflexivity|].
    exists (k - 12). split; [lia|]. by apply add_offset_x.
Qed.

Lemma getRandomNumber_y r :
  unit_interval r ->
  exists k, 12 <= k <= 20 /\
    getRandomNumber r (of_Z 12) (of_Z 20) = of_Z k.
Proof.
  intros Hr. unfold getRandomNumber.
  assert (Hc : SFadd prec emax (SFsub prec emax (of_Z 20) (of_Z 12)) (of_Z 1) =
               S754_finite false 5066549580791808 (-49)) by (vm_compute; reflexivity).
  rewrite Hc.
  destruct (unit_interval_cases r Hr) as [[s ->]|(m & e & -> & Hbounded & He)].
  - exists 12. split; [lia|]. by destruct s.
  - destruct (floor_mul_range m e 5066549580791808 (-49) 9 Hbounded He)
      as (k & Hk & ->); [lia|lia|reflexivity|].
    exists (k + 12). split; [lia|]. by apply add_offset_y.
Qed.

(** C10.  Whatever doubles in [0, 1) the three calls to [Math.random()]
    return, [buildRandomVertexPosition] returns three doubles that are
    integers: the first and the third in [-floorWidth, floorWidth] =
    [-12, 12], the second in [12, 20]. *)
Theorem buildRandomVertexPosition_range (r1 r2 r3 : spec_float) :
  unit_interval r1 -> unit_interval r2 -> unit_interval r3 ->
  exists x y z : Z,
    buildRandomVertexPosition r1 r2 r3 = [of_Z x; of_Z y; of_Z z] /\
    -12 <= x <= 12 /\ 12 <= y <= 20 /\ -12 <= z <= 12.
Proof.
  intros H1 H2 H3. unfold buildRandomVertexPosition.
  destruct (getRandomNumber_x r1 H1) as (x & Hx & ->).
  destruct (getRandomNumber_y r2 H2) as (y & Hy & ->).
  destruct (getRandomNumber_x r3 H3) as (z & Hz & ->).
  by exists x, y, z.
Qed.

(** The largest double below 1, zero and one half. *)
Lemma buildRandomVertexPosition_range_witness :
  unit_interval (S754_finite false 9007199254740991 (-53)) /\
  unit_interval (S754_zero false) /\
  unit_interval (S754_finite false 4503599627370496 (-53)) /\
  exists x y z : Z,
    buildRandomVertexPosition (S754_finite false 9007199254740991 (-53))
      (S754_zero false) (S754_finite false 4503599627370496 (-53)) =
      [of_Z x; of_Z y; of_Z z] /\
    -12 <= x <= 12 /\ 12 <= y <= 20 /\ -12 <= z <= 12.
Proof.
  assert (H1 : unit_interval (S754_finite false 9007199254740991 (-53)))
    by (repeat split; vm_compute; reflexivity).
  assert (H2 : unit_interval (S754_zero false))
    by (repeat split; vm_compute; reflexivity).
  assert (H3 : unit_interval (S754_finite false 4503599627370496 (-53)))
    by (repeat split; vm_compute; reflexivity).
  split; [exact H1|]. split; [exact H2|]. split; [exact H3|].
  exact (buildRandomVertexPosition_range _ _ _ H1 H2 H3).
Defined.

(** *** The matcap that [createGeometry] picks *)

(** [textureMap]: the textures loaded from [/matcaps/1.webp] up to
    [/matcaps/14.webp], each known here by its number. *)
Definition textureMap : list Z :=
  List.map (fun index => Z.of_nat index + 1) (seq 0%nat 14%nat).

(** [a[x]] for a double [x]: the element whose index equals [x], and
    [undefined] (here [None]) when no index does. *)
Definition array_get {A} (a : list A) (x : spec_float) : option A :=
  match List.filter (fun index => SFeqb x (of_Z (Z.of_nat index)))
          (seq 0%nat (length a)) with
  | index :: _ => a !! index
  | [] => None
  end.

(** [textureMap[getRandomNumber(1, textureMap.length)]] for the outcome
    [r] of the [Math.random()] in [getRandomNumber]. *)
Definition matcap (r : spec_float) : option Z :=
  array_get textureMap
    (getRandomNumber r (of_Z 1) (of_Z (Z.of_nat (length textureMap)))).

Lemma add_offset_1 k :
  0 <= k < 14 ->
  SFadd prec emax (of_Z k) (of_Z 1) = of_Z (k + 1).
Proof.
  intros Hk.
  assert (Hin : In k (List.map Z.of_nat (seq 0 14))).
  { apply in_map_iff. exists (Z.to_nat k). split; [lia|]. apply in_seq. lia. }
  vm_compute in Hin.
  repeat (destruct Hin as [<-|Hin]; [vm_compute; reflexivity|]).
  destruct Hin.
Qed.

Lemma textureMap_get k :
  1 <= k <= 14 ->
  array_get textureMap (of_Z k) = if k =? 14 then None else Some (k + 1).
Proof.
  intros Hk.
  assert (Hin : In k (List.map Z.of_nat (seq 1 14))).
  { apply in_map_iff. exists (Z.to_nat k). split; [lia|]. apply in_seq. lia. }
  vm_compute in Hin.
  repeat (destruct Hin as [<-|Hin]; [vm_compute; reflexivity|]).
  destruct Hin.
Qed.

Lemma getRandomNumber_matcap r :
  unit_interval r ->
  exists k, 1 <= k <= 14 /\
    getRandomNumber r (of_Z 1) (of_Z 14) = of_Z k.
Proof.
  intros Hr. unfold getRandomNumber.
  assert (Hc : SFadd prec emax (SFsub prec emax (of_Z 14) (of_Z 1)) (of_Z 1) =
               S754_finite false 7881299347898368 (-49)) by (vm_compute; reflexivity).
  rewrite Hc.
  destruct (unit_interval_cases r Hr) as [[s ->]|(m & e & -> & Hbounded & He)].
  - exists 1. split; [lia|]. by destruct s.
  - destruct (floor_mul_range m e 7881299347898368 (-49) 14 Hbounded He)
      as (k & Hk & ->); [lia|lia|reflexivity|].
    exists (k + 1). split; [lia|]. by apply add_offset_1.
Qed.

(** X18.  The index that [createGeometry] draws for the matcap is an integer
    from 1 to 14 = [textureMap.length].  So the first texture,
    [textureMap[0]], is never picked, an index from 1 to 13 picks the
    texture of the file with the next number, and the index 14 is past
    the end of the array: the matcap is then [undefined].  That last case
    occurs for a draw close enough to 1. *)
Theorem matcap_choice :
  (forall r, unit_interval r ->
     exists k, 1 <= k <= 14 /\
       getRandomNumber r (of_Z 1) (of_Z (Z.of_nat (length textureMap))) = of_Z k /\
       matcap r = (if k =? 14 then None else Some (k + 1)) /\
       matcap r <> textureMap !! 0%nat) /\
  (exists r, unit_interval r /\ matcap r = None).
Proof.
  split.
  - intros r Hr. unfold matcap.
    change (of_Z (Z.of_nat (length textureMap))) with (of_Z 14).
    destruct (getRandomNumber_matcap r Hr) as (k & Hk & ->).
    exists k. split; [done|]. split; [done|].
    rewrite textureMap_get by done.
    split; [done|].
    change (textureMap !! 0%nat) with (Some 1).
    destruct (k =? 14); [done|]. intros [= ?]. lia.
  - exists (S754_finite false 9007199254740991 (-53)).
    split; vm_compute; [|reflexivity]. by repeat split.
Qed.

End ThreeHelper.

(** ** The module bodies of the demos

    A demo script is straight-line code: its run is the sequence of the
    calls it makes, in program order.  Recorded are the calls that load
    an asset, add to the scene, build the camera, the controls or the
    renderer, register a callback, and what the callbacks do; building
    geometries and materials and setting properties is not recorded.  A
    callback (an animation frame, a finished font load, a worker message)
    runs after the module body has run to its end.  For [main.ts] the
    run below gives the order of the calls; what they do to the page is
    in [Bouncy]. *)
Module Demos.

Inductive Action :=
| NewGUI
| NewScene
| NewStats
| LoadTexture (url : string)
| LoadFont (url : string)
| LoadWorker (url : string)
| SceneAdd (objects : list string)
| PlaceRandomizedGeometry (amount : Z)
| AddResizeListener
| SetOnMessage
| NewCamera
| NewControls
| NewRenderer
| NewTimer
| NewTextGeometry
| CreateMesh
| ConsoleLog
| TimerUpdate
| StatsBegin
| StatsEnd
| ControlsUpdate
| RendererRender
| RequestAnimationFrame
| PostWorldStep
| CheckFallingObjects
| PostAddObjects
| SyncMeshes
| MoveFloor
| RemoveMesh
| ResizeCanvas.












(** *** The haunted house *)
Module HauntedHouse.

Definition tick : list Action :=
  [TimerUpdate; ControlsUpdate; RendererRender; RequestAnimationFrame].

Definition moduleBody : list Action :=
  [NewGUI;
   NewScene;
   SceneAdd ["AxesHelper"];
   LoadTexture "/floor/alpha.jpg";
   LoadTexture "/floor/coast_land.jpg";
   LoadTexture "/floor/coast_land_normal.png";
   LoadTexture "/floor/mud_cracked-min.png";
   LoadTexture "/door/color.jpg";
   LoadTexture "/door/normal.jpg";
   LoadTexture "/door/ambientOcclusion.jpg";
   LoadTexture "/textures/mixed_brick_wall.jpg";
   LoadTexture "/textures/mixed_brick_wall_normal.png";
   LoadTexture "/textures/mixed_brick_wall_ao.png";
   LoadTexture "/textures/herringbone_pavement.png";
   SceneAdd ["house"; "floor"];
   SceneAdd ["bush"; "bush"; "bush"; "bush"];
   SceneAdd ["ambientLight"];
   SceneAdd ["directionalLight"];
   AddResizeListener;
   NewCamera;
   SceneAdd ["camera"];
   NewControls;
   NewRenderer;
   NewTimer]
  ++ tick.

(** The page after [frames] animation frames. *)
Definition run (frames : nat) : list Action :=
  moduleBody ++ List.concat (List.repeat tick frames).

Definition assets : list string :=
  ["/floor/alpha.jpg"; "/floor/coast_land.jpg"; "/floor/coast_land_normal.png";
   "/floor/mud_cracked-min.png"; "/door/color.jpg"; "/door/normal.jpg";
   "/door/ambientOcclusion.jpg"; "/textures/mixed_brick_wall.jpg";
   "/textures/mixed_brick_wall_normal.png"; "/textures/mixed_brick_wall_ao.png";
   "/textures/herringbone_pavement.png"].

Definition objects : list string :=
  ["AxesHelper"; "house"; "floor"; "bush"; "bush"; "bush"; "bush";
   "ambientLight"; "directionalLight"; "camera"].

End HauntedHouse.

(** *** The font demo *)
Module FontDemo.

Definition animate : list Action :=
  [RendererRender; ControlsUpdate; RequestAnimationFrame].

(** The callback of [fontLoader.load]. *)
Definition onFontLoaded : list Action :=
  [ConsoleLog; NewTextGeometry; SceneAdd ["text"]].

Definition moduleBody : list Action :=
  [NewScene;
   SceneAdd ["AxesHelper"];
   LoadTexture "/matcaps/1.png";
   PlaceRandomizedGeometry 1000;
   LoadFont "/fonts/WinkySans_Bold.json";
   NewCamera;
   NewRenderer;
   NewControls]
  ++ animate.

Inductive Callback := Frame | FontLoaded.

Definition callback (c : Callback) : list Action :=
  match c with
  | Frame => animate
  | FontLoaded => onFontLoaded
  end.

(** The page after the callbacks [cs] have run, in that order. *)
Definition run (cs : list Callback) : list Action :=
  moduleBody ++ List.concat (List.map callback cs).

Definition assets : list string :=
  ["/matcaps/1.png"; "/fonts/WinkySans_Bold.json"].

(** What a callback adds to the scene. *)
Definition added (c : Callback) : list string :=
  match c with
  | Frame => []
  | FontLoaded => ["text"]
  end.

End FontDemo.

(** *** The bouncy balls: [main.ts] in program order *)
Module BouncyBalls.



(** [tick], below the frame cap and at it. *)
Definition tick (reached : bool) : list Action :=
  if reached
  then [RequestAnimationFrame; StatsBegin; ControlsUpdate; PostWorldStep;
        CheckFallingObjects; RendererRender; StatsEnd]
  else [RequestAnimationFrame; StatsBegin].

Definition initStartingObjects : list Action :=
  List.concat (List.repeat [CreateMesh; SceneAdd ["sphere"]] 20) ++ [PostAddObjects].

(** [reached] says whether the first [tick()] gets to the frame cap. *)
Definition moduleBody (canvas : list Action) (reached : bool) : list Action :=
  [LoadWorker "worker.ts"; NewStats]
  ++ canvas
  ++ [NewGUI; SetOnMessage; SceneAdd ["floor"]; AddResizeListener; NewTimer]
  ++ tick reached.

(** The callbacks that [main.ts] registers: the animation frame, the
    four kinds of worker message ([removed] meshes are retired), and the
    resize listener. *)
Inductive Callback :=
| Frame (reached : bool)
| RapierReady
| UpdateMeshes
| RotateFloor
| RemoveInactives (removed : nat)
| Resize.

Definition callback (c : Callback) : list Action :=
  match c with
  | Frame reached => tick reached
  | RapierReady => initStartingObjects
  | UpdateMeshes => [SyncMeshes]
  | RotateFloor => [MoveFloor]
  | RemoveInactives removed => List.repeat RemoveMesh removed
  | Resize => [ResizeCanvas]
  end.

Definition run (canvas : list Action) (reached : bool) (cs : list Callback)
    : list Action :=
  moduleBody canvas reached ++ List.concat (List.map callback cs).

Definition added (c : Callback) : list string :=
  match c with
  | RapierReady => List.repeat "sphere" 20
  | _ => []
  end.



End BouncyBalls.




















End Demos.
